(** * restruct_pdf: numbered headings, section accumulation and nesting

    A shallow embedding of [restruct_pdf.py].  Python values are modelled
    as the program uses them:
    - [str] as [string], read as a sequence of code points below 256;
    - [int] as [Z]; font sizes and coordinates, floats in the program, as
      rationals [Q], which the program only compares and subtracts;
    - an exception as the [Raise] result of the [result] monad;
    - a compiled pattern as a [regex] term, matched by backtracking;
    - the document as the records PyMuPDF hands over, with
      [Rect.intersects] as a parameter of the extraction;
    - the dicts and lists that [nest_sections_by_hierarchy] allocates and
      mutates as objects of an explicit heap, addressed by position. *)

From Stdlib Require Import ZArith String Ascii List Bool Lia QArith.
From stdpp Require Import base option list gmap strings.

(** ** Exceptions *)

Inductive pyerr : Type :=
  | ValueError | IndexError | KeyError | TypeError | AttributeError.

Inductive result (A : Type) : Type :=
  | Ok (a : A)
  | Raise (e : pyerr).
Arguments Ok {A} a.
Arguments Raise {A} e.

Definition rbind {A B : Type} (m : result A) (f : A → result B) : result B :=
  match m with
  | Ok a => f a
  | Raise e => Raise e
  end.

Notation "'let!' x ':=' m 'in' k" := (rbind m (λ x, k))
  (at level 10, x name, m at level 100, k at level 200, only parsing).
Notation "'let!' ' p ':=' m 'in' k" :=
  (rbind m (λ x, match x with p => k end))
  (at level 10, p pattern, m at level 100, k at level 200, only parsing).

Fixpoint rmap {A B : Type} (f : A → result B) (l : list A) : result (list B) :=
  match l with
  | [] => Ok []
  | x :: l' => let! y := f x in let! ys := rmap f l' in Ok (y :: ys)
  end.

Definition returns {A : Type} (m : result A) : Prop := ∃ a, m = Ok a.

(** ** The [str] operations the program uses *)

Definition code (c : ascii) : nat := nat_of_ascii c.

(** [str.isspace] on one code point below 256: the white space of
    [str.split()] and of the pattern class [\s]. *)
Definition py_isspace (c : ascii) : bool :=
  ((9 <=? code c) && (code c <=? 13)) || ((28 <=? code c) && (code c <=? 32))
  || (code c =? 133) || (code c =? 160).

(** The white space [int()] accepts around a literal: the separators 28
    to 31 are not part of it. *)
Definition int_isspace (c : ascii) : bool :=
  ((9 <=? code c) && (code c <=? 13)) || (code c =? 32)
  || (code c =? 133) || (code c =? 160).

(** The decimal digits below 256, the pattern class [\d]. *)
Definition py_isdigit (c : ascii) : bool :=
  (48 <=? code c) && (code c <=? 57).

Definition digit_value (c : ascii) : Z := Z.of_nat (code c) - 48.

(** [s.split(sep)] for a one-character separator. *)
Fixpoint split_on (sep : ascii) (s : string) : list string :=
  match s with
  | EmptyString => [EmptyString]
  | String c s' =>
      if Ascii.eqb c sep then EmptyString :: split_on sep s'
      else match split_on sep s' with
           | w :: ws => String c w :: ws
           | [] => [String c EmptyString]
           end
  end.

(** [sep.join(parts)]. *)
Fixpoint join (sep : string) (parts : list string) : string :=
  match parts with
  | [] => ""
  | [w] => w
  | w :: ws => w +:+ sep +:+ join sep ws
  end.

(** [s.split()]: the maximal runs of non-white-space characters. *)
Fixpoint split_ws_go (cur : option string) (s : string) : list string :=
  match s with
  | EmptyString => match cur with Some w => [w] | None => [] end
  | String c s' =>
      if py_isspace c then
        match cur with
        | Some w => w :: split_ws_go None s'
        | None => split_ws_go None s'
        end
      else
        match cur with
        | Some w => split_ws_go (Some (w +:+ String c EmptyString)) s'
        | None => split_ws_go (Some (String c EmptyString)) s'
        end
  end.

Definition split_ws (s : string) : list string := split_ws_go None s.

(** [" ".join(s.split())], the title normalisation of the program. *)
Definition normalize_ws (s : string) : string := join " " (split_ws s).

Fixpoint is_prefix (p s : string) : bool :=
  match p, s with
  | EmptyString, _ => true
  | String a p', String b s' => Ascii.eqb a b && is_prefix p' s'
  | String _ _, EmptyString => false
  end.

(** [sub in s] on two [str]. *)
Fixpoint py_in (sub s : string) : bool :=
  is_prefix sub s ||
  match s with
  | EmptyString => false
  | String _ s' => py_in sub s'
  end.

Fixpoint lstrip (s : string) : string :=
  match s with
  | EmptyString => EmptyString
  | String c s' => if int_isspace c then lstrip s' else s
  end.

Fixpoint rstrip (s : string) : string :=
  match s with
  | EmptyString => EmptyString
  | String c s' =>
      match rstrip s' with
      | EmptyString => if int_isspace c then EmptyString else String c EmptyString
      | r => String c r
      end
  end.

(** The digits of an [int()] literal: decimal digits, single underscores
    allowed between two digits. *)
Fixpoint int_digits (acc : Z) (after_digit : bool) (s : string) : result Z :=
  match s with
  | EmptyString => if after_digit then Ok acc else Raise ValueError
  | String c s' =>
      if py_isdigit c then int_digits (10 * acc + digit_value c) true s'
      else if Ascii.eqb c "_" then
        if after_digit then int_digits acc false s' else Raise ValueError
      else Raise ValueError
  end.

(** The interpreter's limit on the digits of a decimal literal, at its
    default value ([sys.get_int_max_str_digits()]). *)
Definition max_str_digits : Z := 4300.

Fixpoint count_digits (s : string) : nat :=
  match s with
  | EmptyString => 0
  | String c s' => (if py_isdigit c then 1 else 0) + count_digits s'
  end.

(** The literal after the sign: its digits, underscores not counted, may
    not be more than [max_str_digits].  Both failures are [ValueError]s. *)
Definition int_literal (t : string) : result Z :=
  let! n := int_digits 0 false t in
  if (Z.of_nat (count_digits t) <=? max_str_digits)%Z then Ok n
  else Raise ValueError.

(** [int(s)] on a [str]: surrounding white space, an optional sign, then
    the digits.  Anything else raises [ValueError]. *)
Definition py_int (s : string) : result Z :=
  match rstrip (lstrip s) with
  | String "+" r => int_literal r
  | String "-" r => let! n := int_literal r in Ok (- n)%Z
  | t => int_literal t
  end.

(** The decimal writing of an integer, which is [str(n)] for an integer
    of at most [max_str_digits] digits. *)
Definition digit_char (d : N) : ascii := ascii_of_N (48 + d).

Fixpoint dec_digits (fuel : nat) (n : N) (acc : string) : string :=
  match fuel with
  | O => acc
  | S fuel' =>
      let acc' := String (digit_char (n mod 10)) acc in
      if (n / 10 =? 0)%N then acc' else dec_digits fuel' (n / 10) acc'
  end.

Definition str_of_N (n : N) : string :=
  dec_digits (S (N.to_nat (N.log2 n))) n "".

Definition py_str_int (z : Z) : string :=
  match z with
  | Zneg p => String "-" (str_of_N (Npos p))
  | _ => str_of_N (Z.to_N z)
  end.

(** ** Numbering *)

(** [parse_numbering]: ['1.2.3'] to [[1; 2; 3]]. *)
Definition parse_numbering (num_str : string) : result (list Z) :=
  rmap py_int (split_on "." num_str).

(** Python's truth value of [prev]: [None] and [''] are false. *)
Definition truthy_str (s : option string) : bool :=
  match s with
  | None | Some EmptyString => false
  | Some _ => true
  end.

(** [l[:-1]] *)
Definition but_last (l : list Z) : list Z := take (length l - 1) l.

(** [l[i]] for [0 <= i]: [IndexError] out of range. *)
Definition index (l : list Z) (i : nat) : result Z :=
  match l !! i with
  | Some x => Ok x
  | None => Raise IndexError
  end.

(** [l[-1]] *)
Definition last_elt (l : list Z) : result Z :=
  match l with
  | [] => Raise IndexError
  | _ => index l (length l - 1)
  end.

Definition list_Z_eqb (a b : list Z) : bool := bool_decide (a = b).

Definition is_next_heading (prev : option string) (current : string)
  : result bool :=
  match prev with
  | Some p =>
      if negb (truthy_str prev) then Ok true else
      let! prev_nums := parse_numbering p in
      let! curr_nums := parse_numbering current in
      if length prev_nums =? length curr_nums then
        if list_Z_eqb (but_last curr_nums) (but_last prev_nums) then
          let! c := last_elt curr_nums in let! p := last_elt prev_nums in
          Ok (c =? p + 1)%Z
        else Ok false
      else
        let deeper_or_higher : result bool :=
          if (length curr_nums =? length prev_nums + 1)
             && list_Z_eqb (but_last curr_nums) prev_nums then Ok true
          else if length curr_nums <? length prev_nums then
            if list_Z_eqb (but_last curr_nums)
                          (take (length curr_nums - 1) prev_nums) then
              let! c := last_elt curr_nums in
              let! p := index prev_nums (length curr_nums - 1) in
              Ok (c =? p + 1)%Z
            else Ok false
          else Ok false in
        if length curr_nums =? 1 then
          let! c := index curr_nums 0 in let! p := index prev_nums 0 in
          if (c =? p + 1)%Z then Ok true else deeper_or_higher
        else deeper_or_higher
  | None => Ok true
  end.

(** ** Patterns

    The fragment of [re] the program's patterns are written in, matched by
    backtracking in the order [re] tries the alternatives: the left branch
    of [|] first, one more round of a greedy [*] before leaving it. *)

Inductive regex : Type :=
  | REps
  | RChar (p : ascii → bool)
  | RSeq (r1 r2 : regex)
  | RAlt (r1 r2 : regex)
  | RStar (r : regex)
  | RGroup (i : nat) (r : regex)
  | RBol
  | REol.

Definition RPlus (r : regex) : regex := RSeq r (RStar r).
Definition ROpt (r : regex) : regex := RAlt r REps.

(** The text of [s] in front of its suffix [rest]. *)
Definition consumed (s rest : string) : string :=
  substring 0 (String.length s - String.length rest) s.

Fixpoint re_go (n0 : nat) (r : regex)
    (k : string → gmap nat string → option (gmap nat string))
    (s : string) (g : gmap nat string) : option (gmap nat string) :=
  match r with
  | REps => k s g
  | RChar p =>
      match s with
      | String c s' => if p c then k s' g else None
      | EmptyString => None
      end
  | RSeq r1 r2 => re_go n0 r1 (re_go n0 r2 k) s g
  | RAlt r1 r2 =>
      match re_go n0 r1 k s g with
      | Some g' => Some g'
      | None => re_go n0 r2 k s g
      end
  | RStar r' =>
      (fix star (fuel : nat) (s : string) (g : gmap nat string) :=
         match fuel with
         | O => k s g
         | S fuel' =>
             match re_go n0 r'
                     (λ s' g', if String.length s' <? String.length s
                               then star fuel' s' g' else None) s g with
             | Some g' => Some g'
             | None => k s g
             end
         end) (S (String.length s)) s g
  | RGroup i r' => re_go n0 r' (λ s' g', k s' (<[i := consumed s s']> g')) s g
  | RBol => if String.length s =? n0 then k s g else None
  | REol =>
      match s with
      | EmptyString => k s g
      | String c EmptyString => if Ascii.eqb c "010" then k s g else None
      | _ => None
      end
  end.

(** [re.match(r, s)]: the groups of the first match at the start of [s]. *)
Definition re_match (r : regex) (s : string) : option (gmap nat string) :=
  re_go (String.length s) r (λ _ g, Some g) s ∅.

(** [re.search(r, s)], used for its truth value only. *)
Fixpoint re_search_from (n0 : nat) (r : regex) (s : string) : bool :=
  match re_go n0 r (λ _ g, Some g) s ∅ with
  | Some _ => true
  | None =>
      match s with
      | EmptyString => false
      | String _ s' => re_search_from n0 r s'
      end
  end.

Definition re_search (r : regex) (s : string) : bool :=
  re_search_from (String.length s) r s.

(** [len(match.groups())] *)
Fixpoint ngroups (r : regex) : nat :=
  match r with
  | RSeq r1 r2 | RAlt r1 r2 => ngroups r1 + ngroups r2
  | RStar r' => ngroups r'
  | RGroup _ r' => S (ngroups r')
  | _ => 0
  end.

(** [match.group(i)]: [IndexError] when the pattern has no group [i],
    Python's [None] when the group took no part in the match. *)
Definition group (r : regex) (m : gmap nat string) (i : nat)
  : result (option string) :=
  if i <=? ngroups r then Ok (m !! i) else Raise IndexError.

(** [match.group(2) if len(match.groups()) > 1 else ""] *)
Definition group_or_empty (r : regex) (m : gmap nat string)
  : result (option string) :=
  if 1 <? ngroups r then group r m 2 else Ok (Some EmptyString).

(** ["|".join(patterns)] *)
Fixpoint join_alt (patterns : list regex) : regex :=
  match patterns with
  | [] => REps
  | [r] => r
  | r :: rs => RAlt r (join_alt rs)
  end.

Definition is_dot (c : ascii) : bool := Ascii.eqb c ".".
Definition not_newline (c : ascii) : bool := negb (Ascii.eqb c "010").

(** The default [heading_regex]: at the start of the text, optional
    white space; group 1, runs of digits separated by single dots; an
    optional separator, white space or one dot and white space; group 2,
    the rest of the line up to the end of the text. *)
Definition default_heading_regex : regex :=
  RSeq RBol
   (RSeq (RStar (RChar py_isspace))
    (RSeq (RGroup 1 (RSeq (RPlus (RChar py_isdigit))
                          (RStar (RSeq (RChar is_dot)
                                       (RPlus (RChar py_isdigit))))))
     (RSeq (ROpt (RAlt (RPlus (RChar py_isspace))
                       (RSeq (ROpt (RChar is_dot))
                             (RPlus (RChar py_isspace)))))
      (RSeq (RGroup 2 (RStar (RChar not_newline))) REol)))).

(** ** The document, as PyMuPDF hands it over *)

Record Rect : Type := { x0 : Q; y0 : Q; x1 : Q; y1 : Q }.

Record Span : Type := { text : string; size : Q; bbox : Rect }.

Record Line : Type := { spans : list Span }.

(** A block of [page.get_text("dict")]: [lines] is [None] when the key
    is missing. *)
Record Block : Type :=
  { btype : Z; lines : option (list Line); block_bbox : Rect }.

(** [links] holds the ["from"] rectangle of each link of the page. *)
Record Page : Type := { height : Q; blocks : list Block; links : list Rect }.

Record TocEntry : Type := { toc_level : Z; toc_title : string; toc_page : Z }.

(** [get_page i] is [doc[i]], [page_count] is [len(doc)], [toc] is
    [doc.get_toc()]. *)
Record Document : Type :=
  { page_count : nat; get_page : Z → result Page; toc : list TocEntry }.

Record Config : Type :=
  { heading_regex : regex;
    min_font_size : option Q;
    remove_header_footer_if_contains : option (list regex);
    header_height : option Q;
    footer_height : option Q;
    start_page : option Z;
    end_page : option Z;
    start_header_number : option string }.

(** A section dict of the output. *)
Record Section : Type :=
  { title : string; number : string; level : Z; page : Z; content : string }.

(** The variables of [extract_hierarchy_checked] that the loops update. *)
Record State : Type :=
  { sections : list Section;
    current_section : option Section;
    last_number : option string;
    started : bool }.

Definition Qlt_bool (a b : Q) : bool := negb (Qle_bool b a).

Definition add_content (s : Section) (t : string) : Section :=
  {| title := title s; number := number s; level := level s; page := page s;
     content := content s +:+ t |}.

(** [if current_section: current_section["content"] += t] *)
Definition append_text (st : State) (t : string) : State :=
  {| sections := sections st;
     current_section := (λ s, add_content s t) <$> current_section st;
     last_number := last_number st;
     started := started st |}.

Definition set_started (st : State) : State :=
  {| sections := sections st; current_section := current_section st;
     last_number := last_number st; started := true |}.

(** The texts of [items] that are not empty, as [title_parts] collects
    them. *)
Definition nonempty_texts (items : list Span) : list string :=
  filter (λ t, t ≠ EmptyString) (text <$> items).

(** [x.split()] on a title that may be [None]. *)
Definition title_words (t : option string) : result (list string) :=
  match t with
  | Some s => Ok (split_ws s)
  | None => Raise AttributeError
  end.

(** The new [current_section] dict; its entries are evaluated in the
    order they are written. *)
Definition new_section (t : option string) (num_str : option string)
    (page_num : Z) : result Section :=
  let! ws := title_words t in
  match num_str with
  | Some n =>
      Ok {| title := join " " ws; number := n;
            level := Z.of_nat (length (split_on "." n));
            page := page_num + 1; content := "" |}
  | None => Raise AttributeError
  end.

(** A heading is accepted: the open section is sealed, a new one opens. *)
Definition open_section (st : State) (t num_str : option string)
    (page_num : Z) : result State :=
  let! sec := new_section t num_str page_num in
  Ok {| sections := sections st ++ option_list (current_section st);
        current_section := Some sec;
        last_number := num_str;
        started := started st |}.

(** [is_next_heading(last_number, num_str)] when [num_str] may be [None]:
    [parse_numbering(None)] has no [split]. *)
Definition is_next_heading_opt (prev current : option string) : result bool :=
  match current with
  | Some c => is_next_heading prev c
  | None =>
      match prev with
      | Some p =>
          if negb (truthy_str prev) then Ok true
          else let! _ := parse_numbering p in Raise AttributeError
      | None => Ok true
      end
  end.

(** [any(num_str in item for item in titles)] *)
Definition in_some_title (num_str : option string) (titles : list string)
  : result bool :=
  match titles, num_str with
  | [], _ => Ok false
  | _ :: _, None => Raise TypeError
  | _, Some n => Ok (existsb (py_in n) titles)
  end.

Section Extraction.

(** [fitz.Rect(a).intersects(b)] *)
Variable intersects : Rect → Rect → bool.

Variable cfg : Config.
Variable titles : list string.

(** Step 1 and 2 of the title: the spans after the matched one on its
    line, then the next line of the block.  Gives the title and the
    text that a rejected heading adds to the content. *)
Definition stitch_same_line (spans : list Span) (span_idx : nat)
    (t : option string) (txt : string) : option string * string :=
  if span_idx + 1 <? length spans then
    let title_parts :=
      (if truthy_str t then option_list t else [])
      ++ nonempty_texts (drop (span_idx + 1) spans) in
    match title_parts with
    | [] => (t, txt)
    | _ => (Some (join "" title_parts), txt +:+ join "" title_parts)
    end
  else (t, txt).

Definition title_too_short (t : option string) : bool :=
  match t with
  | Some s => negb (truthy_str t) || (String.length s <? 2)
  | None => true
  end.

Definition stitch_next_line (lines : list Line) (line_idx : nat)
    (t : option string) (txt : string) : option string * string :=
  if title_too_short t then
    match lines !! (line_idx + 1) with
    | Some next_line =>
        let title_parts := nonempty_texts (spans next_line) in
        match title_parts with
        | [] => (t, txt)
        | _ =>
            (Some (match t with
                   | Some s => if truthy_str t then s +:+ join "" title_parts
                               else join "" title_parts
                   | None => join "" title_parts
                   end),
             txt +:+ join "" title_parts)
        end
    | None => (t, txt)
    end
  else (t, txt).

Definition stitch_title (lines : list Line) (line_idx : nat)
    (spans : list Span) (span_idx : nat) (t : option string) (txt : string)
  : option string * string :=
  let '(t1, txt1) := stitch_same_line spans span_idx t txt in
  stitch_next_line lines line_idx t1 txt1.

(** The heading test of one span: the pattern matches and the font is
    large enough. *)
Definition heading_match (sp : Span) : option (gmap nat string) :=
  match re_match (heading_regex cfg) (text sp) with
  | Some m =>
      match min_font_size cfg with
      | None => Some m
      | Some minimum => if Qle_bool minimum (size sp) then Some m else None
      end
  | None => None
  end.

Definition is_link (links : list Rect) (sp : Span) : bool :=
  existsb (λ from, intersects from (bbox sp)) links.

(** The choice between a new section and folded text, with and without
    a table of contents. *)
Definition accept_or_fold (page_num : Z) (num_str t : option string)
    (txt : string) (st : State) : result State :=
  if 0 <? length titles then
    let! listed := in_some_title num_str titles in
    if listed then
      let! follows := is_next_heading_opt (last_number st) num_str in
      if follows then open_section st t num_str page_num
      else Ok (append_text st txt)
    else Ok (append_text st txt)
  else
    let! follows := is_next_heading_opt (last_number st) num_str in
    if follows then open_section st t num_str page_num
    else Ok (append_text st txt).

(** One round of the loop over the spans of a line. *)
Definition process_span (page_num : Z) (links : list Rect)
    (lines : list Line) (line_idx : nat) (spans : list Span)
    (span_idx : nat) (st : State) : result State :=
  match spans !! span_idx with
  | None => Raise IndexError
  | Some sp =>
      if bool_decide (text sp = EmptyString) then Ok st
      else
        match heading_match sp with
        | Some m =>
            let! num_str := group (heading_regex cfg) m 1 in
            if is_link links sp then Ok st
            else
              let! t0 := group_or_empty (heading_regex cfg) m in
              let '(t2, txt2) :=
                stitch_title lines line_idx spans span_idx t0 (text sp) in
              if started st then accept_or_fold page_num num_str t2 txt2 st
              else if bool_decide (num_str = start_header_number cfg)
              then accept_or_fold page_num num_str t2 txt2 (set_started st)
              else Ok st
        | None =>
            if started st then Ok (append_text st (text sp)) else Ok st
        end
  end.

(** The [while span_idx < len(spans)] loop: [n] rounds from [span_idx]. *)
Fixpoint span_loop (page_num : Z) (links : list Rect) (lines : list Line)
    (line_idx : nat) (spans : list Span) (n span_idx : nat) (st : State)
  : result State :=
  match n with
  | O => Ok st
  | S n' =>
      let! st' := process_span page_num links lines line_idx spans span_idx st in
      span_loop page_num links lines line_idx spans n' (S span_idx) st'
  end.

(** One round of the loop over the lines of a block; it ends with the
    newline added to the open section. *)
Definition process_line (page_num : Z) (links : list Rect)
    (lines : list Line) (line_idx : nat) (st : State) : result State :=
  match lines !! line_idx with
  | None => Raise IndexError
  | Some line =>
      let! st' := span_loop page_num links lines line_idx (spans line)
              (length (spans line)) 0 st in
      Ok (append_text st' (String "010" EmptyString))
  end.

Fixpoint line_loop (page_num : Z) (links : list Rect) (lines : list Line)
    (n line_idx : nat) (st : State) : result State :=
  match n with
  | O => Ok st
  | S n' =>
      let! st' := process_line page_num links lines line_idx st in
      line_loop page_num links lines n' (S line_idx) st'
  end.

Definition block_text (b : Block) : string :=
  join " " (text <$> concat (spans <$> default [] (lines b))).

(** The tests that skip a block. *)
Definition block_skipped (page_height : Q) (b : Block) : bool :=
  negb (btype b =? 0)%Z
  || match lines b with None => true | Some _ => false end
  || match remove_header_footer_if_contains cfg with
     | Some (r :: rs) => re_search (join_alt (r :: rs)) (block_text b)
     | _ => false
     end
  || match header_height cfg with
     | Some hh => Qlt_bool (y0 (block_bbox b)) hh
     | None => false
     end
  || match footer_height cfg with
     | Some fh => Qlt_bool (page_height - fh) (y1 (block_bbox b))
     | None => false
     end.

Definition process_block (page_num : Z) (pg : Page) (b : Block)
    (st : State) : result State :=
  if block_skipped (height pg) b then Ok st
  else
    let ls := default [] (lines b) in
    line_loop page_num (links pg) ls (length ls) 0 st.

Fixpoint block_loop (page_num : Z) (pg : Page) (bs : list Block)
    (st : State) : result State :=
  match bs with
  | [] => Ok st
  | b :: bs' =>
      let! st' := process_block page_num pg b st in
      block_loop page_num pg bs' st'
  end.

Variable doc : Document.

Definition process_page (page_num : Z) (st : State) : result State :=
  let! pg := get_page doc page_num in
  block_loop page_num pg (blocks pg) st.

(** [for page_num in range(page_start, page_start + n)] *)
Fixpoint page_loop (n : nat) (page_num : Z) (st : State) : result State :=
  match n with
  | O => Ok st
  | S n' =>
      let! st' := process_page page_num st in
      page_loop n' (page_num + 1) st'
  end.

End Extraction.

Definition initial_state (cfg : Config) : State :=
  {| sections := []; current_section := None; last_number := None;
     started := match start_header_number cfg with
                | None => true
                | Some _ => false
                end |}.

Definition extract_hierarchy_checked (intersects : Rect → Rect → bool)
    (doc : Document) (cfg : Config) : result (list Section) :=
  let page_start :=
    match start_page cfg with Some p => (p - 1)%Z | None => 0%Z end in
  let page_end :=
    match end_page cfg with Some p => p | None => Z.of_nat (page_count doc) end in
  let titles := toc_title <$> toc doc in
  let! st := page_loop intersects cfg titles doc
         (Z.to_nat (page_end - page_start)) page_start (initial_state cfg) in
  Ok (sections st ++ option_list (current_section st)).

(** ** Documents for the scenarios *)

Definition doc_of_pages (pages : list Page) (entries : list TocEntry) : Document :=
  {| page_count := length pages;
     get_page := λ i, if (i <? 0)%Z then Raise IndexError
                      else match pages !! Z.to_nat i with
                           | Some pg => Ok pg
                           | None => Raise IndexError
                           end;
     toc := entries |}.

(** A stand-in for [intersects] on proper rectangles: the open interiors
    meet. *)
Definition rect_overlaps (a b : Rect) : bool :=
  Qlt_bool (x0 a) (x1 b) && Qlt_bool (x0 b) (x1 a)
  && Qlt_bool (y0 a) (y1 b) && Qlt_bool (y0 b) (y1 a).

Definition default_config : Config :=
  {| heading_regex := default_heading_regex;
     min_font_size := None;
     remove_header_footer_if_contains := None;
     header_height := None;
     footer_height := None;
     start_page := None;
     end_page := None;
     start_header_number := None |}.

Definition with_start (n : string) (c : Config) : Config :=
  {| heading_regex := heading_regex c;
     min_font_size := min_font_size c;
     remove_header_footer_if_contains := remove_header_footer_if_contains c;
     header_height := header_height c;
     footer_height := footer_height c;
     start_page := start_page c;
     end_page := end_page c;
     start_header_number := Some n |}.

(** The [row]-th line of a page laid out 20 points per line. *)
Definition row_rect (row : Z) : Rect :=
  {| x0 := 72; y0 := inject_Z (100 + 20 * row);
     x1 := 300; y1 := inject_Z (112 + 20 * row) |}.

Definition fragment (t : string) (font : Z) (row : Z) : Span :=
  {| text := t; size := inject_Z font; bbox := row_rect row |}.

Definition text_block (ls : list Line) : Block :=
  {| btype := 0; lines := Some ls;
     block_bbox := {| x0 := 72; y0 := 100; x1 := 300; y1 := 700 |} |}.

Definition one_span (s : Span) : Line := {| spans := [s] |}.

Definition scenario_page1 (page_links : list Rect) : Page :=
  {| height := 842;
     blocks := [text_block [one_span (fragment "1 Introduction" 14 0);
                            one_span (fragment "Intro body text." 10 1);
                            one_span (fragment "1.1 Background" 12 2);
                            one_span (fragment "More body." 10 3)]];
     links := page_links |}.

Definition scenario_page2 : Page :=
  {| height := 842;
     blocks := [text_block [one_span (fragment "2 Next" 14 0)]];
     links := [] |}.

Definition scenario_doc : Document :=
  doc_of_pages [scenario_page1 []; scenario_page2] [].

Definition linked_doc : Document :=
  doc_of_pages [scenario_page1 [row_rect 2]; scenario_page2] [].

(** ** The heap of [nest_sections_by_hierarchy]

    Dicts and lists are objects; a variable or an entry that holds one
    holds its address.  An object is allocated at the end of the heap and
    is never freed. *)

Inductive value : Type :=
  | VInt (z : Z)
  | VStr (s : string)
  | VRef (a : nat).

Inductive obj : Type :=
  | ODict (d : gmap string value)
  | OList (l : list value).

Abbreviation heap := (list obj).

(** [a >= b] on two values: integers and strings compare with their own
    kind, anything else raises [TypeError] in the model. *)
Definition py_ge (a b : value) : result bool :=
  match a, b with
  | VInt x, VInt y => Ok (y <=? x)%Z
  | VStr x, VStr y => Ok (String.leb y x)
  | _, _ => Raise TypeError
  end.

(** [v[key]] where [v] must be a dict. *)
Definition get_item (h : heap) (v : value) (key : string) : result value :=
  match v with
  | VRef a =>
      match h !! a with
      | Some (ODict d) =>
          match d !! key with
          | Some x => Ok x
          | None => Raise KeyError
          end
      | _ => Raise TypeError
      end
  | _ => Raise TypeError
  end.

(** [dict(section)]: a new dict with the entries of [section].  Only a
    dict is taken as argument; anything else raises in the model. *)
Definition dict_copy (h : heap) (section : value) : result (heap * nat) :=
  match section with
  | VRef a =>
      match h !! a with
      | Some (ODict d) => Ok (h ++ [ODict d], length h)
      | _ => Raise TypeError
      end
  | _ => Raise TypeError
  end.

(** [node['children'] = []] *)
Definition set_children_empty (h : heap) (node : nat) : result heap :=
  match h !! node with
  | Some (ODict d) =>
      Ok (<[node := ODict (<["children" := VRef (length h)]> d)]> h ++ [OList []])
  | _ => Raise TypeError
  end.

(** [parent['children'].append(node)] *)
Definition append_child (h : heap) (parent node : nat) : result heap :=
  let! kids := get_item h (VRef parent) "children" in
  match kids with
  | VRef l =>
      match h !! l with
      | Some (OList xs) => Ok (<[l := OList (xs ++ [VRef node])]> h)
      | _ => Raise AttributeError
      end
  | _ => Raise AttributeError
  end.

(** [while stack and stack[-1]['level'] >= node['level']: stack.pop()];
    the head of [stack] is [stack[-1]]. *)
Fixpoint pop_stack (h : heap) (node : nat) (stack : list nat)
  : result (list nat) :=
  match stack with
  | [] => Ok []
  | top :: below =>
      let! top_level := get_item h (VRef top) "level" in
      let! node_level := get_item h (VRef node) "level" in
      let! ge := py_ge top_level node_level in
      if ge then pop_stack h node below else Ok stack
  end.

(** One round of the loop over [sections]. *)
Definition nest_step (section : value) (st : heap * list nat * list nat)
  : result (heap * list nat * list nat) :=
  let '(h, root, stack) := st in
  let! '(h1, node) := dict_copy h section in
  let! h2 := set_children_empty h1 node in
  let! stack' := pop_stack h2 node stack in
  match stack' with
  | parent :: _ =>
      let! h3 := append_child h2 parent node in
      Ok (h3, root, node :: stack')
  | [] => Ok (h2, root ++ [node], node :: stack')
  end.

Fixpoint nest_loop (sections : list value) (st : heap * list nat * list nat)
  : result (heap * list nat * list nat) :=
  match sections with
  | [] => Ok st
  | section :: rest =>
      let! st' := nest_step section st in
      nest_loop rest st'
  end.

(** The heap after the call and the addresses in the returned list. *)
Definition nest_sections_by_hierarchy (h : heap) (sections : list value)
  : result (heap * list nat) :=
  match sections with
  | [] => Ok (h, [])
  | _ =>
      let! '(h', root, _) := nest_loop sections (h, [], []) in
      Ok (h', root)
  end.

(** The dict of a section of the output of [extract_hierarchy_checked]. *)
Definition section_dict (s : Section) : gmap string value :=
  <["title" := VStr (title s)]>
    (<["number" := VStr (number s)]>
       (<["level" := VInt (level s)]>
          (<["page" := VInt (page s)]>
             (<["content" := VStr (content s)]> ∅)))).

(** ** Reading the forest back from the heap *)

#[local] Unset Elimination Schemes.
Inductive tree : Type :=
  | Node (d : gmap string value) (children : list tree).
#[local] Set Elimination Schemes.

Definition root_dict (t : tree) : gmap string value :=
  match t with Node d _ => d end.

(** [tree_in h lo hi a t]: the object at [a] is a node dict whose entries
    other than ['children'] are the root of [t] and whose ['children']
    list holds the nodes read as the subtrees of [t]; every object read
    lies at an address from [lo] up to, not including, [hi]. *)
#[local] Unset Elimination Schemes.
Inductive tree_in (h : heap) (lo hi : nat) : nat → tree → Prop :=
  | tree_in_node a nd l kids cs :
      lo ≤ a < hi → lo ≤ l < hi →
      h !! a = Some (ODict nd) →
      nd !! "children" = Some (VRef l) →
      h !! l = Some (OList (VRef <$> kids)) →
      Forall2 (tree_in h lo hi) kids cs →
      tree_in h lo hi a (Node (delete "children" nd) cs).
#[local] Set Elimination Schemes.

Definition tree_at (h : heap) (a : nat) (t : tree) : Prop :=
  tree_in h 0 (length h) a t.

(** An executable reading, for a heap whose trees are at most [fuel]
    deep. *)
Fixpoint read_tree (fuel : nat) (h : heap) (a : nat) : option tree :=
  match fuel with
  | O => None
  | S fuel' =>
      match h !! a with
      | Some (ODict nd) =>
          match nd !! "children" with
          | Some (VRef l) =>
              match h !! l with
              | Some (OList vs) =>
                  cs ← mapM (λ v, match v with
                                  | VRef k => read_tree fuel' h k
                                  | _ => None
                                  end) vs ;
                  Some (Node (delete "children" nd) cs)
              | _ => None
              end
          | _ => None
          end
      | _ => None
      end
  end.

Fixpoint preorder (t : tree) : list (gmap string value) :=
  match t with
  | Node d cs => d :: flat_map preorder cs
  end.

Definition dict_level (d : gmap string value) : option Z :=
  match d !! "level" with
  | Some (VInt z) => Some z
  | _ => None
  end.

(** Every node has an integer level, and the level of a child is greater
    than the level of its parent. *)
#[local] Unset Elimination Schemes.
Inductive levels_increase : tree → Prop :=
  | levels_increase_node d cs lv :
      dict_level d = Some lv →
      Forall (λ c, ∃ lc, dict_level (root_dict c) = Some lc ∧ (lv < lc)%Z) cs →
      Forall levels_increase cs →
      levels_increase (Node d cs).
#[local] Set Elimination Schemes.

(** ** The open chain of the hierarchy builder

    A frame is a node on [stack]: its address, its entries, its level and
    the subtrees under it that are closed, those no later node can join. *)
Record frame : Type :=
  { f_addr : nat; f_dict : gmap string value; f_level : Z;
    f_kids : list tree }.

(** The heap holds the chain [frames], top first, below [hi]; [above] is
    the frame over the top one, the last child of it that is still open.
    Under the chain, [root] holds the closed roots and the lowest frame. *)
Fixpoint chain (h : heap) (hi : nat) (above : option nat)
    (frames : list frame) (root : list nat) (closed : list tree) : Prop :=
  match frames with
  | [] =>
      ∃ rkids, root = rkids ++ option_list above
               ∧ Forall2 (tree_in h 0 hi) rkids closed
  | f :: below =>
      (∃ nd kids,
          f_addr f + 1 < hi
          ∧ h !! f_addr f = Some (ODict nd)
          ∧ nd !! "children" = Some (VRef (f_addr f + 1))
          ∧ delete "children" nd = f_dict f
          ∧ h !! (f_addr f + 1)
            = Some (OList (VRef <$> (kids ++ option_list above)))
          ∧ Forall2 (tree_in h (f_addr f + 2) hi) kids (f_kids f))
      ∧ chain h (f_addr f) (Some (f_addr f)) below root closed
  end.

Definition frame_levels (f : frame) : Prop :=
  dict_level (f_dict f) = Some (f_level f)
  ∧ Forall (λ c, ∃ lc, dict_level (root_dict c) = Some lc
                       ∧ (f_level f < lc)%Z) (f_kids f)
  ∧ Forall levels_increase (f_kids f).

(** The levels of the chain rise strictly from the bottom to the top. *)
Fixpoint rising (frames : list frame) : Prop :=
  match frames with
  | f :: (f' :: _) as below => (f_level f' < f_level f)%Z ∧ rising below
  | _ => True
  end.

Definition chain_ok (h : heap) (hi : nat) (root : list nat)
    (frames : list frame) (closed : list tree) : Prop :=
  chain h hi None frames root closed
  ∧ Forall frame_levels frames ∧ rising frames
  ∧ Forall levels_increase closed.

Definition frame_tree (f : frame) : tree := Node (f_dict f) (f_kids f).

(** The sections seen so far, in the order they were seen. *)
Definition chain_preorder (frames : list frame) (closed : list tree)
  : list (gmap string value) :=
  flat_map preorder closed ++ flat_map (λ f, preorder (frame_tree f))
                                (reverse frames).

(** The top frame is closed: it becomes the last subtree of the frame
    below it, or the last closed root. *)
Definition close_top (frames : list frame) (closed : list tree)
  : list frame * list tree :=
  match frames with
  | [] => ([], closed)
  | [f] => ([], closed ++ [frame_tree f])
  | f :: f' :: below =>
      ({| f_addr := f_addr f'; f_dict := f_dict f'; f_level := f_level f';
          f_kids := f_kids f' ++ [frame_tree f] |} :: below, closed)
  end.

(** ** Vocabulary of the statements *)

Fixpoint str_all (p : ascii → bool) (s : string) : bool :=
  match s with
  | EmptyString => true
  | String c s' => p c && str_all p s'
  end.

Definition nonempty_str (s : string) : bool :=
  match s with EmptyString => false | String _ _ => true end.

(** A numbering string: components separated by dots, each a run of
    decimal digits that is not empty. *)
Definition is_numbering_string (a : string) : bool :=
  forallb (λ w, nonempty_str w && str_all py_isdigit w) (split_on "." a).

(** No component between the dots is longer than [int] takes. *)
Definition within_digit_limit (a : string) : bool :=
  forallb (λ w, (Z.of_nat (String.length w) <=? max_str_digits)%Z)
    (split_on "." a).

Fixpoint repeat_char (c : ascii) (n : nat) : string :=
  match n with
  | O => EmptyString
  | S n' => String c (repeat_char c n')
  end.

(** A run of digits one longer than [int] takes. *)
Definition long_number : string := repeat_char "9" 4301.

(** Modelled from the spec: [str] of a Numbering, the dotted string the
    Numbering is written as ([4; 1; 6] as 4.1.6); the program defines
    [parse_numbering] and no function in this direction. *)
Definition numbering_str (nums : list Z) : string :=
  join "." (py_str_int <$> nums).

(** White space collapsed and trimmed, character by character: a run of
    white space between two words becomes one space, a run before the
    first word or after the last one disappears. *)
Inductive ws_state : Type := AtStart | InWord | AfterGap.

Fixpoint collapse (q : ws_state) (s : string) : string :=
  match s with
  | EmptyString => EmptyString
  | String c s' =>
      if py_isspace c then
        collapse (match q with AtStart => AtStart | _ => AfterGap end) s'
      else
        match q with
        | AfterGap => String " " (String c (collapse InWord s'))
        | _ => String c (collapse InWord s')
        end
  end.

Definition collapse_ws (s : string) : string := collapse AtStart s.

(** No white space in [s] but single spaces, none of them last, and none
    first when [after_space] is set. *)
Fixpoint single_spaced (after_space : bool) (s : string) : bool :=
  match s with
  | EmptyString => negb after_space
  | String c s' =>
      if py_isspace c
      then Ascii.eqb c " " && negb after_space && single_spaced true s'
      else single_spaced false s'
  end.

(** The title as the title stitcher is described: the remainder of the
    matched fragment with the texts of all fragments after it on the line;
    then, when that is shorter than two characters and the block has a
    next line, with the texts of all fragments of that line. *)
Definition spec_title (remainder : string) (following : list Span)
    (next_line : option Line) : string :=
  let same_line := remainder +:+ join "" (text <$> following) in
  if String.length same_line <? 2 then
    match next_line with
    | Some l => same_line +:+ join "" (text <$> spans l)
    | None => same_line
    end
  else same_line.

(** The table of contents, when there is one, names the number. *)
Definition toc_allows (titles : list string) (num : string) : bool :=
  match titles with
  | [] => true
  | _ => existsb (py_in num) titles
  end.

(** The step from [st] to [st'] is a section boundary at [num]: the open
    section is sealed and a new, empty one numbered [num] is open. *)
Definition opens_section (st st' : State) (num : string) : Prop :=
  sections st' = sections st ++ option_list (current_section st)
  ∧ last_number st' = Some num
  ∧ ∃ s, current_section st' = Some s ∧ number s = num
         ∧ content s = EmptyString.

(** Nothing has been opened or emitted yet and the gate is closed. *)
Definition suppressed (st : State) : Prop :=
  started st = false ∧ current_section st = None ∧ sections st = []
  ∧ last_number st = None.

(** The span is a heading match, no link, and its number is the
    configured start number. *)
Definition opens_gate (intersects : Rect → Rect → bool) (cfg : Config)
    (links : list Rect) (sp : Span) : bool :=
  negb (bool_decide (text sp = EmptyString))
  && match heading_match cfg sp with
     | Some m =>
         negb (is_link intersects links sp)
         && match group (heading_regex cfg) m 1 with
            | Ok num_str => bool_decide (num_str = start_header_number cfg)
            | Raise _ => false
            end
     | None => false
     end.

Definition gate_free_page (intersects : Rect → Rect → bool) (cfg : Config)
    (pg : Page) : Prop :=
  ∀ b ls l sp, b ∈ blocks pg → lines b = Some ls → l ∈ ls → sp ∈ spans l →
               opens_gate intersects cfg (links pg) sp = false.

(** The output the end-to-end scenario is described with, and the output
    of the program on it. *)
Definition scenario_described : list Section :=
  [ {| title := "Introduction"; number := "1"; level := 1; page := 1;
       content := "Intro body text." +:+ String "010" "" |};
    {| title := "Background"; number := "1.1"; level := 2; page := 1;
       content := "More body." +:+ String "010" "" |};
    {| title := "Next"; number := "2"; level := 1; page := 2;
       content := "" |} ].

Definition nl : string := String "010" "".

Definition scenario_sections : list Section :=
  [ {| title := "Introduction"; number := "1"; level := 1; page := 1;
       content := nl +:+ "Intro body text." +:+ nl |};
    {| title := "Background"; number := "1.1"; level := 2; page := 1;
       content := nl +:+ "More body." +:+ nl |};
    {| title := "Next"; number := "2"; level := 1; page := 2;
       content := nl |} ].

Definition scenario_sections_from_1_1 : list Section :=
  [ {| title := "Background"; number := "1.1"; level := 2; page := 1;
       content := nl +:+ "More body." +:+ nl |};
    {| title := "Next"; number := "2"; level := 1; page := 2;
       content := nl |} ].

Definition linked_sections : list Section :=
  [ {| title := "Introduction"; number := "1"; level := 1; page := 1;
       content := nl +:+ "Intro body text." +:+ nl +:+ nl +:+ "More body." +:+ nl |};
    {| title := "Next"; number := "2"; level := 1; page := 2;
       content := nl |} ].

(** Inputs the statements are tried on. *)
Definition scenario_lines : list Line :=
  [one_span (fragment "1 Introduction" 14 0);
   one_span (fragment "Intro body text." 10 1);
   one_span (fragment "1.1 Background" 12 2);
   one_span (fragment "More body." 10 3)].

Definition groups_of (cfg : Config) (sp : Span) : gmap nat string :=
  default ∅ (heading_match cfg sp).

Definition introduction_open : State :=
  {| sections := [];
     current_section :=
       Some {| title := "Introduction"; number := "1"; level := 1; page := 1;
               content := nl +:+ "Intro body text." +:+ nl |};
     last_number := Some "1";
     started := true |}.

Definition methods_open : State :=
  {| sections := [];
     current_section :=
       Some {| title := "Methods"; number := "2"; level := 1; page := 1;
               content := nl |};
     last_number := Some "2";
     started := true |}.

Definition split_heading_spans : list Span :=
  [fragment "3" 14 0; fragment " Results  and" 14 0;
   fragment " discussion " 14 0].

Definition split_heading_lines : list Line :=
  [ {| spans := split_heading_spans |}; one_span (fragment "Body." 10 1) ].

Definition after_step (r : result State) (otherwise : State) : State :=
  match r with Ok st => st | Raise _ => otherwise end.

(** What the loop of [nest_sections_by_hierarchy] keeps of the heap it
    was given: the objects below [n0] are as in [h0], and the loop's own
    lists hold only nodes made by the loop, each with a list of children
    made by the loop. *)
Definition own_node (n0 : nat) (h : heap) (a : nat) : Prop :=
  n0 ≤ a ∧ ∃ d l, h !! a = Some (ODict d) ∧ d !! "children" = Some (VRef l)
                  ∧ n0 ≤ l.

Definition keeps_input (h0 : heap) (st : heap * list nat * list nat) : Prop :=
  let '(h, root, stack) := st in
  (∀ x, x < length h0 → h !! x = h0 !! x)
  ∧ length h0 ≤ length h
  ∧ Forall (λ r, length h0 ≤ r) root
  ∧ Forall (own_node (length h0) h) stack.

Definition sec (n : string) (lv : Z) : Section :=
  {| title := "t"; number := n; level := lv; page := 1; content := "" |}.

Definition demo_heap : heap :=
  [ODict (section_dict (sec "1" 1)); ODict (section_dict (sec "1.1" 2));
   ODict (section_dict (sec "1.1.1" 3)); ODict (section_dict (sec "1.2" 2));
   ODict (section_dict (sec "2" 1))].

Definition demo_sections : list Section :=
  [sec "1" 1; sec "1.1" 2; sec "1.1.1" 3; sec "1.2" 2; sec "2" 1].

Definition demo_result : heap * list nat :=
  match nest_sections_by_hierarchy demo_heap (VRef <$> [0; 1; 2; 3; 4]) with
  | Ok r => r
  | Raise _ => ([], [])
  end.

(** Between two lines: sections have been emitted only while one is
    open, and the open one has the newline of its last line. *)
Definition emitted_under_open (st : State) : Prop :=
  current_section st = None → sections st = [].

Definition open_has_content (st : State) : Prop :=
  ∀ s, current_section st = Some s → content s ≠ EmptyString.

(** ** Vocabulary of the further properties *)

(** The numbering [cn] can follow [pn]: it goes one level down under
    [pn], with any last component, or it counts one further at a level of
    [pn] and drops what [pn] has below that level. *)
Definition successor (pn cn : list Z) : Prop :=
  (∃ x, cn = pn ++ [x])
  ∨ (∃ pre x rest, pn = pre ++ x :: rest ∧ cn = pre ++ [(x + 1)%Z]).

Fixpoint count_char (c : ascii) (s : string) : nat :=
  match s with
  | EmptyString => 0
  | String a s' => (if Ascii.eqb a c then 1 else 0) + count_char c s'
  end.

(** The sections a state holds, sealed and open, in output order. *)
Definition all_sections (st : State) : list Section :=
  sections st ++ option_list (current_section st).

(** Each number of [ns] is accepted by [is_next_heading] after the one
    before it. *)
Fixpoint follows_chain (ns : list string) : Prop :=
  match ns with
  | a :: (b :: _) as rest =>
      is_next_heading (Some a) b = Ok true ∧ follows_chain rest
  | _ => True
  end.

(** Pages do not go back. *)
Fixpoint pages_ascend (ps : list Z) : Prop :=
  match ps with
  | a :: (b :: _) as rest => (a ≤ b)%Z ∧ pages_ascend rest
  | _ => True
  end.

(** The state keeps the chain of accepted numbers: the last accepted
    number is the number of the open section, and the numbers of the
    sections follow one another. *)
Definition chain_kept (st : State) : Prop :=
  emitted_under_open st
  ∧ last_number st = number <$> current_section st
  ∧ follows_chain (number <$> all_sections st).

(** What every section dict is made with: its level counts the
    components of its number, its title is normalised. *)
Definition well_made (s : Section) : Prop :=
  level s = Z.of_nat (S (count_char "." (number s)))
  ∧ (title s = EmptyString ∨ single_spaced true (title s) = true).

(** The first and the last page index of the loop over the pages. *)
Definition page_start_of (cfg : Config) : Z :=
  match start_page cfg with Some p => (p - 1)%Z | None => 0%Z end.

Definition page_end_of (doc : Document) (cfg : Config) : Z :=
  match end_page cfg with Some p => p | None => Z.of_nat (page_count doc) end.

Definition pages_within (lo p : Z) (st : State) : Prop :=
  (lo ≤ p)%Z
  ∧ Forall (λ s, (lo + 1 ≤ page s ≤ p)%Z) (all_sections st)
  ∧ pages_ascend (page <$> all_sections st).

Definition toc_doc : Document :=
  doc_of_pages [scenario_page1 []; scenario_page2]
    [ {| toc_level := 1; toc_title := "1 Introduction"; toc_page := 1 |};
      {| toc_level := 1; toc_title := "2 Next"; toc_page := 2 |} ].

Definition ok_or_nil {A} (r : result (list A)) : list A :=
  match r with Ok l => l | Raise _ => [] end.

Definition toc_output : list Section :=
  ok_or_nil (extract_hierarchy_checked rect_overlaps toc_doc default_config).

(** ** What a pattern matches

    [matches n0 r pre rest g g']: in a text of length [n0], in front of
    [rest], the pattern [r] matches the text [pre] and takes the groups
    from [g] to [g']. *)
Inductive matches (n0 : nat)
  : regex → string → string → gmap nat string → gmap nat string → Prop :=
  | matches_eps rest g : matches n0 REps "" rest g g
  | matches_char (p : ascii → bool) c rest g :
      p c = true → matches n0 (RChar p) (String c "") rest g g
  | matches_seq r1 r2 pre1 pre2 rest g g1 g2 :
      matches n0 r1 pre1 (pre2 +:+ rest) g g1 →
      matches n0 r2 pre2 rest g1 g2 →
      matches n0 (RSeq r1 r2) (pre1 +:+ pre2) rest g g2
  | matches_alt_l r1 r2 pre rest g g' :
      matches n0 r1 pre rest g g' → matches n0 (RAlt r1 r2) pre rest g g'
  | matches_alt_r r1 r2 pre rest g g' :
      matches n0 r2 pre rest g g' → matches n0 (RAlt r1 r2) pre rest g g'
  | matches_star_nil r rest g : matches n0 (RStar r) "" rest g g
  | matches_star_more r pre1 pre2 rest g g1 g2 :
      matches n0 r pre1 (pre2 +:+ rest) g g1 →
      pre1 ≠ EmptyString →
      matches n0 (RStar r) pre2 rest g1 g2 →
      matches n0 (RStar r) (pre1 +:+ pre2) rest g g2
  | matches_group i r pre rest g g' :
      matches n0 r pre rest g g' →
      matches n0 (RGroup i r) pre rest g (<[i := pre]> g')
  | matches_bol rest g :
      String.length rest = n0 → matches n0 RBol "" rest g g
  | matches_eol rest g :
      rest = EmptyString ∨ rest = String "010" EmptyString →
      matches n0 REol "" rest g g.

(** Every character class of [r] lies within [q]. *)
Fixpoint classes_within (q : ascii → bool) (r : regex) : Prop :=
  match r with
  | RChar p => ∀ c, p c = true → q c = true
  | RSeq r1 r2 | RAlt r1 r2 => classes_within q r1 ∧ classes_within q r2
  | RStar r' | RGroup _ r' => classes_within q r'
  | _ => True
  end.

Definition dot_or_space (c : ascii) : bool := is_dot c || py_isspace c.

(** The last accepted number, when there is one, is a numbering string
    that [int] takes. *)
Definition last_number_parses (st : State) : Prop :=
  ∀ n, last_number st = Some n →
       is_numbering_string n = true ∧ within_digit_limit n = true.

(** No text is longer than the digits [int] takes. *)
Definition short_text (sp : Span) : Prop :=
  (Z.of_nat (String.length (text sp)) ≤ max_str_digits)%Z.

(** ** The hierarchy builder on the open chain

    The rounds of [nest_sections_by_hierarchy] as functions on the chain:
    [zpop] is the [while] loop, which closes the top frame as long as its
    level is not below [lv]; [zstep] is one round for a section with
    entries [d], whose node is made at the address [a]; [zloop] runs the
    rounds over sections whose nodes are made two addresses apart;
    [zclose] closes what is left open at the end. *)
Fixpoint zpop (n : nat) (lv : Z) (frames : list frame) (closed : list tree)
  : list frame * list tree :=
  match n, frames with
  | S n', f :: _ =>
      if (lv <=? f_level f)%Z
      then zpop n' lv (close_top frames closed).1 (close_top frames closed).2
      else (frames, closed)
  | _, _ => (frames, closed)
  end.

Definition zstep (a : nat) (d : gmap string value) (lv : Z)
    (st : list frame * list tree) : list frame * list tree :=
  let popped := zpop (length st.1) lv st.1 st.2 in
  ({| f_addr := a; f_dict := delete "children" d; f_level := lv;
      f_kids := [] |} :: popped.1, popped.2).

Fixpoint zloop (a : nat) (ds : list (gmap string value))
    (st : list frame * list tree) : list frame * list tree :=
  match ds with
  | [] => st
  | d :: rest => zloop (a + 2) rest (zstep a d (default 0%Z (dict_level d)) st)
  end.

Fixpoint zclose (n : nat) (frames : list frame) (closed : list tree)
  : list tree :=
  match n, frames with
  | S n', _ :: _ =>
      zclose n' (close_top frames closed).1 (close_top frames closed).2
  | _, _ => closed
  end.

(** ** The shape of the forest *)

Definition tree_level (t : tree) : Z :=
  default 0%Z (dict_level (root_dict t)).

(** [P] holds of the entries and the subtrees of every node. *)
#[local] Unset Elimination Schemes.
Inductive every_node (P : gmap string value → list tree → Prop)
  : tree → Prop :=
  | every_node_intro d cs :
      P d cs → Forall (every_node P) cs → every_node P (Node d cs).
#[local] Set Elimination Schemes.

(** From one tree of the list to the next the level does not rise. *)
Fixpoint falling (ts : list tree) : Prop :=
  match ts with
  | t :: (t' :: _) as rest => (tree_level t' ≤ tree_level t)%Z ∧ falling rest
  | _ => True
  end.

Definition siblings_fall : tree → Prop := every_node (λ _ cs, falling cs).

(** Every child is exactly one level below its parent. *)
Definition one_level_down : tree → Prop :=
  every_node (λ d cs,
    Forall (λ c, dict_level (root_dict c) = Z.succ <$> dict_level d) cs).

(** The last tree of [ts], when there is one, is at level [lv] or
    deeper. *)
Definition lasts_ge (ts : list tree) (lv : Z) : Prop :=
  ∀ t, last ts = Some t → (lv ≤ tree_level t)%Z.

(** The last closed subtree of a frame is not above the open frame over
    it, and the last closed root is not above the lowest frame; [above]
    is the level the top frame is compared with. *)
Fixpoint linked (above : option Z) (frames : list frame)
    (closed : list tree) : Prop :=
  match frames with
  | [] => from_option (lasts_ge closed) True above
  | f :: below =>
      from_option (lasts_ge (f_kids f)) True above
      ∧ linked (Some (f_level f)) below closed
  end.

Definition frame_falls (f : frame) : Prop :=
  dict_level (f_dict f) = Some (f_level f)
  ∧ falling (f_kids f) ∧ Forall siblings_fall (f_kids f).

Definition zfall (above : option Z) (frames : list frame)
    (closed : list tree) : Prop :=
  linked above frames closed
  ∧ Forall frame_falls frames
  ∧ falling closed ∧ Forall siblings_fall closed.

(** The levels of the chain go up by one from each frame to the next. *)
Fixpoint steps (frames : list frame) : Prop :=
  match frames with
  | f :: (f' :: _) as below =>
      f_level f = Z.succ (f_level f') ∧ steps below
  | _ => True
  end.

Definition frame_unit (f : frame) : Prop :=
  dict_level (f_dict f) = Some (f_level f)
  ∧ Forall (λ c, dict_level (root_dict c) = Some (Z.succ (f_level f)))
      (f_kids f)
  ∧ Forall one_level_down (f_kids f).

Definition zunit (frames : list frame) (closed : list tree) : Prop :=
  steps frames ∧ Forall frame_unit frames ∧ Forall one_level_down closed.

(** The levels of the dicts [ds] are integers and go down by at most one
    from each dict to the next, [prev] being the level before the first. *)
Fixpoint gentle_from (prev : option Z) (ds : list (gmap string value))
  : Prop :=
  match ds with
  | [] => True
  | d :: rest =>
      ∃ lv, d !! "level" = Some (VInt lv)
            ∧ from_option (λ p, (lv ≤ Z.succ p)%Z) True prev
            ∧ gentle_from (Some lv) rest
  end.

(** Sections given with entries of their own: the first carries a
    ['children'] entry, the levels skip from 1 to 3. *)
Definition stale_dicts : list (gmap string value) :=
  [<["children" := VStr "old"]> (section_dict (sec "1" 1));
   section_dict (sec "1.1.1" 3); section_dict (sec "1.2" 2);
   section_dict (sec "1.3" 2); section_dict (sec "2" 1)].

Definition stale_heap : heap := ODict <$> stale_dicts.

(** The dicts of the sections of the scenario, as a heap. *)
Definition scenario_heap : heap := ODict ∘ section_dict <$> scenario_sections.

(** A heap whose second section has no ['level']. *)
Definition unlevelled_heap : heap :=
  [ODict (section_dict (sec "1" 1)); ODict {["number" := VStr "2"]}].

(** The spans the extraction reads on a page: those of the lines of the
    blocks it does not skip. *)
Definition span_read (cfg : Config) (pg : Page) (sp : Span) : Prop :=
  ∃ b l, b ∈ blocks pg ∧ block_skipped cfg (height pg) b = false
         ∧ l ∈ default [] (lines b) ∧ sp ∈ spans l.

(** Where a section of the output comes from: a span read on the page
    the section is filed under, which the heading pattern matches with
    the section's number as group 1, whose font passes the size gate and
    which lies on no link. *)
Definition heading_span (intersects : Rect → Rect → bool) (cfg : Config)
    (doc : Document) (s : Section) : Prop :=
  ∃ p pg sp m,
    get_page doc p = Ok pg ∧ page s = (p + 1)%Z
    ∧ span_read cfg pg sp
    ∧ heading_match cfg sp = Some m
    ∧ is_link intersects (links pg) sp = false
    ∧ m !! 1 = Some (number s).

(** No section is open and none is sealed. *)
Definition no_section (st : State) : Prop :=
  sections st = [] ∧ current_section st = None.

(** A document of one page of body text. *)
Definition plain_doc : Document :=
  doc_of_pages
    [ {| height := 842;
         blocks := [text_block [one_span (fragment "Intro body text." 10 1);
                                one_span (fragment "More body." 10 3)]];
         links := [] |} ] [].

(** * Properties *)

(** ** Characters and strings *)

Lemma digit_not_space c : py_isdigit c = true → int_isspace c = false.
Proof.
  unfold py_isdigit, int_isspace. intros H.
  apply andb_true_iff in H as [H1 H2].
  apply Nat.leb_le in H1. apply Nat.leb_le in H2.
  repeat (apply orb_false_intro); try (apply andb_false_iff);
    rewrite ?Nat.leb_gt, ?Nat.eqb_neq; lia.
Qed.

Lemma digit_not_dot c : py_isdigit c = true → Ascii.eqb c "." = false.
Proof.
  intros H. destruct (Ascii.eqb c ".") eqn:E; [|done].
  apply Ascii.eqb_eq in E. subst c. discriminate H.
Qed.

Lemma digit_char_spec d :
  (d < 10)%N →
  py_isdigit (digit_char d) = true ∧ digit_value (digit_char d) = Z.of_N d.
Proof.
  intros H.
  assert (d = 0 ∨ d = 1 ∨ d = 2 ∨ d = 3 ∨ d = 4 ∨ d = 5 ∨ d = 6 ∨ d = 7
          ∨ d = 8 ∨ d = 9)%N as Hd by lia.
  repeat (destruct Hd as [-> | Hd]; [by vm_compute|]). subst d. by vm_compute.
Qed.

Lemma app_String c s t : String c s +:+ t = String c (s +:+ t).
Proof. reflexivity. Qed.

Lemma app_empty_l t : EmptyString +:+ t = t.
Proof. reflexivity. Qed.

Lemma app_empty_r s : s +:+ EmptyString = s.
Proof. induction s as [|c s IH]; [done|]. by rewrite app_String, IH. Qed.

Lemma app_assoc_str s t u : (s +:+ t) +:+ u = s +:+ (t +:+ u).
Proof. induction s as [|c s IH]; [done|]. by rewrite !app_String, IH. Qed.

Lemma str_all_app p s t :
  str_all p (s +:+ t) = str_all p s && str_all p t.
Proof.
  induction s as [|c s IH]; [done|].
  rewrite app_String. simpl. rewrite IH. by rewrite andb_assoc.
Qed.

Lemma lstrip_no_space s :
  str_all (λ c, negb (int_isspace c)) s = true → lstrip s = s.
Proof.
  destruct s as [|c s]; simpl; [done|].
  intros [H _]%andb_true_iff. apply negb_true_iff in H. by rewrite H.
Qed.

Lemma rstrip_no_space s :
  str_all (λ c, negb (int_isspace c)) s = true → rstrip s = s.
Proof.
  induction s as [|c s IH]; simpl; [done|].
  intros [Hc Hs]%andb_true_iff. rewrite (IH Hs).
  apply negb_true_iff in Hc. rewrite Hc. by destruct s.
Qed.

Lemma str_all_impl (p q : ascii → bool) s :
  (∀ c, p c = true → q c = true) → str_all p s = true → str_all q s = true.
Proof.
  intros Hpq. induction s as [|c s IH]; simpl; [done|].
  intros [Hc Hs]%andb_true_iff. rewrite (Hpq _ Hc). by apply IH.
Qed.

Lemma digits_no_space s :
  str_all py_isdigit s = true → str_all (λ c, negb (int_isspace c)) s = true.
Proof.
  apply str_all_impl. intros c Hc. by rewrite (digit_not_space _ Hc).
Qed.

(** ** [int] and [str] on integers *)

Lemma int_digits_all_digits s :
  str_all py_isdigit s = true → ∀ acc b,
  nonempty_str s = true ∨ b = true → returns (int_digits acc b s).
Proof.
  induction s as [|c s IH]; simpl; intros Hs acc b Hb.
  - destruct Hb as [? | ->]; [done|]. by exists acc.
  - apply andb_true_iff in Hs as [Hc Hs]. rewrite Hc. apply IH; auto.
Qed.

Lemma count_digits_all s :
  str_all py_isdigit s = true → count_digits s = String.length s.
Proof.
  induction s as [|c s IH]; simpl; [done|].
  intros [Hc Hs]%andb_true_iff. by rewrite Hc, (IH Hs).
Qed.

Lemma int_literal_digits s :
  str_all py_isdigit s = true →
  int_literal s
  = if (Z.of_nat (String.length s) <=? max_str_digits)%Z
    then int_digits 0 false s
    else rbind (int_digits 0 false s) (λ _, Raise ValueError).
Proof.
  intros Hs. unfold int_literal. rewrite (count_digits_all _ Hs).
  destruct (Z.of_nat (String.length s) <=? max_str_digits)%Z; [|done].
  by destruct (int_digits 0 false s).
Qed.

Lemma py_int_digits s :
  str_all py_isdigit s = true → nonempty_str s = true →
  py_int s = int_literal s.
Proof.
  intros Hs Hne. unfold py_int.
  rewrite (lstrip_no_space _ (digits_no_space _ Hs)).
  rewrite (rstrip_no_space _ (digits_no_space _ Hs)).
  destruct s as [|c s]; [done|]. simpl in Hs.
  apply andb_true_iff in Hs as [Hc _].
  destruct c as [[|] [|] [|] [|] [|] [|] [|] [|]]; try reflexivity; discriminate Hc.
Qed.

Lemma dec_digits_one n acc :
  dec_digits 1 n acc = String (digit_char (n mod 10)) acc.
Proof. simpl. by destruct (n / 10 =? 0)%N. Qed.

Lemma mod10_lt n : (n mod 10 < 10)%N.
Proof. by apply N.mod_lt. Qed.

Lemma dec_digits_shape fuel n acc :
  ∃ ds, dec_digits (S fuel) n acc = ds +:+ acc
        ∧ str_all py_isdigit ds = true ∧ nonempty_str ds = true.
Proof.
  revert n acc. induction fuel as [|fuel IH]; intros n acc.
  - exists (String (digit_char (n mod 10)) EmptyString).
    rewrite dec_digits_one, app_String, app_empty_l. simpl.
    by destruct (digit_char_spec (n mod 10)) as [-> _]; [apply mod10_lt|].
  - change (dec_digits (S (S fuel)) n acc)
      with (let acc' := String (digit_char (n mod 10)) acc in
            if (n / 10 =? 0)%N then acc' else dec_digits (S fuel) (n / 10) acc').
    cbv zeta. destruct (digit_char_spec (n mod 10)) as [Hd _]; [apply mod10_lt|].
    destruct (n / 10 =? 0)%N.
    + exists (String (digit_char (n mod 10)) EmptyString).
      rewrite app_String, app_empty_l. simpl. by rewrite Hd.
    + destruct (IH (n / 10)%N (String (digit_char (n mod 10)) acc))
        as (ds & -> & Hds & Hne).
      exists (ds +:+ String (digit_char (n mod 10)) EmptyString).
      split; [|split].
      * by rewrite app_assoc_str.
      * rewrite str_all_app, Hds. simpl. by rewrite Hd.
      * by destruct ds.
Qed.

Lemma int_digits_step d acc b rest :
  (d < 10)%N →
  int_digits acc b (String (digit_char d) rest)
  = int_digits (10 * acc + Z.of_N d) true rest.
Proof.
  intros Hd. destruct (digit_char_spec d Hd) as [H1 H2].
  simpl. by rewrite H1, H2.
Qed.

Lemma int_digits_dec fuel :
  ∀ n, (n < 2 ^ N.of_nat (S fuel))%N →
  ∃ k, (0 ≤ k)%Z ∧ ∀ rest acc b,
    int_digits acc b (dec_digits (S fuel) n rest)
    = int_digits (acc * 10 ^ k + Z.of_N n) true rest.
Proof.
  induction fuel as [|fuel IH]; intros n Hn.
  - exists 1%Z. split; [lia|]. intros rest acc b.
    assert (n / 10 = 0)%N as Hq by (apply N.div_small; simpl in Hn; lia).
    assert (n mod 10 = n)%N as Hm by (apply N.mod_small; simpl in Hn; lia).
    rewrite dec_digits_one, int_digits_step by apply mod10_lt.
    f_equal. lia.
  - change (dec_digits (S (S fuel)) n)
      with (λ acc, let acc' := String (digit_char (n mod 10)) acc in
            if (n / 10 =? 0)%N then acc' else dec_digits (S fuel) (n / 10) acc').
    cbv beta zeta.
    assert (n = 10 * (n / 10) + n mod 10)%N as Hdm by apply N.div_mod'.
    pose proof (mod10_lt n) as Hlt.
    destruct (n / 10 =? 0)%N eqn:Hq.
    + apply N.eqb_eq in Hq. exists 1%Z. split; [lia|]. intros rest acc b.
      rewrite int_digits_step by done. f_equal. lia.
    + apply N.eqb_neq in Hq.
      destruct (IH (n / 10)%N) as (k & Hk & Hrec).
      { rewrite Nat2N.inj_succ, N.pow_succ_r' in Hn.
        apply N.Div0.div_lt_upper_bound. lia. }
      exists (k + 1)%Z. split; [lia|]. intros rest acc b.
      rewrite Hrec, int_digits_step by done. f_equal.
      rewrite Z.pow_add_r by lia. lia.
Qed.

Lemma digit_value_bound c :
  py_isdigit c = true → (0 ≤ digit_value c ≤ 9)%Z.
Proof.
  unfold py_isdigit, digit_value. intros [H1 H2]%andb_true_iff.
  apply Nat.leb_le in H1, H2. lia.
Qed.

(** The value of a run of digits is below the power of ten of its
    length. *)
Lemma int_digits_bound s :
  str_all py_isdigit s = true →
  ∀ acc b v,
    (0 ≤ acc)%Z → int_digits acc b s = Ok v →
    (acc * 10 ^ Z.of_nat (String.length s) ≤ v
     < (acc + 1) * 10 ^ Z.of_nat (String.length s))%Z.
Proof.
  induction s as [|c s IH]; simpl String.length; intros Hs acc b v Hacc H.
  - simpl in H. destruct b; [|done]. inversion H; subst.
    change (Z.of_nat 0) with 0%Z. rewrite Z.pow_0_r. lia.
  - simpl in Hs, H. apply andb_true_iff in Hs as [Hc Hs]. rewrite Hc in H.
    pose proof (digit_value_bound c Hc) as Hd.
    apply (IH Hs) in H; [|lia].
    rewrite Nat2Z.inj_succ, Z.pow_succ_r by lia.
    assert (0 < 10 ^ Z.of_nat (String.length s))%Z as Hpos
      by (apply Z.pow_pos_nonneg; lia).
    nia.
Qed.

Lemma dec_digits_length fuel :
  ∀ n acc k,
    (n < 10 ^ N.of_nat k)%N → 1 ≤ k →
    String.length (dec_digits (S fuel) n acc) ≤ k + String.length acc.
Proof.
  induction fuel as [|fuel IH]; intros n acc k Hn Hk.
  - rewrite dec_digits_one. simpl. lia.
  - change (dec_digits (S (S fuel)) n acc)
      with (let acc' := String (digit_char (n mod 10)) acc in
            if (n / 10 =? 0)%N then acc' else dec_digits (S fuel) (n / 10) acc').
    cbv zeta. destruct (n / 10 =? 0)%N eqn:Hq; [simpl; lia|].
    apply N.eqb_neq in Hq.
    destruct k as [|[|k]]; [lia| |].
    { exfalso. apply Hq. apply N.div_small.
      by change (10 ^ N.of_nat 1)%N with 10%N in Hn. }
    assert (n / 10 < 10 ^ N.of_nat (S k))%N as Hlt.
    { rewrite (Nat2N.inj_succ (S k)), N.pow_succ_r' in Hn.
      apply N.Div0.div_lt_upper_bound. lia. }
    etrans; [apply (IH _ _ (S k) Hlt); lia|]. simpl. lia.
Qed.

Lemma str_of_N_short n :
  (Z.of_N n < 10 ^ max_str_digits)%Z →
  (Z.of_nat (String.length (str_of_N n)) ≤ max_str_digits)%Z.
Proof.
  intros H.
  assert (max_str_digits = Z.of_nat (Z.to_nat max_str_digits)) as Hk
    by (rewrite Z2Nat.id; [done|by unfold max_str_digits]).
  pose proof (dec_digits_length (N.to_nat (N.log2 n)) n EmptyString
                (Z.to_nat max_str_digits)) as Hlen.
  fold (str_of_N n) in Hlen. simpl String.length in Hlen.
  rewrite Hk. apply inj_le. rewrite Nat.add_0_r in Hlen. apply Hlen.
  - apply N2Z.inj_lt. rewrite N2Z.inj_pow, nat_N_Z, <- Hk. exact H.
  - unfold max_str_digits. lia.
Qed.

Lemma py_int_str_of_N n :
  (Z.of_N n < 10 ^ max_str_digits)%Z → py_int (str_of_N n) = Ok (Z.of_N n).
Proof.
  intros Hn. pose proof (str_of_N_short n Hn) as Hshort. revert Hshort.
  unfold str_of_N.
  destruct (dec_digits_shape (N.to_nat (N.log2 n)) n EmptyString)
    as (ds & Heq & Hds & Hne).
  rewrite app_empty_r in Heq. intros Hshort.
  rewrite py_int_digits by (rewrite Heq; done).
  rewrite int_literal_digits by (rewrite Heq; done).
  apply Z.leb_le in Hshort. rewrite Hshort.
  destruct (int_digits_dec (N.to_nat (N.log2 n)) n) as (k & _ & Hk).
  { rewrite Nat2N.inj_succ, N2Nat.id.
    destruct n as [|p]; [done|]. apply N.log2_spec. lia. }
  rewrite Hk. simpl. f_equal.
Qed.

Lemma str_of_N_digits n :
  str_all py_isdigit (str_of_N n) = true ∧ nonempty_str (str_of_N n) = true.
Proof.
  unfold str_of_N.
  destruct (dec_digits_shape (N.to_nat (N.log2 n)) n EmptyString)
    as (ds & Heq & Hds & Hne).
  rewrite Heq, app_empty_r. done.
Qed.

Lemma py_int_py_str_int z :
  (0 ≤ z < 10 ^ max_str_digits)%Z → py_int (py_str_int z) = Ok z.
Proof.
  intros Hz. destruct z as [|p|p]; [| |lia]; simpl.
  - done.
  - change (str_of_N (Z.to_N (Z.pos p))) with (str_of_N (N.pos p)).
    by rewrite py_int_str_of_N by apply Hz.
Qed.

(** What [int] returns on a run of digits is below the power of ten of
    the limit, and the run is within the limit. *)
Lemma py_int_bound w v :
  str_all py_isdigit w = true → nonempty_str w = true →
  py_int w = Ok v →
  (0 ≤ v < 10 ^ max_str_digits)%Z
  ∧ (Z.of_nat (String.length w) <=? max_str_digits)%Z = true.
Proof.
  intros Hds Hne H. rewrite py_int_digits, int_literal_digits in H by done.
  destruct (Z.of_nat (String.length w) <=? max_str_digits)%Z eqn:E.
  2:{ by destruct (int_digits 0 false w). }
  split; [|done]. apply Z.leb_le in E.
  apply (int_digits_bound _ Hds) in H; [|lia].
  split; [lia|]. eapply Z.lt_le_trans; [apply H|].
  rewrite Z.add_0_l, Z.mul_1_l. apply Z.pow_le_mono_r; lia.
Qed.

Lemma py_int_short w :
  str_all py_isdigit w = true → nonempty_str w = true →
  (Z.of_nat (String.length w) <=? max_str_digits)%Z = true →
  returns (py_int w).
Proof.
  intros Hds Hne Hshort.
  rewrite py_int_digits, int_literal_digits, Hshort by done.
  apply int_digits_all_digits; auto.
Qed.

Lemma py_str_int_no_dot z :
  str_all (λ c, negb (Ascii.eqb c ".")) (py_str_int z) = true.
Proof.
  assert (∀ n, str_all (λ c, negb (Ascii.eqb c ".")) (str_of_N n) = true) as H.
  { intros n. destruct (str_of_N_digits n) as [Hds _].
    revert Hds. apply str_all_impl. intros c Hc.
    by rewrite (digit_not_dot _ Hc). }
  destruct z; simpl; auto.
Qed.

(** ** [split] and [join] on dots *)

Lemma split_on_nonempty sep s : split_on sep s ≠ [].
Proof.
  destruct s as [|c s]; simpl; [done|].
  destruct (Ascii.eqb c sep); [done|]. by destruct (split_on sep s).
Qed.

Lemma split_on_cons_other sep c s :
  Ascii.eqb c sep = false →
  ∃ w ws, split_on sep s = w :: ws ∧ split_on sep (String c s) = String c w :: ws.
Proof.
  intros Hc. simpl. rewrite Hc.
  destruct (split_on sep s) as [|w ws] eqn:E; [by apply split_on_nonempty in E|].
  by exists w, ws.
Qed.

Lemma split_on_no_sep sep w :
  str_all (λ c, negb (Ascii.eqb c sep)) w = true → split_on sep w = [w].
Proof.
  induction w as [|c w IH]; simpl; [done|].
  intros [Hc Hw]%andb_true_iff. apply negb_true_iff in Hc.
  by rewrite Hc, (IH Hw).
Qed.

Lemma split_on_app sep w rest :
  str_all (λ c, negb (Ascii.eqb c sep)) w = true →
  split_on sep (w +:+ String sep rest) = w :: split_on sep rest.
Proof.
  induction w as [|c w IH]; intros Hw.
  - rewrite app_empty_l. simpl. by rewrite Ascii.eqb_refl.
  - simpl in Hw. apply andb_true_iff in Hw as [Hc Hw].
    apply negb_true_iff in Hc. rewrite app_String. simpl.
    by rewrite Hc, (IH Hw).
Qed.

Lemma join_cons2 sep w w' ws :
  join sep (w :: w' :: ws) = w +:+ sep +:+ join sep (w' :: ws).
Proof. reflexivity. Qed.

Lemma split_on_join ws :
  ws ≠ [] →
  Forall (λ w, str_all (λ c, negb (Ascii.eqb c ".")) w = true) ws →
  split_on "." (join "." ws) = ws.
Proof.
  intros Hne Hws. induction Hws as [|w ws Hw Hws IH]; [done|].
  destruct ws as [|w' ws].
  - simpl. by apply split_on_no_sep.
  - rewrite join_cons2.
    change ("." +:+ join "." (w' :: ws)) with (String "." (join "." (w' :: ws))).
    rewrite split_on_app by done. f_equal. by apply IH.
Qed.

(** ** [parse_numbering] *)

Lemma rmap_length {A B} (f : A → result B) l bs :
  rmap f l = Ok bs → length bs = length l.
Proof.
  revert bs. induction l as [|x l IH]; simpl; intros bs H.
  - by inversion H.
  - destruct (f x) as [y|e]; simpl in H; [|done].
    destruct (rmap f l) as [ys|e]; simpl in H; [|done].
    inversion H; subst. simpl. f_equal. by apply IH.
Qed.

Lemma rmap_returns {A B} (f : A → result B) l :
  Forall (λ x, returns (f x)) l → returns (rmap f l).
Proof.
  induction 1 as [|x l [y Hy] _ [ys Hys]]; simpl; [by eexists|].
  rewrite Hy, Hys. simpl. by eexists.
Qed.

Lemma parse_numbering_nonempty a nums :
  parse_numbering a = Ok nums → nums ≠ [].
Proof.
  intros H%rmap_length Hnil. subst nums. simpl in H.
  pose proof (split_on_nonempty "." a) as Hne.
  by destruct (split_on "." a).
Qed.

Lemma int_digits_error acc b s e :
  int_digits acc b s = Raise e → e = ValueError.
Proof.
  revert acc b. induction s as [|c s IH]; simpl; intros acc b H.
  - destruct b; by inversion H.
  - destruct (py_isdigit c); [by eapply IH|].
    destruct (Ascii.eqb c "_"); [|by inversion H].
    destruct b; [by eapply IH|by inversion H].
Qed.

Lemma int_literal_error t e : int_literal t = Raise e → e = ValueError.
Proof.
  unfold int_literal. intros H.
  destruct (int_digits 0 false t) eqn:E; simpl in H.
  - destruct (_ <=? _)%Z; by inversion H.
  - inversion H; subst. by eapply int_digits_error.
Qed.

Lemma py_int_error s e : py_int s = Raise e → e = ValueError.
Proof.
  unfold py_int. intros H.
  assert (∀ r, rbind (int_literal r) (λ n, Ok (- n)%Z) = Raise e →
               e = ValueError) as Hneg.
  { intros r Hr. destruct (int_literal r) eqn:E; [done|].
    simpl in Hr. inversion Hr; subst. by eapply int_literal_error. }
  destruct (rstrip (lstrip s)) as [|c r]; [by eapply int_literal_error|].
  destruct c as [[|] [|] [|] [|] [|] [|] [|] [|]];
    first [by eapply int_literal_error | by eapply Hneg].
Qed.

Lemma rmap_error {A B} (f : A → result B) (P : pyerr → Prop) l e :
  (∀ x e', f x = Raise e' → P e') → rmap f l = Raise e → P e.
Proof.
  intros Hf. induction l as [|x l IH]; simpl; [done|].
  destruct (f x) as [y|e'] eqn:Hx; simpl.
  - destruct (rmap f l); simpl; [done|]. intros [= <-]. by apply IH.
  - intros [= <-]. by eapply Hf.
Qed.

Lemma parse_numbering_error a e :
  parse_numbering a = Raise e → e = ValueError.
Proof. apply (rmap_error py_int (λ e, e = ValueError)). apply py_int_error. Qed.

Lemma rmap_Forall2 {A B} (f : A → result B) l bs :
  rmap f l = Ok bs → Forall2 (λ x y, f x = Ok y) l bs.
Proof.
  revert bs. induction l as [|x l IH]; simpl; intros bs H.
  - inversion H. constructor.
  - destruct (f x) as [y|e] eqn:Hx; simpl in H; [|done].
    destruct (rmap f l) as [ys|e]; simpl in H; [|done].
    inversion H; subst. constructor; [done|]. by apply IH.
Qed.

Lemma numbering_string_parses a :
  is_numbering_string a = true → within_digit_limit a = true →
  returns (parse_numbering a).
Proof.
  unfold is_numbering_string, within_digit_limit, parse_numbering.
  intros H Hlim.
  apply rmap_returns. apply Forall_forall. intros w Hw.
  rewrite forallb_forall in H, Hlim. specialize (H w). specialize (Hlim w).
  rewrite <- list_elem_of_In in H, Hlim. specialize (H Hw).
  apply andb_true_iff in H as [Hne Hds]. apply py_int_short; auto.
Qed.

(** The components of a numbering string that parses are within the
    limit, and so are their values. *)
Lemma parse_numbering_bounded a nums :
  is_numbering_string a = true → parse_numbering a = Ok nums →
  within_digit_limit a = true
  ∧ Forall (λ z, (0 ≤ z < 10 ^ max_str_digits)%Z) nums.
Proof.
  unfold is_numbering_string, within_digit_limit, parse_numbering.
  intros H Hp%rmap_Forall2.
  rewrite forallb_forall in H.
  assert (Forall (λ w, nonempty_str w && str_all py_isdigit w = true)
            (split_on "." a)) as Hall.
  { apply Forall_forall. intros w Hw. apply H. by apply list_elem_of_In. }
  clear H. revert Hall.
  induction Hp as [|w z ws zs Hw _ IH]; intros Hall; [by split|].
  apply Forall_cons in Hall as [[Hne Hds]%andb_true_iff Hall].
  destruct (py_int_bound w z Hds Hne Hw) as [Hz Hshort].
  destruct (IH Hall) as [Hlim Hzs].
  split; [|by constructor]. simpl. by rewrite Hshort, Hlim.
Qed.

Lemma parse_numbering_over_limit a :
  is_numbering_string a = true → within_digit_limit a = false →
  parse_numbering a = Raise ValueError.
Proof.
  intros Hnum Hlim.
  destruct (parse_numbering a) as [nums|e] eqn:Hp.
  - apply (parse_numbering_bounded _ _ Hnum) in Hp as [Hin _]. congruence.
  - by rewrite (parse_numbering_error _ _ Hp).
Qed.

Lemma parse_numbering_str nums :
  nums ≠ [] →
  Forall (λ z, (0 ≤ z < 10 ^ max_str_digits)%Z) nums →
  parse_numbering (numbering_str nums) = Ok nums.
Proof.
  intros Hne Hnums. unfold parse_numbering, numbering_str.
  rewrite split_on_join.
  - clear Hne. induction Hnums as [|z nums Hz _ IH]; [done|].
    rewrite fmap_cons. simpl rmap. by rewrite py_int_py_str_int, IH.
  - by destruct nums.
  - apply Forall_fmap, Forall_forall. intros z _. apply py_str_int_no_dot.
Qed.

(** Python's own [str] of a list opens with a bracket, and
    [parse_numbering] rejects every such text: the [str] of the round trip
    is the dotted form. *)
Lemma parse_numbering_bracket s :
  parse_numbering (String "[" s) = Raise ValueError.
Proof.
  unfold parse_numbering.
  destruct (split_on_cons_other "." "[" s eq_refl) as (w & ws & _ & ->).
  simpl rmap.
  assert (py_int (String "[" w) = Raise ValueError) as ->; [|done].
  unfold py_int. simpl lstrip. simpl rstrip.
  by destruct (rstrip w).
Qed.

(** ** [is_next_heading] on parsed numberings *)

Lemma index_returns l i : i < length l → returns (index l i).
Proof.
  intros H. unfold index.
  destruct (lookup_lt_is_Some_2 l i H) as [x ->]. by eexists.
Qed.

Lemma last_elt_returns l : l ≠ [] → returns (last_elt l).
Proof.
  intros H. destruct l as [|x l]; [done|]. unfold last_elt.
  apply index_returns. simpl. lia.
Qed.

Lemma is_next_heading_parsed p curr pn cn :
  truthy_str (Some p) = true →
  parse_numbering p = Ok pn → parse_numbering curr = Ok cn →
  returns (is_next_heading (Some p) curr).
Proof.
  intros Ht Hp Hc. unfold is_next_heading. rewrite Ht, Hp, Hc. simpl.
  pose proof (parse_numbering_nonempty _ _ Hp) as Hpn.
  pose proof (parse_numbering_nonempty _ _ Hc) as Hcn.
  assert (0 < length pn ∧ 0 < length cn) as [Hlp Hlc].
  { destruct pn, cn; simpl; try done; lia. }
  destruct (last_elt_returns _ Hpn) as [lp Hlast_p].
  destruct (last_elt_returns _ Hcn) as [lc Hlast_c].
  destruct (index_returns pn 0 Hlp) as [p0 Hp0].
  destruct (index_returns cn 0 Hlc) as [c0 Hc0].
  rewrite Hlast_c, Hp0, Hc0. simpl.
  destruct (length pn =? length cn) eqn:Hlen.
  { destruct (list_Z_eqb _ _); [|by eexists].
    rewrite Hlast_p. simpl. by eexists. }
  assert (returns
    (if (length cn =? length pn + 1) && list_Z_eqb (but_last cn) pn
     then Ok true
     else if length cn <? length pn
          then if list_Z_eqb (but_last cn) (take (length cn - 1) pn)
               then rbind (index pn (length cn - 1))
                          (λ p1, Ok (lc =? p1 + 1)%Z)
               else Ok false
          else Ok false)) as Hrest.
  { destruct (_ && _); [by eexists|].
    destruct (length cn <? length pn) eqn:Hlt; [|by eexists].
    destruct (list_Z_eqb _ _); [|by eexists].
    apply Nat.ltb_lt in Hlt.
    destruct (index_returns pn (length cn - 1)) as [p1 ->]; [lia|].
    simpl. by eexists. }
  destruct (length cn =? 1); [|done].
  destruct (c0 =? p0 + 1)%Z; [by eexists|done].
Qed.

(** C1. The table of the sequence validator: with no previous heading
    every candidate is accepted; 1.1 to 1.2, 1.1 to 2, 1 to 1.1, 1.2 to
    1.2.1 and 4.1.6 to 4.2 are accepted; 1.1 to 1.1 and 1.1 to 1.3 are
    rejected. *)
Theorem is_next_heading_table :
  (∀ x, is_next_heading None x = Ok true)
  ∧ is_next_heading (Some "1.1") "1.2" = Ok true
  ∧ is_next_heading (Some "1.1") "2" = Ok true
  ∧ is_next_heading (Some "1") "1.1" = Ok true
  ∧ is_next_heading (Some "1.2") "1.2.1" = Ok true
  ∧ is_next_heading (Some "4.1.6") "4.2" = Ok true
  ∧ is_next_heading (Some "1.1") "1.1" = Ok false
  ∧ is_next_heading (Some "1.1") "1.3" = Ok false.
Proof. repeat split; vm_compute; reflexivity. Qed.

(** C7, as stated, fails: a numbering string with a component of more
    digits than [int] takes does not parse, so neither side of the round
    trip has a value. *)
Lemma parse_numbering_long_number :
  is_numbering_string long_number = true
  ∧ parse_numbering long_number = Raise ValueError.
Proof. split; vm_compute; reflexivity. Qed.

(** C7, amended. A numbering string [a] parses exactly when none of its
    components has more digits than [int] takes; it then parses to a
    numbering that, written back as a dotted string and parsed again, is
    the same numbering, and it raises [ValueError] otherwise. *)
Theorem parse_numbering_round_trip a :
  is_numbering_string a = true →
  (within_digit_limit a = true →
   ∃ nums, parse_numbering a = Ok nums
           ∧ parse_numbering (numbering_str nums) = Ok nums)
  ∧ (within_digit_limit a = false → parse_numbering a = Raise ValueError).
Proof.
  intros Hnum. split; [|by apply parse_numbering_over_limit].
  intros Hlim.
  destruct (numbering_string_parses a Hnum Hlim) as [nums Hn].
  exists nums. split; [done|].
  apply parse_numbering_str; [by eapply parse_numbering_nonempty|].
  by eapply parse_numbering_bounded.
Qed.

Lemma parse_numbering_round_trip_witness :
  ∃ nums, parse_numbering "4.1.6" = Ok nums
          ∧ parse_numbering (numbering_str nums) = Ok nums.
Proof. apply (parse_numbering_round_trip "4.1.6"); reflexivity. Defined.

(** C8, as stated, fails: a candidate that is not a numbering makes the
    validator raise. *)
Lemma is_next_heading_raises :
  is_next_heading (Some "1.1") "abc" = Raise ValueError.
Proof. vm_compute. reflexivity. Qed.

(** C8, amended. The validator returns a boolean exactly when there is no
    previous number ([None] or the empty string), or [int] accepts every
    dot-separated component of both strings; numbering strings none of
    whose components has more digits than [int] takes are such strings. *)
Theorem is_next_heading_returns prev curr :
  (returns (is_next_heading prev curr)
   ↔ truthy_str prev = false
     ∨ ∃ p, prev = Some p ∧ returns (parse_numbering p)
            ∧ returns (parse_numbering curr))
  ∧ (is_numbering_string curr = true → within_digit_limit curr = true →
     (∀ p, prev = Some p →
           p = EmptyString
           ∨ is_numbering_string p = true ∧ within_digit_limit p = true) →
     returns (is_next_heading prev curr)).
Proof.
  assert (returns (is_next_heading prev curr)
   ↔ truthy_str prev = false
     ∨ ∃ p, prev = Some p ∧ returns (parse_numbering p)
            ∧ returns (parse_numbering curr)) as Hiff.
  { split.
    - intros [b Hb]. destruct prev as [p|]; [|by left].
      destruct (truthy_str (Some p)) eqn:Ht; [|by left].
      right. exists p. split; [done|].
      unfold is_next_heading in Hb. rewrite Ht in Hb. simpl in Hb.
      destruct (parse_numbering p) as [pn|e]; [|done].
      split; [by eexists|].
      destruct (parse_numbering curr) as [cn|e]; [by eexists|done].
    - intros [Hf | (p & -> & [pn Hp] & [cn Hc])].
      + destruct prev as [p|]; [|by exists true].
        unfold is_next_heading. rewrite Hf. by exists true.
      + destruct (truthy_str (Some p)) eqn:Ht.
        * by eapply is_next_heading_parsed.
        * unfold is_next_heading. rewrite Ht. by exists true. }
  split; [done|].
  intros Hc Hlc Hp. apply Hiff.
  destruct prev as [p|]; [|by left].
  destruct (Hp p eq_refl) as [-> | [Hnum Hlp]]; [by left|].
  right. exists p. auto using numbering_string_parses.
Qed.

Lemma is_next_heading_returns_witness :
  returns (is_next_heading (Some "4.1.6") "4.2").
Proof.
  apply (is_next_heading_returns (Some "4.1.6") "4.2").
  - reflexivity.
  - reflexivity.
  - intros p [= <-]. right. split; reflexivity.
Defined.

(** ** White space *)

Lemma split_ws_go_some w s : split_ws_go (Some w) s ≠ [].
Proof.
  revert w. induction s as [|c s IH]; intros w; simpl; [done|].
  destruct (py_isspace c); [done|]. apply IH.
Qed.

Lemma join_cons sep w ws :
  join sep (w :: ws)
  = w +:+ match ws with [] => EmptyString | _ => sep +:+ join sep ws end.
Proof. destruct ws; simpl; [by rewrite app_empty_r|done]. Qed.

Lemma collapse_after_gap s :
  collapse AfterGap s
  = match split_ws_go None s with
    | [] => EmptyString
    | _ => " " +:+ collapse AtStart s
    end.
Proof.
  induction s as [|c s IH]; simpl; [done|].
  destruct (py_isspace c); [done|].
  pose proof (split_ws_go_some (String c EmptyString) s) as Hne.
  by destruct (split_ws_go (Some (String c EmptyString)) s).
Qed.

Lemma join_split_ws_go s :
  (∀ w, join " " (split_ws_go (Some w) s) = w +:+ collapse InWord s)
  ∧ join " " (split_ws_go None s) = collapse AtStart s.
Proof.
  induction s as [|c s [IHw IHn]]; simpl.
  - split; [|done]. intros w. by rewrite app_empty_r.
  - destruct (py_isspace c).
    + split; [|done]. intros w.
      rewrite join_cons, collapse_after_gap, IHn.
      by destruct (split_ws_go None s).
    + split.
      * intros w. by rewrite IHw, app_assoc_str.
      * by rewrite IHw.
Qed.

(** The program's [" ".join(title.split())] collapses and trims. *)
Lemma normalize_ws_collapse s : normalize_ws s = collapse_ws s.
Proof. apply join_split_ws_go. Qed.


Lemma collapse_single_spaced s :
  single_spaced false (collapse InWord s) = true
  ∧ single_spaced false (collapse AfterGap s) = true
  ∧ (collapse AtStart s = EmptyString
     ∨ single_spaced true (collapse AtStart s) = true).
Proof.
  induction s as [|c s (IH1 & IH2 & IH3)]; simpl; [by auto|].
  destruct (py_isspace c) eqn:Hc; [done|].
  simpl. rewrite Hc. auto.
Qed.

(** The normalised title is empty or has no white space at either end,
    and inside only single spaces between words. *)
Lemma collapse_ws_trimmed s :
  collapse_ws s = EmptyString ∨ single_spaced true (collapse_ws s) = true.
Proof. apply collapse_single_spaced. Qed.

(** ** The title stitcher *)

Lemma join_empty_cons w ws : join "" (w :: ws) = w +:+ join "" ws.
Proof. rewrite join_cons. by destruct ws. Qed.

Lemma join_nonempty_texts items :
  join "" (nonempty_texts items) = join "" (text <$> items).
Proof.
  unfold nonempty_texts. induction items as [|sp items IH]; [done|].
  rewrite fmap_cons, filter_cons, join_empty_cons.
  destruct (decide (text sp ≠ EmptyString)) as [Hne|Heq].
  - by rewrite join_empty_cons, IH.
  - apply dec_stable in Heq. by rewrite Heq, IH.
Qed.

Lemma stitch_same_line_title spans span_idx r txt :
  (stitch_same_line spans span_idx (Some r) txt).1
  = Some (r +:+ join "" (text <$> drop (span_idx + 1) spans)).
Proof.
  unfold stitch_same_line.
  destruct (span_idx + 1 <? length spans) eqn:Hlt.
  - rewrite <- join_nonempty_texts.
    destruct r as [|c r]; simpl.
    + by destruct (nonempty_texts _).
    + destruct (nonempty_texts _); simpl; [by rewrite app_empty_r|done].
  - apply Nat.ltb_ge in Hlt. rewrite drop_ge by done. simpl.
    by rewrite app_empty_r.
Qed.

Lemma stitch_next_line_title lines line_idx t txt :
  (stitch_next_line lines line_idx (Some t) txt).1
  = Some (if String.length t <? 2 then
            match lines !! (line_idx + 1) with
            | Some l => t +:+ join "" (text <$> spans l)
            | None => t
            end
          else t).
Proof.
  unfold stitch_next_line.
  assert (title_too_short (Some t) = (String.length t <? 2)) as ->.
  { by destruct t. }
  destruct (String.length t <? 2); [|done].
  destruct (lines !! (line_idx + 1)) as [l|]; [|done].
  rewrite <- join_nonempty_texts.
  destruct (nonempty_texts (spans l)) eqn:E; simpl.
  - by rewrite app_empty_r.
  - by destruct t.
Qed.

Lemma stitch_title_spec lines line_idx spans span_idx r txt :
  (stitch_title lines line_idx spans span_idx (Some r) txt).1
  = Some (spec_title r (drop (span_idx + 1) spans) (lines !! (line_idx + 1))).
Proof.
  unfold stitch_title.
  pose proof (stitch_same_line_title spans span_idx r txt) as H1.
  destruct (stitch_same_line spans span_idx (Some r) txt) as [t1 txt1].
  simpl in H1. subst t1. by rewrite stitch_next_line_title.
Qed.

(** ** One span *)

Lemma app_option_list_id {A} (l : list A) (o : option A) :
  l = l ++ option_list o → o = None.
Proof.
  destruct o as [x|]; [|done]. intros H.
  apply (f_equal length) in H. rewrite length_app in H. simpl in H. lia.
Qed.

Lemma set_started_id st : started st = true → set_started st = st.
Proof. destruct st; simpl. by intros ->. Qed.

Lemma open_section_ok st t num page_num :
  open_section st (Some t) (Some num) page_num
  = Ok {| sections := sections st ++ option_list (current_section st);
          current_section :=
            Some {| title := normalize_ws t; number := num;
                    level := Z.of_nat (length (split_on "." num));
                    page := page_num + 1; content := "" |};
          last_number := Some num;
          started := started st |}.
Proof. reflexivity. Qed.

Lemma accept_or_fold_spec titles page_num num t txt st b :
  is_next_heading (last_number st) num = Ok b →
  accept_or_fold titles page_num (Some num) (Some t) txt st
  = if toc_allows titles num && b
    then open_section st (Some t) (Some num) page_num
    else Ok (append_text st txt).
Proof.
  intros Hb. unfold accept_or_fold, toc_allows.
  destruct titles as [|t0 titles]; simpl.
  - rewrite Hb. simpl. by destruct b.
  - destruct (py_in num t0 || existsb (py_in num) titles); simpl; [|done].
    rewrite Hb. simpl. by destruct b.
Qed.

(** The round of [process_span] on a heading match that is no link. *)
Lemma process_span_heading intersects cfg titles page_num links lines
    line_idx spans span_idx st sp m num r :
  spans !! span_idx = Some sp →
  text sp ≠ EmptyString →
  heading_match cfg sp = Some m →
  group (heading_regex cfg) m 1 = Ok (Some num) →
  group_or_empty (heading_regex cfg) m = Ok (Some r) →
  is_link intersects links sp = false →
  started st = true ∨ start_header_number cfg = Some num →
  ∃ txt,
    process_span intersects cfg titles page_num links lines line_idx spans
      span_idx st
    = accept_or_fold titles page_num (Some num)
        (Some (spec_title r (drop (span_idx + 1) spans)
                 (lines !! (line_idx + 1))))
        txt (set_started st).
Proof.
  intros Hsp Htxt Hm Hnum Hr Hlink Hgate.
  unfold process_span. rewrite Hsp, bool_decide_eq_false_2 by done.
  rewrite Hm, Hnum. simpl. rewrite Hlink, Hr. simpl.
  pose proof (stitch_title_spec lines line_idx spans span_idx r (text sp)) as Ht.
  destruct (stitch_title _ _ _ _ _ _) as [t2 txt2]. simpl in Ht. subst t2.
  exists txt2.
  destruct (started st) eqn:Hst.
  - by rewrite set_started_id.
  - destruct Hgate as [?| ->]; [done|].
    by rewrite bool_decide_eq_true_2.
Qed.

Lemma accept_or_fold_cases titles page_num num_str t txt st st' :
  accept_or_fold titles page_num num_str t txt st = Ok st' →
  st' = append_text st txt ∨ open_section st t num_str page_num = Ok st'.
Proof.
  unfold accept_or_fold. intros H.
  destruct (0 <? length titles).
  - destruct (in_some_title num_str titles) as [[|]|e]; simpl in H;
      [|by left; inversion H|done].
    destruct (is_next_heading_opt (last_number st) num_str) as [[|]|e];
      simpl in H; [by right|by left; inversion H|done].
  - destruct (is_next_heading_opt (last_number st) num_str) as [[|]|e];
      simpl in H; [by right|by left; inversion H|done].
Qed.

Lemma open_section_started st t num_str page_num st' :
  open_section st t num_str page_num = Ok st' → started st' = started st.
Proof.
  unfold open_section. destruct (new_section t num_str page_num); simpl;
    [|done]. by intros [= <-].
Qed.

Lemma accept_or_fold_started titles page_num num_str t txt st st' :
  accept_or_fold titles page_num num_str t txt st = Ok st' →
  started st' = started st.
Proof.
  intros [-> | H]%accept_or_fold_cases; [done|].
  by eapply open_section_started.
Qed.

(** [sub in s] holds exactly when [s] has [sub] as a substring. *)
Lemma is_prefix_spec p s : is_prefix p s = true ↔ ∃ post, s = p +:+ post.
Proof.
  revert s. induction p as [|a p IH]; intros s; simpl.
  - split; [by exists s|done].
  - destruct s as [|b s]; [split; [done|by intros [? ?]]|].
    rewrite andb_true_iff, Ascii.eqb_eq, IH. split.
    + intros [-> [post ->]]. by exists post.
    + intros [post H]. rewrite app_String in H. inversion H. eauto.
Qed.

Lemma py_in_spec sub s :
  py_in sub s = true ↔ ∃ pre post, s = pre +:+ sub +:+ post.
Proof.
  induction s as [|c s IH].
  - simpl. rewrite orb_false_r, is_prefix_spec. split.
    + intros [post H]. by exists EmptyString, post.
    + intros (pre & post & H). destruct pre; [by exists post|done].
  - change (py_in sub (String c s))
      with (is_prefix sub (String c s) || py_in sub s).
    rewrite orb_true_iff, is_prefix_spec, IH. split.
    + intros [[post H] | (pre & post & H)].
      * by exists EmptyString, post.
      * exists (String c pre), post. by rewrite app_String, H.
    + intros (pre & post & H). destruct pre as [|c' pre].
      * left. by exists post.
      * right. rewrite app_String in H. inversion H. eauto.
Qed.

(** ** The newline at the end of a line

    Whatever the layout of the fragments, the last section of the output
    has content: the line of its heading ended with a newline. *)

Lemma open_section_current st t num_str page_num st' :
  open_section st t num_str page_num = Ok st' → is_Some (current_section st').
Proof.
  unfold open_section. destruct (new_section t num_str page_num); simpl;
    [|done]. intros [= <-]. by eexists.
Qed.

Lemma process_span_emitted intersects cfg titles page_num links lines
    line_idx spans span_idx st st' :
  emitted_under_open st →
  process_span intersects cfg titles page_num links lines line_idx spans
    span_idx st = Ok st' →
  emitted_under_open st'.
Proof.
  intros Hst. unfold process_span.
  assert (∀ txt, emitted_under_open (append_text st txt)) as Happ.
  { intros txt Hnone. simpl in *. apply Hst.
    by destruct (current_section st). }
  assert (∀ num_str t txt st0,
            emitted_under_open st0 →
            accept_or_fold titles page_num num_str t txt st0 = Ok st' →
            emitted_under_open st') as Hacc.
  { intros num_str t txt st0 Hst0 [-> | H]%accept_or_fold_cases.
    - intros Hnone. simpl in *. apply Hst0.
      by destruct (current_section st0).
    - apply open_section_current in H as [s Hs]. intros Hnone. congruence. }
  destruct (spans !! span_idx) as [sp|]; [|done].
  destruct (bool_decide _); [by intros [= <-]|].
  destruct (heading_match cfg sp) as [m|].
  2:{ destruct (started st); intros [= <-]; auto. }
  destruct (group (heading_regex cfg) m 1) as [num_str|e]; simpl; [|done].
  destruct (is_link intersects links sp); [by intros [= <-]|].
  destruct (group_or_empty (heading_regex cfg) m) as [t0|e]; simpl; [|done].
  destruct (stitch_title _ _ _ _ _ _) as [t2 txt2].
  destruct (started st); [by apply Hacc|].
  destruct (bool_decide _); [by apply Hacc|by intros [= <-]].
Qed.

Lemma span_loop_emitted intersects cfg titles page_num links lines line_idx
    spans :
  ∀ n span_idx st st',
    emitted_under_open st →
    span_loop intersects cfg titles page_num links lines line_idx spans n
      span_idx st = Ok st' →
    emitted_under_open st'.
Proof.
  induction n as [|n IH]; simpl; intros span_idx st st' Hst H.
  - by inversion H; subst.
  - destruct (process_span _ _ _ _ _ _ _ _ _ _) as [st1|e] eqn:Hstep;
      simpl in H; [|done].
    eapply IH; [|exact H]. by eapply process_span_emitted.
Qed.

Lemma append_newline_content st :
  open_has_content (append_text st (String "010" EmptyString)).
Proof.
  intros s. simpl. destruct (current_section st) as [s0|]; [|done].
  intros [= <-]. simpl. by destruct (content s0).
Qed.

Lemma line_loop_content intersects cfg titles page_num links lines :
  ∀ n line_idx st st',
    emitted_under_open st → open_has_content st →
    line_loop intersects cfg titles page_num links lines n line_idx st
    = Ok st' →
    emitted_under_open st' ∧ open_has_content st'.
Proof.
  induction n as [|n IH]; simpl; intros line_idx st st' Hst Hc H.
  - by inversion H; subst.
  - unfold process_line in H.
    destruct (lines !! line_idx) as [l|]; simpl in H; [|done].
    destruct (span_loop _ _ _ _ _ _ _ _ _ _ _) as [st1|e] eqn:Hspans;
      simpl in H; [|done].
    apply span_loop_emitted in Hspans; [|done].
    eapply IH; [| |exact H].
    + intros Hnone. simpl in *. apply Hspans.
      by destruct (current_section st1).
    + apply append_newline_content.
Qed.

Lemma block_loop_content intersects cfg titles page_num pg :
  ∀ bs st st',
    emitted_under_open st → open_has_content st →
    block_loop intersects cfg titles page_num pg bs st = Ok st' →
    emitted_under_open st' ∧ open_has_content st'.
Proof.
  induction bs as [|b bs IH]; simpl; intros st st' Hst Hc H.
  - by inversion H; subst.
  - destruct (process_block _ _ _ _ _ _ _) as [st1|e] eqn:Hb; simpl in H;
      [|done].
    unfold process_block in Hb.
    destruct (block_skipped _ _ _).
    + inversion Hb; subst st1. by eapply IH.
    + apply line_loop_content in Hb as [? ?]; [|done..]. by eapply IH.
Qed.

Lemma page_loop_content intersects cfg titles doc :
  ∀ n page_num st st',
    emitted_under_open st → open_has_content st →
    page_loop intersects cfg titles doc n page_num st = Ok st' →
    emitted_under_open st' ∧ open_has_content st'.
Proof.
  induction n as [|n IH]; simpl; intros page_num st st' Hst Hc H.
  - by inversion H; subst.
  - unfold process_page in H.
    destruct (get_page doc page_num) as [pg|e]; simpl in H; [|done].
    destruct (block_loop _ _ _ _ _ _ _) as [st1|e] eqn:Hb; simpl in H;
      [|done].
    apply block_loop_content in Hb as [? ?]; [|done..]. by eapply IH.
Qed.

Lemma last_section_has_content intersects doc cfg out s :
  extract_hierarchy_checked intersects doc cfg = Ok out →
  last out = Some s → content s ≠ EmptyString.
Proof.
  unfold extract_hierarchy_checked. intros H Hlast.
  destruct (page_loop _ _ _ _ _ _ _) as [st|e] eqn:Hloop; simpl in H;
    [|done].
  apply page_loop_content in Hloop as [Hem Hc]; [|done..].
  inversion H; subst out. clear H.
  destruct (current_section st) as [s0|] eqn:Hcur; simpl in Hlast.
  - rewrite last_snoc in Hlast. inversion Hlast; subst. by apply Hc.
  - rewrite Hem in Hlast by done. done.
Qed.

(** C2, as stated, fails: the newline that ends the line of the heading
    itself is already in the content of the section the heading opens
    (and by [last_section_has_content] no layout of the fragments leaves
    the last section with empty content). *)
Lemma scenario_described_differs :
  extract_hierarchy_checked rect_overlaps scenario_doc default_config
  ≠ Ok scenario_described.
Proof. vm_compute. discriminate. Qed.

(** C2, amended. On the five fragments, one to a line, the flat output is
    the three sections 1, 1.1 and 2 with the titles, levels and pages of
    the scenario; each content starts with the newline of the heading's
    line: a newline, "Intro body text." and a newline; a newline, "More
    body." and a newline; a newline. *)
Theorem scenario_flat_output intersects :
  extract_hierarchy_checked intersects scenario_doc default_config
  = Ok scenario_sections.
Proof. vm_compute. reflexivity. Qed.

(** C3, as stated, fails: the text of a heading match under a link is
    added to no content. *)
Lemma linked_heading_text_dropped :
  extract_hierarchy_checked rect_overlaps linked_doc default_config
  = Ok linked_sections
  ∧ existsb (λ s, py_in "1.1 Background" (content s)) linked_sections = false.
Proof. split; vm_compute; reflexivity. Qed.

(** C3, amended. A heading match whose box meets a link of its page is
    skipped: the round leaves the sections, the open section and its
    content, the last number and the gate as they were, so it is no
    section boundary and its text is not added to the content. *)
Theorem linked_heading_skipped intersects cfg titles page_num links lines
    line_idx spans span_idx st sp m num_str :
  spans !! span_idx = Some sp →
  heading_match cfg sp = Some m →
  group (heading_regex cfg) m 1 = Ok num_str →
  is_link intersects links sp = true →
  process_span intersects cfg titles page_num links lines line_idx spans
    span_idx st = Ok st.
Proof.
  intros Hsp Hm Hnum Hlink. unfold process_span. rewrite Hsp.
  destruct (bool_decide _); [done|].
  rewrite Hm, Hnum. simpl. by rewrite Hlink.
Qed.

(** C4. A heading match that reaches the acceptance test (no link, gate
    open) is a section boundary exactly when the table of contents, if
    there is one, has a title containing its number and the number
    follows the last accepted one; otherwise its text is folded into the
    open section. *)
Theorem heading_acceptance intersects cfg titles page_num links lines
    line_idx spans span_idx st sp m num r b :
  spans !! span_idx = Some sp →
  text sp ≠ EmptyString →
  heading_match cfg sp = Some m →
  group (heading_regex cfg) m 1 = Ok (Some num) →
  group_or_empty (heading_regex cfg) m = Ok (Some r) →
  is_link intersects links sp = false →
  started st = true ∨ start_header_number cfg = Some num →
  is_next_heading (last_number st) num = Ok b →
  ∃ st',
    process_span intersects cfg titles page_num links lines line_idx spans
      span_idx st = Ok st'
    ∧ (opens_section st st' num ↔ toc_allows titles num && b = true)
    ∧ (toc_allows titles num && b = false →
       ∃ txt, st' = append_text (set_started st) txt).
Proof.
  intros Hsp Htxt Hm Hnum Hr Hlink Hgate Hb.
  destruct (process_span_heading intersects cfg titles page_num links lines
              line_idx spans span_idx st sp m num r) as [txt ->]; try done.
  rewrite (accept_or_fold_spec _ _ _ _ _ (set_started st) b) by done.
  destruct (toc_allows titles num && b).
  - rewrite open_section_ok. eexists. split; [done|]. split; [|done].
    split; [done|]. intros _. repeat split. by eexists.
  - eexists. split; [done|]. split; [|by eexists].
    split; [|done]. intros (Hs & _ & s & Hcur & _). simpl in *.
    apply app_option_list_id in Hs. by rewrite Hs in Hcur.
Qed.

(** C5. When a heading match opens a section, the title of the section
    is the remainder of the match with the texts of all fragments after
    it on its line, then, if that is shorter than two characters and the
    block has a next line, with the texts of that line; all of it with
    white space collapsed to single spaces and trimmed. *)
Theorem title_stitched intersects cfg titles page_num links lines
    line_idx spans span_idx st st' sp m num r :
  spans !! span_idx = Some sp →
  text sp ≠ EmptyString →
  heading_match cfg sp = Some m →
  group (heading_regex cfg) m 1 = Ok (Some num) →
  group_or_empty (heading_regex cfg) m = Ok (Some r) →
  is_link intersects links sp = false →
  started st = true ∨ start_header_number cfg = Some num →
  process_span intersects cfg titles page_num links lines line_idx spans
    span_idx st = Ok st' →
  opens_section st st' num →
  ∃ s, current_section st' = Some s
       ∧ title s = collapse_ws (spec_title r (drop (span_idx + 1) spans)
                                  (lines !! (line_idx + 1)))
       ∧ (title s = EmptyString ∨ single_spaced true (title s) = true).
Proof.
  intros Hsp Htxt Hm Hnum Hr Hlink Hgate Hstep Hopen.
  destruct (process_span_heading intersects cfg titles page_num links lines
              line_idx spans span_idx st sp m num r) as [txt Heq]; try done.
  rewrite Heq in Hstep.
  apply accept_or_fold_cases in Hstep as [-> | Hstep].
  - exfalso. destruct Hopen as (Hs & _ & s & Hcur & _). simpl in *.
    apply app_option_list_id in Hs. by rewrite Hs in Hcur.
  - rewrite open_section_ok in Hstep. inversion Hstep; subst st'. simpl.
    eexists. split; [done|]. simpl. rewrite normalize_ws_collapse.
    split; [done|]. apply collapse_ws_trimmed.
Qed.

Lemma linked_heading_skipped_witness :
  process_span rect_overlaps default_config [] 0 [row_rect 2] scenario_lines
    2 [fragment "1.1 Background" 12 2] 0 introduction_open
  = Ok introduction_open.
Proof.
  apply (linked_heading_skipped rect_overlaps default_config [] 0%Z
           [row_rect 2] scenario_lines 2 [fragment "1.1 Background" 12 2] 0
           introduction_open (fragment "1.1 Background" 12 2)
           (groups_of default_config (fragment "1.1 Background" 12 2))
           (Some "1.1")).
  - reflexivity.
  - vm_compute. reflexivity.
  - vm_compute. reflexivity.
  - vm_compute. reflexivity.
Defined.

Lemma heading_acceptance_witness :
  ∃ st',
    process_span rect_overlaps default_config [] 0 [] scenario_lines
      2 [fragment "1.1 Background" 12 2] 0 introduction_open = Ok st'
    ∧ (opens_section introduction_open st' "1.1"
       ↔ toc_allows [] "1.1" && true = true)
    ∧ (toc_allows [] "1.1" && true = false →
       ∃ txt, st' = append_text (set_started introduction_open) txt).
Proof.
  apply (heading_acceptance rect_overlaps default_config [] 0%Z
           [] scenario_lines 2 [fragment "1.1 Background" 12 2] 0
           introduction_open (fragment "1.1 Background" 12 2)
           (groups_of default_config (fragment "1.1 Background" 12 2))
           "1.1" "Background" true).
  - reflexivity.
  - discriminate.
  - vm_compute. reflexivity.
  - vm_compute. reflexivity.
  - vm_compute. reflexivity.
  - reflexivity.
  - left. reflexivity.
  - vm_compute. reflexivity.
Defined.

Lemma title_stitched_witness :
  ∃ s, current_section
         (after_step
            (process_span rect_overlaps default_config [] 0 []
               split_heading_lines 0 split_heading_spans 0
               methods_open) methods_open) = Some s
       ∧ title s = "Results and discussion"
       ∧ (title s = EmptyString ∨ single_spaced true (title s) = true).
Proof.
  apply (title_stitched rect_overlaps default_config [] 0%Z [] 
           split_heading_lines 0 split_heading_spans 0
           methods_open _ (fragment "3" 14 0)
           (groups_of default_config (fragment "3" 14 0)) "3" "").
  - reflexivity.
  - discriminate.
  - vm_compute. reflexivity.
  - vm_compute. reflexivity.
  - vm_compute. reflexivity.
  - reflexivity.
  - left. reflexivity.
  - vm_compute. reflexivity.
  - repeat split; try (vm_compute; reflexivity).
    eexists. repeat split; vm_compute; reflexivity.
Defined.

(** ** The start gate *)

Lemma append_text_none st t :
  current_section st = None → append_text st t = st.
Proof. destruct st; simpl. by intros ->. Qed.

Lemma suppressed_step intersects cfg titles page_num links lines line_idx
    spans span_idx st st' sp :
  started st = false →
  spans !! span_idx = Some sp →
  process_span intersects cfg titles page_num links lines line_idx spans
    span_idx st = Ok st' →
  (started st' = true ↔ opens_gate intersects cfg links sp = true)
  ∧ (started st' = false → st' = st).
Proof.
  intros Hst Hsp. unfold process_span, opens_gate. rewrite Hsp.
  destruct (bool_decide (text sp = EmptyString)); simpl.
  { intros [= <-]. rewrite Hst. by split. }
  destruct (heading_match cfg sp) as [m|]; rewrite ?Hst.
  2:{ intros [= <-]. rewrite Hst. by split. }
  destruct (group (heading_regex cfg) m 1) as [num_str|e]; simpl; [|done].
  destruct (is_link intersects links sp); simpl.
  { intros [= <-]. rewrite Hst. by split. }
  destruct (group_or_empty (heading_regex cfg) m) as [t0|e]; simpl; [|done].
  destruct (stitch_title _ _ _ _ _ _) as [t2 txt2].
  destruct (bool_decide (num_str = start_header_number cfg)).
  - intros H%accept_or_fold_started. simpl in H. rewrite H. by split.
  - intros [= <-]. rewrite Hst. by split.
Qed.

Lemma span_loop_closed intersects cfg titles page_num links lines line_idx
    spans :
  (∀ sp, sp ∈ spans → opens_gate intersects cfg links sp = false) →
  ∀ n span_idx st st',
    started st = false →
    span_loop intersects cfg titles page_num links lines line_idx spans n
      span_idx st = Ok st' →
    st' = st.
Proof.
  intros Hfree. induction n as [|n IH]; simpl; intros span_idx st st' Hst H.
  - by inversion H.
  - destruct (process_span _ _ _ _ _ _ _ _ _ _) as [st1|e] eqn:Hstep;
      simpl in H; [|done].
    assert (is_Some (spans !! span_idx)) as [sp Hsp].
    { unfold process_span in Hstep. by destruct (spans !! span_idx). }
    destruct (suppressed_step _ _ _ _ _ _ _ _ _ _ _ _ Hst Hsp Hstep)
      as [Hiff Hsame].
    assert (st1 = st) as ->.
    { apply Hsame. apply not_true_is_false. intros E.
      apply Hiff in E. rewrite Hfree in E; [done|].
      by eapply list_elem_of_lookup_2. }
    by apply IH in H.
Qed.

Lemma line_loop_closed intersects cfg titles page_num links lines :
  (∀ l sp, l ∈ lines → sp ∈ spans l →
           opens_gate intersects cfg links sp = false) →
  ∀ n line_idx st st',
    suppressed st →
    line_loop intersects cfg titles page_num links lines n line_idx st
    = Ok st' →
    st' = st.
Proof.
  intros Hfree. induction n as [|n IH]; simpl; intros line_idx st st' Hst H.
  - by inversion H.
  - unfold process_line in H.
    destruct (lines !! line_idx) as [l|] eqn:Hl; simpl in H; [|done].
    destruct (span_loop _ _ _ _ _ _ _ _ _ _ _) as [st1|e] eqn:Hspans;
      simpl in H; [|done].
    apply span_loop_closed in Hspans; [|by eauto using list_elem_of_lookup_2
                                       |by apply Hst].
    subst st1. rewrite append_text_none in H by apply Hst.
    by apply IH in H.
Qed.

Lemma block_loop_closed intersects cfg titles page_num pg :
  gate_free_page intersects cfg pg →
  ∀ bs st st',
    (∀ b, b ∈ bs → b ∈ blocks pg) →
    suppressed st →
    block_loop intersects cfg titles page_num pg bs st = Ok st' →
    st' = st.
Proof.
  intros Hfree. induction bs as [|b bs IH]; simpl; intros st st' Hin Hst H.
  - by inversion H.
  - destruct (process_block _ _ _ _ _ _ _) as [st1|e] eqn:Hb; simpl in H;
      [|done].
    assert (st1 = st) as ->.
    { unfold process_block in Hb.
      destruct (block_skipped _ _ _); [by inversion Hb|].
      destruct (lines b) as [ls|] eqn:Hls; simpl in Hb.
      - apply line_loop_closed in Hb; [done| |done].
        intros l sp Hl Hsp. eapply Hfree; eauto. apply Hin. by left.
      - by inversion Hb. }
    apply IH in H; [done| |done]. intros b' Hb'. apply Hin. by right.
Qed.

Lemma page_loop_closed intersects cfg titles doc :
  (∀ i pg, get_page doc i = Ok pg → gate_free_page intersects cfg pg) →
  ∀ n page_num st st',
    suppressed st →
    page_loop intersects cfg titles doc n page_num st = Ok st' →
    st' = st.
Proof.
  intros Hfree. induction n as [|n IH]; simpl; intros page_num st st' Hst H.
  - by inversion H.
  - unfold process_page in H.
    destruct (get_page doc page_num) as [pg|e] eqn:Hpg; simpl in H; [|done].
    destruct (block_loop _ _ _ _ _ _ _) as [st1|e] eqn:Hb; simpl in H;
      [|done].
    apply block_loop_closed in Hb; [|by eauto|done|done].
    subst st1. by apply IH in H.
Qed.

(** C9. With a start number configured: a round on a span in the
    suppressed state opens the gate exactly when the span is a heading
    match (no link) whose number is the start number, and leaves the
    state untouched otherwise; a document with no such span gives no
    section at all; and in the scenario with start number 1.1 the output
    begins at 1.1 Background, without 1 Introduction and its body. *)
Theorem start_gate :
  (∀ intersects cfg titles page_num links lines line_idx spans span_idx
     st st' sp n,
     start_header_number cfg = Some n →
     suppressed st →
     spans !! span_idx = Some sp →
     process_span intersects cfg titles page_num links lines line_idx spans
       span_idx st = Ok st' →
     (started st' = true ↔ opens_gate intersects cfg links sp = true)
     ∧ (opens_gate intersects cfg links sp = false → st' = st))
  ∧ (∀ intersects doc cfg n out,
       start_header_number cfg = Some n →
       (∀ i pg, get_page doc i = Ok pg → gate_free_page intersects cfg pg) →
       extract_hierarchy_checked intersects doc cfg = Ok out →
       out = [])
  ∧ (∀ intersects,
       extract_hierarchy_checked intersects scenario_doc
         (with_start "1.1" default_config)
       = Ok scenario_sections_from_1_1).
Proof.
  split; [|split].
  - intros intersects cfg titles page_num links lines line_idx spans span_idx
      st st' sp n _ Hst Hsp Hstep.
    destruct (suppressed_step _ _ _ _ _ _ _ _ _ _ _ _ (proj1 Hst) Hsp Hstep)
      as [Hiff Hsame].
    split; [done|]. intros Hgate. apply Hsame.
    apply not_true_is_false. intros E. apply Hiff in E. congruence.
  - intros intersects doc cfg n out Hn Hfree H.
    unfold extract_hierarchy_checked in H.
    destruct (page_loop _ _ _ _ _ _ _) as [st|e] eqn:Hloop; simpl in H;
      [|done].
    apply page_loop_closed in Hloop; [|done|].
    + subst st. by inversion H.
    + unfold suppressed, initial_state. by rewrite Hn.
  - intros intersects. vm_compute. reflexivity.
Qed.

Lemma start_gate_witness :
  extract_hierarchy_checked rect_overlaps scenario_doc
    (with_start "7" default_config) = Ok [].
Proof.
  destruct start_gate as (_ & Hrun & _).
  assert (∃ out, extract_hierarchy_checked rect_overlaps scenario_doc
                   (with_start "7" default_config) = Ok out) as [out Hout].
  { eexists. vm_compute. reflexivity. }
  rewrite Hout. f_equal.
  apply (Hrun rect_overlaps scenario_doc (with_start "7" default_config)
           "7" out); [reflexivity| |exact Hout].
  intros i pg Hpg b ls l sp Hb Hls Hl Hsp.
  assert (pg = scenario_page1 [] ∨ pg = scenario_page2) as Hcases.
  { unfold scenario_doc, doc_of_pages in Hpg. simpl in Hpg.
    destruct (i <? 0)%Z; [done|].
    destruct (Z.to_nat i) as [|[|k]]; simpl in Hpg;
      inversion Hpg; auto. }
  destruct Hcases as [-> | ->]; simpl in Hb;
    apply list_elem_of_singleton in Hb; subst b; simpl in Hls;
    inversion Hls; subst ls;
    repeat (apply elem_of_cons in Hl as [-> | Hl];
            [simpl in Hsp; apply list_elem_of_singleton in Hsp; subst sp;
             vm_compute; reflexivity|]);
    by apply elem_of_nil in Hl.
Defined.

(** ** The heap of the hierarchy builder *)

#[local] Arguments get_item : simpl never.
#[local] Arguments dict_copy : simpl never.
#[local] Arguments set_children_empty : simpl never.
#[local] Arguments append_child : simpl never.
#[local] Arguments pop_stack : simpl nomatch.

Lemma pop_stack_suffix h node stack stack' :
  pop_stack h node stack = Ok stack' → stack' `suffix_of` stack.
Proof.
  revert stack'. induction stack as [|top below IH]; simpl; intros stack' H.
  - by inversion H.
  - destruct (get_item h (VRef top) "level") as [tl|e]; simpl in H; [|done].
    destruct (get_item h (VRef node) "level") as [nl|e]; simpl in H; [|done].
    destruct (py_ge tl nl) as [[|]|e]; simpl in H; [| |done].
    + apply suffix_cons_r. by apply IH.
    + by inversion H.
Qed.

Lemma nest_step_keeps_input h0 section st st' :
  keeps_input h0 st → nest_step section st = Ok st' → keeps_input h0 st'.
Proof.
  destruct st as [[h root] stack]. intros (Hpre & Hlen & Hroot & Hstack) H.
  unfold nest_step, dict_copy in H.
  destruct section as [| |a]; simpl in H; try done.
  destruct (h !! a) as [[d|]|] eqn:Ha; simpl in H; try done.
  unfold set_children_empty in H.
  rewrite lookup_app_r, Nat.sub_diag in H by done. simpl in H.
  rewrite length_app in H. simpl in H.
  set (node := length h) in *.
  set (h2 := <[node := ODict (<["children" := VRef (node + 1)]> d)]>
               (h ++ [ODict d]) ++ [OList []]) in *.
  assert (∀ x, x < node → h2 !! x = h !! x) as Hold.
  { intros x Hx. unfold h2.
    rewrite lookup_app_l by (rewrite length_insert, length_app; simpl; lia).
    rewrite list_lookup_insert_ne by lia. by rewrite lookup_app_l. }
  assert (h2 !! node = Some (ODict (<["children" := VRef (node + 1)]> d)))
    as Hnode.
  { unfold h2.
    rewrite lookup_app_l by (rewrite length_insert, length_app; simpl; lia).
    apply list_lookup_insert_eq. rewrite length_app. simpl. lia. }
  assert (length h2 = node + 2) as Hlen2.
  { unfold h2. rewrite length_app, length_insert, length_app. simpl. lia. }
  destruct (pop_stack h2 node stack) as [stack'|e] eqn:Hpop; simpl in H;
    [|done].
  apply pop_stack_suffix in Hpop.
  assert (Forall (own_node (length h0) h) stack') as Hstack'.
  { destruct Hpop as [dropped ->]. by apply Forall_app in Hstack as [_ ?]. }
  assert (own_node (length h0) h2 node) as Hown.
  { split; [done|]. eexists _, _. split; [done|].
    split; [apply lookup_insert_eq|lia]. }
  destruct stack' as [|parent below].
  - inversion H; subst st'. repeat split.
    + intros x Hx. rewrite Hold by lia. by apply Hpre.
    + lia.
    + apply Forall_app. split; [done|]. by constructor.
    + by constructor.
  - unfold append_child in H.
    apply Forall_cons in Hstack' as [Hparent Hbelow].
    destruct Hparent as (Hpn & dp & lp & Hp & Hkids & Hlp).
    assert (parent < node) as Hplt by (by eapply lookup_lt_Some).
    unfold get_item in H. rewrite Hold, Hp, Hkids in H by done. simpl in H.
    destruct (h2 !! lp) as [[|xs]|] eqn:Hxs; simpl in H; try done.
    inversion H; subst st'. clear H.
    assert (∀ x dx, h2 !! x = Some (ODict dx) →
                    <[lp := OList (xs ++ [VRef node])]> h2 !! x
                    = Some (ODict dx)) as Hdict.
    { intros x dx Hx. rewrite list_lookup_insert_ne; [done|].
      intros <-. congruence. }
    repeat split.
    + intros x Hx. rewrite list_lookup_insert_ne by lia.
      rewrite Hold by lia. by apply Hpre.
    + rewrite length_insert. lia.
    + done.
    + constructor; [|constructor].
      * destruct Hown as (? & dn & ln & Hn & ? & ?).
        split; [done|]. exists dn, ln. by rewrite (Hdict _ _ Hn).
      * split; [done|]. exists dp, lp. rewrite (Hdict parent dp); [done|].
        by rewrite Hold.
      * eapply Forall_impl; [exact Hbelow|].
        intros s (Hs & ds & ls & Hds & ? & ?). split; [done|].
        exists ds, ls. rewrite (Hdict s ds); [done|].
        rewrite Hold; [done|]. by eapply lookup_lt_Some.
Qed.

Lemma nest_loop_keeps_input h0 sections :
  ∀ st st', keeps_input h0 st → nest_loop sections st = Ok st' →
            keeps_input h0 st'.
Proof.
  induction sections as [|section rest IH]; simpl; intros st st' Hst H.
  - by inversion H; subst.
  - destruct (nest_step section st) as [st1|e] eqn:Hstep; simpl in H; [|done].
    eapply IH; [|done]. by eapply nest_step_keeps_input.
Qed.

(** C10. When [nest_sections_by_hierarchy] returns, every object of the
    heap it was given, the input dicts among them, is as it was, and every
    node of the result is an object made by the call. *)
Theorem nest_leaves_input_unchanged h sections h' root :
  nest_sections_by_hierarchy h sections = Ok (h', root) →
  (∀ a o, h !! a = Some o → h' !! a = Some o)
  ∧ Forall (λ r, length h ≤ r) root.
Proof.
  unfold nest_sections_by_hierarchy. intros H.
  destruct sections as [|section rest].
  { inversion H; subst. by split. }
  destruct (nest_loop (section :: rest) (h, [], [])) as [[[h1 root1] stack1]|e]
    eqn:Hloop; simpl in H; [|done].
  inversion H; subst h1 root1. clear H.
  apply (nest_loop_keeps_input h) in Hloop as (Hpre & _ & Hroot & _).
  - split; [|done]. intros a o Ha. rewrite Hpre; [done|].
    by eapply lookup_lt_Some.
  - repeat split; auto.
Qed.

(** ** Trees in the heap *)

Lemma tree_induction (P : tree → Prop) :
  (∀ d cs, Forall P cs → P (Node d cs)) → ∀ t, P t.
Proof.
  intros Hnode. fix IH 1. intros [d cs]. apply Hnode.
  induction cs as [|c cs IHcs]; constructor; [apply IH|exact IHcs].
Qed.

Lemma Forall2_Forall_impl {A B} (P Q : A → B → Prop) xs ys :
  Forall (λ y, ∀ x, P x y → Q x y) ys → Forall2 P xs ys → Forall2 Q xs ys.
Proof.
  intros Hys H. induction H as [|x y xs ys Hxy _ IH]; [constructor|].
  apply Forall_cons in Hys as [Hy Hys]. constructor; auto.
Qed.

Lemma tree_in_transfer h h' lo hi lo' hi' t :
  ∀ a, lo' ≤ lo → hi ≤ hi' →
       (∀ x, lo ≤ x < hi → h' !! x = h !! x) →
       tree_in h lo hi a t → tree_in h' lo' hi' a t.
Proof.
  induction t as [d cs IH] using tree_induction.
  intros a Hlo Hhi Hsame H. inversion H; subst.
  apply (tree_in_node h' lo' hi' a nd l kids cs); [lia|lia| | | |].
  - by rewrite Hsame.
  - done.
  - by rewrite Hsame.
  - eapply Forall2_Forall_impl; [|done].
    eapply Forall_impl; [exact IH|]. intros t IHt x Hx. by apply IHt.
Qed.

Lemma forest_in_transfer h h' lo hi lo' hi' kids cs :
  lo' ≤ lo → hi ≤ hi' →
  (∀ x, lo ≤ x < hi → h' !! x = h !! x) →
  Forall2 (tree_in h lo hi) kids cs → Forall2 (tree_in h' lo' hi') kids cs.
Proof.
  intros Hlo Hhi Hsame H. eapply Forall2_impl; [exact H|]. intros a t.
  by apply tree_in_transfer.
Qed.

Lemma chain_transfer h h' frames :
  ∀ hi above root closed,
    (∀ x, x < hi → h' !! x = h !! x) →
    chain h hi above frames root closed →
    chain h' hi above frames root closed.
Proof.
  induction frames as [|f below IH]; simpl; intros hi above root closed Hsame.
  - intros (rkids & -> & Hroots). exists rkids. split; [done|].
    eapply forest_in_transfer; [..|done]; [lia|lia|]. intros x ?.
    apply Hsame. lia.
  - intros [(nd & kids & Hlt & Ha & Hc & Hd & Hl & Hkids) Hbelow]. split.
    + exists nd, kids. rewrite !Hsame by lia. repeat split; try done.
      eapply forest_in_transfer; [..|done]; [lia|lia|]. intros x ?.
      apply Hsame. lia.
    + apply IH; [|done]. intros x ?. apply Hsame. lia.
Qed.

(** ** Closing the top frame *)

Lemma frame_tree_levels f :
  frame_levels f → levels_increase (frame_tree f).
Proof. intros (Hl & Hk & Hi). by econstructor. Qed.

Lemma close_top_chain h hi root f below closed :
  chain h hi None (f :: below) root closed →
  chain h hi None (close_top (f :: below) closed).1 root
    (close_top (f :: below) closed).2.
Proof.
  simpl. intros [(nd & kids & Hlt & Ha & Hc & Hd & Hl & Hkids) Hbelow].
  rewrite app_nil_r in Hl.
  assert (∀ lo, lo ≤ f_addr f → tree_in h lo hi (f_addr f) (frame_tree f))
    as Htree.
  { intros lo Hlo. unfold frame_tree. rewrite <- Hd.
    apply (tree_in_node h lo hi (f_addr f) nd (f_addr f + 1) kids (f_kids f));
      [lia|lia|done|done|done|].
    eapply forest_in_transfer; [..|done]; [lia|lia|done]. }
  destruct below as [|f' below]; simpl in *.
  - destruct Hbelow as (rkids & -> & Hroots).
    exists (rkids ++ [f_addr f]). rewrite app_nil_r. split; [done|].
    apply Forall2_app.
    + eapply forest_in_transfer; [..|done]; [lia|lia|done].
    + constructor; [|constructor]. apply Htree. lia.
  - destruct Hbelow as [(nd' & kids' & Hlt' & Ha' & Hc' & Hd' & Hl' & Hkids')
                          Hbelow].
    split; [|done].
    exists nd', (kids' ++ [f_addr f]). rewrite app_nil_r.
    repeat split; try done; [lia|].
    apply Forall2_app.
    + eapply forest_in_transfer; [..|done]; [lia|lia|done].
    + constructor; [|constructor]. apply Htree. lia.
Qed.

Lemma close_top_ok h hi root f below closed :
  chain_ok h hi root (f :: below) closed →
  chain_ok h hi root (close_top (f :: below) closed).1
    (close_top (f :: below) closed).2.
Proof.
  intros (Hchain & Hlev & Hrise & Hclosed).
  split; [by apply close_top_chain|].
  apply Forall_cons in Hlev as [Hf Hlev].
  pose proof (frame_tree_levels f Hf) as Htree.
  destruct below as [|f' below]; simpl.
  - repeat split; [constructor|..].
    apply Forall_app. split; [done|]. by constructor.
  - apply Forall_cons in Hlev as [(Hl' & Hk' & Hi') Hlev].
    destruct Hrise as [Hlt Hrise].
    split; [|split; [|done]].
    + constructor; [|done]. repeat split; simpl; [done|..].
      * apply Forall_app. split; [done|]. constructor; [|constructor].
        exists (f_level f). split; [apply Hf|done].
      * apply Forall_app. split; [done|]. by constructor.
    + simpl in Hrise. by destruct below.
Qed.

Lemma close_top_preorder f below closed :
  chain_preorder (close_top (f :: below) closed).1
    (close_top (f :: below) closed).2
  = chain_preorder (f :: below) closed.
Proof.
  unfold chain_preorder. destruct below as [|f' below]; simpl.
  - rewrite flat_map_app. simpl. by rewrite !app_nil_r.
  - rewrite !reverse_cons, !flat_map_app. simpl.
    rewrite flat_map_app. simpl. rewrite !app_nil_r.
    by rewrite <- !app_assoc.
Qed.

Lemma close_top_addrs f below closed :
  f_addr <$> (close_top (f :: below) closed).1 = f_addr <$> below.
Proof. by destruct below. Qed.

Lemma close_top_length f below closed :
  length (close_top (f :: below) closed).1 = length below.
Proof. by destruct below. Qed.

(** All frames closed: the forest under [root]. *)
Lemma close_all h hi root :
  ∀ n frames closed,
    length frames = n →
    chain_ok h hi root frames closed →
    ∃ forest, Forall2 (tree_in h 0 hi) root forest
              ∧ Forall levels_increase forest
              ∧ flat_map preorder forest = chain_preorder frames closed.
Proof.
  induction n as [|n IH]; intros frames closed Hlen Hok.
  - destruct frames; [|done].
    destruct Hok as ((rkids & -> & Hroots) & _ & _ & Hclosed).
    exists closed. rewrite app_nil_r. repeat split; [done..|].
    unfold chain_preorder. simpl. by rewrite app_nil_r.
  - destruct frames as [|f below]; [done|].
    destruct (IH (close_top (f :: below) closed).1
                 (close_top (f :: below) closed).2)
      as (forest & Hf & Hl & Hp).
    + rewrite close_top_length. simpl in Hlen. lia.
    + by apply close_top_ok.
    + exists forest. by rewrite Hp, close_top_preorder.
Qed.

(** ** One round of the hierarchy builder *)

Lemma dict_level_lookup d lv :
  dict_level d = Some lv ↔ d !! "level" = Some (VInt lv).
Proof.
  unfold dict_level. destruct (d !! "level") as [[z|s|a]|]; split;
    intros H; by inversion H.
Qed.

Lemma pop_stack_cons h node top below :
  pop_stack h node (top :: below)
  = rbind (get_item h (VRef top) "level") (λ top_level,
      rbind (get_item h (VRef node) "level") (λ node_level,
        rbind (py_ge top_level node_level) (λ ge,
          if ge then pop_stack h node below else Ok (top :: below)))).
Proof. reflexivity. Qed.

Lemma pop_stack_sim h hi root node lv :
  get_item h (VRef node) "level" = Ok (VInt lv) →
  ∀ n frames closed,
    length frames = n →
    chain_ok h hi root frames closed →
    ∃ frames' closed',
      pop_stack h node (f_addr <$> frames) = Ok (f_addr <$> frames')
      ∧ chain_ok h hi root frames' closed'
      ∧ chain_preorder frames' closed' = chain_preorder frames closed
      ∧ match frames' with
        | f :: _ => (f_level f < lv)%Z
        | [] => True
        end.
Proof.
  intros Hnode. induction n as [|n IH]; intros frames closed Hlen Hok.
  - destruct frames; [|done]. by exists [], closed.
  - destruct frames as [|f below]; [done|].
    rewrite fmap_cons, pop_stack_cons.
    assert (get_item h (VRef (f_addr f)) "level" = Ok (VInt (f_level f)))
      as ->.
    { destruct Hok as ([(nd & kids & _ & Ha & _ & Hd & _) _] & Hlev & _).
      apply Forall_cons in Hlev as [(Hl & _) _].
      apply dict_level_lookup in Hl. rewrite <- Hd in Hl.
      rewrite lookup_delete_ne in Hl by done.
      unfold get_item. by rewrite Ha, Hl. }
    rewrite Hnode. simpl.
    destruct (lv <=? f_level f)%Z eqn:Hge.
    + destruct (IH (close_top (f :: below) closed).1
                   (close_top (f :: below) closed).2)
        as (frames' & closed' & Hpop & Hok' & Hpre & Htop).
      * rewrite close_top_length. simpl in Hlen. lia.
      * by apply close_top_ok.
      * rewrite close_top_addrs in Hpop. rewrite close_top_preorder in Hpre.
        by exists frames', closed'.
    + exists (f :: below), closed. repeat split; try done; try apply Hok.
      apply Z.leb_gt in Hge. simpl. lia.
Qed.

Lemma chain_preorder_push f frames closed :
  f_kids f = [] →
  chain_preorder (f :: frames) closed
  = chain_preorder frames closed ++ [f_dict f].
Proof.
  intros Hk. unfold chain_preorder.
  rewrite reverse_cons, flat_map_app. simpl. rewrite Hk. simpl.
  by rewrite app_assoc.
Qed.

Lemma nest_step_sim h root frames closed a d lv :
  chain_ok h (length h) root frames closed →
  h !! a = Some (ODict d) →
  d !! "level" = Some (VInt lv) →
  ∃ h' root' frames' closed',
    nest_step (VRef a) (h, root, f_addr <$> frames)
    = Ok (h', root', f_addr <$> frames')
    ∧ chain_ok h' (length h') root' frames' closed'
    ∧ chain_preorder frames' closed'
      = chain_preorder frames closed ++ [delete "children" d].
Proof.
  intros Hok Ha Hd. unfold nest_step, dict_copy. rewrite Ha. simpl.
  unfold set_children_empty.
  rewrite lookup_app_r, Nat.sub_diag by done. simpl.
  rewrite length_app. simpl.
  set (node := length h).
  set (nd := <["children" := VRef (node + 1)]> d).
  set (h2 := <[node := ODict nd]> (h ++ [ODict d]) ++ [OList []]).
  assert (∀ x, x < node → h2 !! x = h !! x) as Hold.
  { intros x Hx. unfold h2.
    rewrite lookup_app_l by (rewrite length_insert, length_app; simpl; lia).
    rewrite list_lookup_insert_ne by lia. by rewrite lookup_app_l. }
  assert (h2 !! node = Some (ODict nd)) as Hnode.
  { unfold h2.
    rewrite lookup_app_l by (rewrite length_insert, length_app; simpl; lia).
    apply list_lookup_insert_eq. rewrite length_app. simpl. lia. }
  assert (h2 !! (node + 1) = Some (OList [])) as Hlist.
  { unfold h2. rewrite lookup_app_r;
      rewrite length_insert, length_app; simpl; [|lia].
    by replace (node + 1 - (length h + 1)) with 0 by (unfold node; lia). }
  assert (length h2 = node + 2) as Hlen2.
  { unfold h2. rewrite length_app, length_insert, length_app. simpl. lia. }
  assert (chain_ok h2 node root frames closed) as Hok2.
  { destruct Hok as (Hc & Hrest). split; [|done].
    eapply chain_transfer; [|exact Hc]. done. }
  assert (get_item h2 (VRef node) "level" = Ok (VInt lv)) as Hlv.
  { unfold get_item. rewrite Hnode. unfold nd.
    by rewrite lookup_insert_ne, Hd by done. }
  destruct (pop_stack_sim h2 node root node lv Hlv (length frames) frames
              closed eq_refl Hok2)
    as (frames1 & closed1 & Hpop & Hok1 & Hpre1 & Htop).
  rewrite Hpop. simpl.
  set (F := {| f_addr := node; f_dict := delete "children" d; f_level := lv;
               f_kids := [] |}).
  assert (frame_levels F) as HF.
  { repeat split; simpl; [|constructor..].
    apply dict_level_lookup. by rewrite lookup_delete_ne. }
  assert (delete "children" nd = delete "children" d) as Hdel.
  { unfold nd. apply delete_insert_eq. }
  destruct Hok1 as (Hc1 & Hlev1 & Hrise1 & Hclosed1).
  destruct frames1 as [|p rest]; simpl.
  - exists h2, (root ++ [node]), [F], closed1. split; [done|]. split.
    + rewrite Hlen2. split; [split|split; [by constructor|done]].
      * exists nd, []. simpl. repeat split; try done; [lia|].
        apply lookup_insert_eq.
      * simpl in Hc1. destruct Hc1 as (rkids & -> & Hroots).
        exists rkids. by rewrite app_nil_r.
    + by rewrite chain_preorder_push, Hpre1.
  - simpl in Hc1.
    destruct Hc1 as [(ndp & kidsp & Hplt & Hp & Hpc & Hpd & Hpl & Hpk) Hbelow].
    rewrite app_nil_r in Hpl.
    unfold append_child, get_item. rewrite Hp, Hpc. simpl. rewrite Hpl.
    set (h3 := <[f_addr p + 1 := OList ((VRef <$> kidsp) ++ [VRef node])]> h2).
    assert (∀ x, x ≠ f_addr p + 1 → h3 !! x = h2 !! x) as Hother.
    { intros x Hx. unfold h3. by rewrite list_lookup_insert_ne. }
    exists h3, root, (F :: p :: rest), closed1. split; [done|]. split.
    + assert (length h3 = node + 2) as ->.
      { unfold h3. by rewrite length_insert. }
      split; [split|split; [by constructor|done]].
      * exists nd, []. simpl. rewrite !Hother by lia.
        repeat split; try done; [lia|]. apply lookup_insert_eq.
      * simpl. split.
        -- exists ndp, kidsp. rewrite Hother by lia.
           repeat split; try done.
           ++ unfold h3. rewrite list_lookup_insert_eq.
              ** by rewrite fmap_app.
              ** by eapply lookup_lt_Some.
           ++ eapply forest_in_transfer; [..|exact Hpk]; [lia|lia|].
              intros x ?. apply Hother. lia.
        -- eapply chain_transfer; [|exact Hbelow].
           intros x ?. apply Hother. lia.
    + by rewrite chain_preorder_push, Hpre1.
Qed.

(** ** The whole loop *)

Lemma nest_loop_cons section rest st :
  nest_loop (section :: rest) st
  = rbind (nest_step section st) (nest_loop rest).
Proof. reflexivity. Qed.

Lemma nest_loop_sim h0 addrs ds :
  Forall2 (λ a d, h0 !! a = Some (ODict d)
                  ∧ ∃ lv, d !! "level" = Some (VInt lv)) addrs ds →
  ∀ h root frames closed,
    keeps_input h0 (h, root, f_addr <$> frames) →
    chain_ok h (length h) root frames closed →
    ∃ h' root' frames' closed',
      nest_loop (VRef <$> addrs) (h, root, f_addr <$> frames)
      = Ok (h', root', f_addr <$> frames')
      ∧ chain_ok h' (length h') root' frames' closed'
      ∧ chain_preorder frames' closed'
        = chain_preorder frames closed ++ (delete "children" <$> ds).
Proof.
  induction 1 as [|a d addrs ds [Ha [lv Hlv]] _ IH];
    intros h root frames closed Hkeep Hok.
  - exists h, root, frames, closed. simpl. by rewrite app_nil_r.
  - assert (h !! a = Some (ODict d)) as Ha'.
    { destruct Hkeep as (Hpre & _). rewrite Hpre; [done|].
      by eapply lookup_lt_Some. }
    destruct (nest_step_sim h root frames closed a d lv Hok Ha' Hlv)
      as (h1 & root1 & frames1 & closed1 & Hstep & Hok1 & Hpre1).
    destruct (IH h1 root1 frames1 closed1)
      as (h' & root' & frames' & closed' & Hloop & Hok' & Hpre'); [|done|].
    { eapply nest_step_keeps_input; [exact Hkeep|exact Hstep]. }
    exists h', root', frames', closed'.
    rewrite fmap_cons, nest_loop_cons, Hstep. simpl.
    split; [done|]. split; [done|].
    rewrite Hpre', Hpre1. by rewrite <- app_assoc.
Qed.

Lemma section_dict_level s :
  section_dict s !! "level" = Some (VInt (level s)).
Proof.
  unfold section_dict. rewrite !lookup_insert_ne by done.
  apply lookup_insert_eq.
Qed.

Lemma section_dict_no_children s :
  delete "children" (section_dict s) = section_dict s.
Proof.
  apply delete_id. unfold section_dict.
  rewrite !lookup_insert_ne by done. apply lookup_empty.
Qed.

(** C6. On a flat list of sections the hierarchy builder returns, and the
    heap then holds under the returned roots a forest in which every
    child has a level greater than the level of its parent and whose
    pre-order traversal is the flat list. *)
Theorem nest_forest h addrs ss :
  Forall2 (λ a s, h !! a = Some (ODict (section_dict s))) addrs ss →
  ∃ h' root forest,
    nest_sections_by_hierarchy h (VRef <$> addrs) = Ok (h', root)
    ∧ Forall2 (tree_at h') root forest
    ∧ Forall levels_increase forest
    ∧ flat_map preorder forest = section_dict <$> ss.
Proof.
  intros Hin.
  destruct addrs as [|a addrs].
  { apply Forall2_nil_inv_l in Hin as ->. exists h, [], [].
    repeat split; constructor. }
  destruct (nest_loop_sim h (a :: addrs) (section_dict <$> ss))
    with (h := h) (root := @nil nat) (frames := @nil frame)
         (closed := @nil tree)
    as (h' & root & frames & closed & Hloop & Hok & Hpre).
  - apply Forall2_fmap_r. eapply Forall2_impl; [exact Hin|].
    intros x s Hx. split; [done|]. eexists. apply section_dict_level.
  - repeat split; auto.
  - repeat split; try constructor. exists []. by split; [|constructor].
  - destruct (close_all h' (length h') root (length frames) frames closed
                eq_refl Hok) as (forest & Hf & Hl & Hp).
    exists h', root, forest.
    unfold nest_sections_by_hierarchy. rewrite fmap_cons in *.
    change (f_addr <$> []) with (@nil nat) in Hloop.
    rewrite Hloop. simpl.
    repeat split; try done.
    rewrite Hp, Hpre. unfold chain_preorder. simpl.
    rewrite <- list_fmap_compose. apply list_fmap_ext.
    intros i s _. apply section_dict_no_children.
Qed.

Lemma nest_forest_witness :
  ∃ h' root forest,
    nest_sections_by_hierarchy demo_heap (VRef <$> [0; 1; 2; 3; 4])
    = Ok (h', root)
    ∧ Forall2 (tree_at h') root forest
    ∧ Forall levels_increase forest
    ∧ flat_map preorder forest = section_dict <$> demo_sections.
Proof.
  apply (nest_forest demo_heap [0; 1; 2; 3; 4] demo_sections).
  repeat constructor.
Defined.

Lemma nest_leaves_input_unchanged_witness :
  (∀ a o, demo_heap !! a = Some o → demo_result.1 !! a = Some o)
  ∧ Forall (λ r, length demo_heap ≤ r) demo_result.2.
Proof.
  apply (nest_leaves_input_unchanged demo_heap (VRef <$> [0; 1; 2; 3; 4])).
  vm_compute. reflexivity.
Defined.

(** The executable reading agrees with [tree_at]. *)
Lemma read_tree_sound fuel h :
  ∀ a t, read_tree fuel h a = Some t → tree_at h a t.
Proof.
  unfold tree_at. induction fuel as [|fuel IH]; intros a t H; [done|].
  simpl in H.
  destruct (h !! a) as [[nd|]|] eqn:Ha; try done.
  destruct (nd !! "children") as [[| |l]|] eqn:Hc; try done.
  destruct (h !! l) as [[|vs]|] eqn:Hl; try done.
  destruct (mapM _ vs) as [cs|] eqn:Hcs; simpl in H; [|done].
  inversion H; subst t. clear H.
  apply mapM_Some in Hcs.
  assert (∃ kids, vs = VRef <$> kids ∧ Forall2 (tree_in h 0 (length h)) kids cs)
    as (kids & -> & Hkids).
  { clear Hl. induction Hcs as [|v c vs cs Hv _ IHcs].
    - by exists [].
    - destruct IHcs as (kids & -> & Hkids).
      destruct v as [| |k]; try done.
      exists (k :: kids). split; [done|]. constructor; [by apply IH|done]. }
  apply (tree_in_node h 0 (length h) a nd l kids cs); try done.
  - split; [lia|]. by eapply lookup_lt_Some.
  - split; [lia|]. by eapply lookup_lt_Some.
Qed.

Example demo_forest :
  (λ a, (λ t, (dict_level <$> preorder t)) <$> read_tree 5 demo_result.1 a)
    <$> demo_result.2
  = [Some [Some 1; Some 2; Some 3; Some 2]; Some [Some 1]]%Z.
Proof. vm_compute. reflexivity. Qed.

(** * Further properties of the numbering *)

Lemma split_on_length sep s :
  length (split_on sep s) = S (count_char sep s).
Proof.
  induction s as [|c s IH]; simpl; [done|].
  destruct (Ascii.eqb c sep); simpl; [by rewrite IH|].
  destruct (split_on sep s); simpl in *; lia.
Qed.

(** X1. A parsed numbering has one component more than the string has
    dots; in particular it is never empty, so a level is at least 1. *)
Theorem parse_numbering_length a nums :
  parse_numbering a = Ok nums → length nums = S (count_char "." a).
Proof.
  intros H%rmap_length. by rewrite H, split_on_length.
Qed.

Lemma parse_numbering_length_witness :
  length [4; 1; 6]%Z = S (count_char "." "4.1.6").
Proof. apply (parse_numbering_length "4.1.6"). reflexivity. Defined.

(** X2. The only exception [is_next_heading] raises is the [ValueError]
    of [int]: every index it takes is in range. *)
Theorem is_next_heading_only_value_error prev curr e :
  is_next_heading prev curr = Raise e → e = ValueError.
Proof.
  intros H. destruct prev as [p|]; [|done].
  destruct (truthy_str (Some p)) eqn:Ht.
  2:{ unfold is_next_heading in H. by rewrite Ht in H. }
  destruct (parse_numbering p) as [pn|e1] eqn:Hp.
  - destruct (parse_numbering curr) as [cn|e2] eqn:Hc.
    + destruct (is_next_heading_parsed p curr pn cn Ht Hp Hc) as [b Hb].
      congruence.
    + unfold is_next_heading in H. rewrite Ht, Hp, Hc in H. simpl in H.
      inversion H; subst. by eapply parse_numbering_error.
  - unfold is_next_heading in H. rewrite Ht, Hp in H. simpl in H.
    inversion H; subst. by eapply parse_numbering_error.
Qed.

Lemma is_next_heading_only_value_error_witness :
  ValueError = ValueError.
Proof.
  apply (is_next_heading_only_value_error (Some "1.1") "abc" ValueError).
  reflexivity.
Defined.

Lemma but_last_snoc (l : list Z) x : but_last (l ++ [x]) = l.
Proof.
  unfold but_last. rewrite length_app. simpl.
  replace (length l + 1 - 1) with (length l) by lia.
  by rewrite take_app_length.
Qed.

Lemma last_elt_snoc (l : list Z) x : last_elt (l ++ [x]) = Ok x.
Proof.
  unfold last_elt, index. destruct (l ++ [x]) eqn:E; [by destruct l|].
  rewrite <- E, length_app. simpl.
  replace (length l + 1 - 1) with (length l) by lia.
  by rewrite list_lookup_middle.
Qed.

Lemma snoc_cases (l : list Z) : l ≠ [] → ∃ l' x, l = l' ++ [x].
Proof.
  intros H. destruct l as [|y l] using rev_ind; [done|]. by exists l, y.
Qed.

(** The test of [is_next_heading] on two parsed numberings. *)
Lemma is_next_heading_successor p curr pn cn :
  truthy_str (Some p) = true →
  parse_numbering p = Ok pn → parse_numbering curr = Ok cn →
  ∃ b, is_next_heading (Some p) curr = Ok b ∧ (b = true ↔ successor pn cn).
Proof.
  intros Ht Hp Hc. unfold is_next_heading. rewrite Ht, Hp, Hc. simpl.
  destruct (snoc_cases pn (parse_numbering_nonempty _ _ Hp)) as (pi & pl & ->).
  destruct (snoc_cases cn (parse_numbering_nonempty _ _ Hc)) as (ci & cl & ->).
  clear Hp Hc Ht.
  rewrite !but_last_snoc, !last_elt_snoc, !length_app. simpl.
  unfold list_Z_eqb.
  destruct (length pi + 1 =? length ci + 1) eqn:Hlen.
  { apply Nat.eqb_eq in Hlen.
    destruct (bool_decide (ci = pi)) eqn:Hi; simpl.
    - apply bool_decide_eq_true in Hi. subst ci.
      eexists. split; [done|]. rewrite Z.eqb_eq. split.
      + intros ->. right. by exists pi, pl, [].
      + intros [(x & Hx) | (pre & x & rest & Hpn & Hcn)].
        * apply (f_equal length) in Hx. rewrite !length_app in Hx.
          simpl in Hx. lia.
        * assert (rest = []) as ->.
          { apply (f_equal length) in Hpn, Hcn.
            rewrite !length_app in Hpn, Hcn. simpl in *.
            destruct rest; [done|]. simpl in *. lia. }
          apply app_inj_tail in Hpn as [-> ->].
          by apply app_inj_tail in Hcn as [_ ->].
    - apply bool_decide_eq_false in Hi.
      exists false. split; [done|]. split; [done|].
      intros [(x & Hx) | (pre & x & rest & Hpn & Hcn)]; exfalso.
      + apply (f_equal length) in Hx. rewrite !length_app in Hx.
        simpl in Hx. lia.
      + assert (rest = []) as ->.
        { apply (f_equal length) in Hpn, Hcn.
          rewrite !length_app in Hpn, Hcn. simpl in *.
          destruct rest; [done|]. simpl in *. lia. }
        apply app_inj_tail in Hpn as [-> ->].
        by apply app_inj_tail in Hcn as [-> _]. }
  apply Nat.eqb_neq in Hlen.
  set (rest_test :=
    if (length ci + 1 =? length pi + 1 + 1) && bool_decide (ci = pi ++ [pl])
    then Ok true
    else if length ci + 1 <? length pi + 1
         then if bool_decide (ci = take (length ci + 1 - 1) (pi ++ [pl]))
              then rbind (index (pi ++ [pl]) (length ci + 1 - 1))
                         (λ p0, Ok (cl =? p0 + 1)%Z)
              else Ok false
         else Ok false).
  assert (∃ b, rest_test = Ok b ∧ (b = true ↔ successor (pi ++ [pl]) (ci ++ [cl])))
    as Hrest.
  { unfold rest_test.
    replace (length ci + 1 - 1) with (length ci) by lia.
    destruct ((length ci + 1 =? length pi + 1 + 1)
              && bool_decide (ci = pi ++ [pl])) eqn:Hdeep.
    { apply andb_true_iff in Hdeep as [_ Hci%bool_decide_eq_true].
      subst ci. exists true. split; [done|]. split; [|done].
      intros _. left. by exists cl. }
    destruct (length ci + 1 <? length pi + 1) eqn:Hshort.
    - apply Nat.ltb_lt in Hshort.
      destruct (bool_decide (ci = take (length ci) (pi ++ [pl]))) eqn:Hpre.
      + apply bool_decide_eq_true in Hpre.
        destruct (lookup_lt_is_Some_2 (pi ++ [pl]) (length ci)) as [x Hx].
        { rewrite length_app. simpl. lia. }
        unfold index. rewrite Hx. simpl.
        eexists. split; [done|]. rewrite Z.eqb_eq.
        pose proof (take_drop_middle _ _ _ Hx) as Hsplit.
        rewrite <- Hpre in Hsplit. split.
        * intros ->. right.
          by exists ci, x, (drop (S (length ci)) (pi ++ [pl])).
        * intros [(y & Hy) | (pre & y & rest & Hpn & Hcn)].
          -- apply (f_equal length) in Hy. rewrite !length_app in Hy.
             simpl in Hy. lia.
          -- apply app_inj_tail in Hcn as [-> ->].
             rewrite Hpn in Hx. rewrite list_lookup_middle in Hx by done.
             by inversion Hx.
      + apply bool_decide_eq_false in Hpre.
        exists false. split; [done|]. split; [done|].
        intros [(y & Hy) | (pre & y & rest & Hpn & Hcn)]; exfalso.
        * apply (f_equal length) in Hy. rewrite !length_app in Hy.
          simpl in Hy. lia.
        * apply app_inj_tail in Hcn as [-> ->]. apply Hpre.
          by rewrite Hpn, take_app_length.
    - apply Nat.ltb_ge in Hshort.
      exists false. split; [done|]. split; [done|].
      intros [(y & Hy) | (pre & y & rest & Hpn & Hcn)]; exfalso.
      + apply app_inj_tail in Hy as [-> _].
        rewrite length_app in Hdeep. simpl in Hdeep.
        rewrite Nat.eqb_refl, bool_decide_eq_true_2 in Hdeep by done. done.
      + apply (f_equal length) in Hpn, Hcn.
        rewrite !length_app in Hpn, Hcn. simpl in *.
        destruct rest; simpl in *; lia. }
  fold rest_test.
  destruct (length ci + 1 =? 1) eqn:Hone; [|exact Hrest].
  apply Nat.eqb_eq in Hone. destruct ci; [|simpl in Hone; lia].
  simpl. unfold index.
  destruct pi as [|p0 pi]; [simpl in Hlen; lia|]. simpl.
  destruct (cl =? p0 + 1)%Z eqn:Hcl; [|exact Hrest].
  apply Z.eqb_eq in Hcl. subst cl.
  exists true. split; [done|]. split; [|done]. intros _.
  right. by exists [], p0, (pi ++ [pl]).
Qed.

(** X3. For two numberings that parse, [is_next_heading] accepts exactly
    the successors: one level down under the previous numbering with any
    last component, or one further at a level of the previous numbering,
    dropping the deeper components. *)
Theorem is_next_heading_iff_successor p curr pn cn :
  truthy_str (Some p) = true →
  parse_numbering p = Ok pn → parse_numbering curr = Ok cn →
  (is_next_heading (Some p) curr = Ok true ↔ successor pn cn)
  ∧ (is_next_heading (Some p) curr = Ok false ↔ ¬ successor pn cn).
Proof.
  intros Ht Hp Hc.
  destruct (is_next_heading_successor p curr pn cn Ht Hp Hc) as (b & -> & Hb).
  destruct b; split; split; try done.
  - intros _. by apply Hb.
  - intros Hn. exfalso. apply Hn. by apply Hb.
  - intros Hs. apply Hb in Hs. done.
  - intros _ Hs. apply Hb in Hs. done.
Qed.

Lemma is_next_heading_iff_successor_witness :
  (is_next_heading (Some "4.1.6") "4.2" = Ok true
   ↔ successor [4; 1; 6]%Z [4; 2]%Z)
  ∧ (is_next_heading (Some "4.1.6") "4.2" = Ok false
     ↔ ¬ successor [4; 1; 6]%Z [4; 2]%Z).
Proof.
  apply (is_next_heading_iff_successor "4.1.6" "4.2"); reflexivity.
Defined.

Lemma successor_length pn cn : successor pn cn → length cn ≤ length pn + 1.
Proof.
  intros [(x & ->) | (pre & x & rest & -> & ->)]; rewrite !length_app; simpl;
    lia.
Qed.

(** X4. A number that parses is never its own successor: a repeated
    heading number is rejected. *)
Theorem is_next_heading_irreflexive p pn :
  truthy_str (Some p) = true → parse_numbering p = Ok pn →
  is_next_heading (Some p) p = Ok false.
Proof.
  intros Ht Hp.
  destruct (is_next_heading_successor p p pn pn Ht Hp Hp) as (b & -> & Hb).
  destruct b; [|done]. exfalso.
  destruct (proj1 Hb eq_refl) as [(x & Hx) | (pre & x & rest & Hpn & Hcn)].
  - apply (f_equal length) in Hx. rewrite length_app in Hx. simpl in Hx. lia.
  - rewrite Hpn in Hcn. apply app_inv_head in Hcn.
    destruct rest; inversion Hcn. lia.
Qed.

Lemma is_next_heading_irreflexive_witness :
  is_next_heading (Some "2.3") "2.3" = Ok false.
Proof.
  apply (is_next_heading_irreflexive "2.3" [2; 3]%Z); reflexivity.
Defined.

(** X5. An accepted successor is at most one level deeper than the
    number before it. *)
Theorem is_next_heading_one_level_down p curr pn cn :
  truthy_str (Some p) = true →
  parse_numbering p = Ok pn → parse_numbering curr = Ok cn →
  is_next_heading (Some p) curr = Ok true →
  length (split_on "." curr) ≤ length (split_on "." p) + 1.
Proof.
  intros Ht Hp Hc H.
  destruct (is_next_heading_successor p curr pn cn Ht Hp Hc) as (b & Hb & Hs).
  rewrite Hb in H. inversion H; subst b.
  apply rmap_length in Hp, Hc. rewrite <- Hp, <- Hc.
  apply successor_length. by apply Hs.
Qed.

Lemma is_next_heading_one_level_down_witness :
  length (split_on "." "1.2.1") ≤ length (split_on "." "1.2") + 1.
Proof.
  apply (is_next_heading_one_level_down "1.2" "1.2.1" [1; 2]%Z [1; 2; 1]%Z);
    reflexivity.
Defined.

(** * Further properties of the extraction *)

#[local] Arguments is_next_heading : simpl never.
#[local] Arguments parse_numbering : simpl never.

(** ** Invariants of the loops *)

Lemma accept_or_fold_accepts titles page_num num_str t txt st st' :
  accept_or_fold titles page_num num_str t txt st = Ok st' →
  st' = append_text st txt
  ∨ (open_section st t num_str page_num = Ok st'
     ∧ is_next_heading_opt (last_number st) num_str = Ok true
     ∧ (titles ≠ [] → in_some_title num_str titles = Ok true)).
Proof.
  unfold accept_or_fold. intros H.
  destruct titles as [|t0 titles].
  - change (0 <? length []) with false in H. cbv iota in H.
    destruct (is_next_heading_opt (last_number st) num_str) as [[|]|e];
      simpl in H; [by right|by left; inversion H|done].
  - change (0 <? length (t0 :: titles)) with true in H. cbv iota in H.
    destruct (in_some_title num_str (t0 :: titles)) as [[|]|e] eqn:Hin;
      unfold rbind in H; [|by left; inversion H|done].
    destruct (is_next_heading_opt (last_number st) num_str) as [[|]|e];
      [by right|by left; inversion H|done].
Qed.

Section Invariant.

Variable intersects : Rect → Rect → bool.
Variable cfg : Config.
Variable titles : list string.
Variable page_num : Z.
Variable K : State → Prop.
Variable pg : Page.

Hypothesis K_append : ∀ st txt, K st → K (append_text st txt).
Hypothesis K_accept :
  ∀ st sp m num_str t txt st',
    K st →
    span_read cfg pg sp →
    heading_match cfg sp = Some m →
    group (heading_regex cfg) m 1 = Ok num_str →
    is_link intersects (links pg) sp = false →
    accept_or_fold titles page_num num_str t txt (set_started st) = Ok st' →
    K st'.

Lemma process_span_inv lines line_idx spans span_idx st st' :
  Forall (span_read cfg pg) spans →
  K st →
  process_span intersects cfg titles page_num (links pg) lines line_idx spans
    span_idx st = Ok st' →
  K st'.
Proof.
  intros Hspans Hst. unfold process_span.
  destruct (spans !! span_idx) as [sp|] eqn:Hsp; [|done].
  pose proof (Forall_lookup_1 _ _ _ _ Hspans Hsp) as Hread.
  destruct (bool_decide _); [by intros [= <-]|].
  destruct (heading_match cfg sp) as [m|] eqn:Hm.
  2:{ destruct (started st); intros [= <-]; auto. }
  destruct (group (heading_regex cfg) m 1) as [num_str|e] eqn:Hg; simpl;
    [|done].
  destruct (is_link intersects (links pg) sp) eqn:Hlink; [by intros [= <-]|].
  destruct (group_or_empty (heading_regex cfg) m) as [t0|e]; simpl; [|done].
  destruct (stitch_title _ _ _ _ _ _) as [t2 txt2].
  destruct (started st) eqn:Hs.
  - rewrite <- (set_started_id st Hs) at 1. by apply (K_accept st sp m).
  - destruct (bool_decide _); [by apply (K_accept st sp m)|by intros [= <-]].
Qed.

Lemma span_loop_inv lines line_idx spans :
  Forall (span_read cfg pg) spans →
  ∀ n span_idx st st',
    K st →
    span_loop intersects cfg titles page_num (links pg) lines line_idx spans n
      span_idx st = Ok st' →
    K st'.
Proof.
  intros Hspans. induction n as [|n IH]; simpl; intros span_idx st st' Hst H.
  - by inversion H; subst.
  - destruct (process_span _ _ _ _ _ _ _ _ _ _) as [st1|e] eqn:Hstep;
      simpl in H; [|done].
    eapply IH; [|exact H]. by eapply process_span_inv.
Qed.

Lemma line_loop_inv lines :
  Forall (λ l, Forall (span_read cfg pg) (spans l)) lines →
  ∀ n line_idx st st',
    K st →
    line_loop intersects cfg titles page_num (links pg) lines n line_idx st
    = Ok st' →
    K st'.
Proof.
  intros Hlines. induction n as [|n IH]; simpl; intros line_idx st st' Hst H.
  - by inversion H; subst.
  - unfold process_line in H.
    destruct (lines !! line_idx) as [l|] eqn:Hl; simpl in H; [|done].
    pose proof (Forall_lookup_1 _ _ _ _ Hlines Hl) as Hspans.
    destruct (span_loop _ _ _ _ _ _ _ _ _ _ _) as [st1|e] eqn:Hloop;
      simpl in H; [|done].
    eapply IH; [|exact H]. apply K_append.
    eapply span_loop_inv; [exact Hspans|exact Hst|exact Hloop].
Qed.

Lemma block_loop_inv :
  ∀ bs st st',
    bs ⊆ blocks pg →
    K st →
    block_loop intersects cfg titles page_num pg bs st = Ok st' →
    K st'.
Proof.
  induction bs as [|b bs IH]; simpl; intros st st' Hbs Hst H.
  - by inversion H; subst.
  - destruct (process_block _ _ _ _ _ _ _) as [st1|e] eqn:Hb; simpl in H;
      [|done].
    eapply IH; [set_solver| |exact H]. unfold process_block in Hb.
    destruct (block_skipped _ _ _) eqn:Hskip; [by inversion Hb; subst|].
    eapply line_loop_inv; [|done|exact Hb].
    apply Forall_forall. intros l Hl. apply Forall_forall. intros sp Hsp.
    exists b, l. repeat split; [set_solver|done..].
Qed.

End Invariant.

(** An invariant [I p] of the state before the page of index [p]: while
    that page is read the state is kept within [I (p + 1)].  A heading is
    accepted or folded for a span that was read from the page, matches
    the heading pattern and is not a link, with group 1 as number. *)
Lemma page_loop_inv_spans intersects cfg titles doc (I : Z → State → Prop) :
  (∀ p st txt, I p st → I p (append_text st txt)) →
  (∀ p pg st sp m num_str t txt st',
     I (p + 1)%Z st →
     get_page doc p = Ok pg →
     span_read cfg pg sp →
     heading_match cfg sp = Some m →
     group (heading_regex cfg) m 1 = Ok num_str →
     is_link intersects (links pg) sp = false →
     accept_or_fold titles p num_str t txt (set_started st) = Ok st' →
     I (p + 1)%Z st') →
  (∀ p st, I p st → I (p + 1)%Z st) →
  ∀ n p st st',
    I p st →
    page_loop intersects cfg titles doc n p st = Ok st' →
    I (p + Z.of_nat n)%Z st'.
Proof.
  intros Happ Hacc Hnext. induction n as [|n IH]; intros p st st' Hst H.
  - simpl in H. inversion H; subst. by rewrite Z.add_0_r.
  - simpl in H. unfold process_page in H.
    destruct (get_page doc p) as [pg|e] eqn:Hpg; simpl in H; [|done].
    destruct (block_loop _ _ _ _ _ _ _) as [st1|e] eqn:Hb; simpl in H;
      [|done].
    apply Hnext in Hst.
    apply (block_loop_inv intersects cfg titles p (I (p + 1)%Z) pg) in Hb;
      [|by apply Happ| |done|done].
    2:{ intros st0 sp m num_str t txt st2 Hst0 Hsp Hm Hg Hl.
        by apply (Hacc p pg st0 sp m). }
    apply IH in H; [|done].
    by replace (p + Z.of_nat (S n))%Z with (p + 1 + Z.of_nat n)%Z by lia.
Qed.

Lemma page_loop_inv_match intersects cfg titles doc (I : Z → State → Prop) :
  (∀ p st txt, I p st → I p (append_text st txt)) →
  (∀ p st sp m num_str t txt st',
     I (p + 1)%Z st →
     heading_match cfg sp = Some m →
     group (heading_regex cfg) m 1 = Ok num_str →
     accept_or_fold titles p num_str t txt (set_started st) = Ok st' →
     I (p + 1)%Z st') →
  (∀ p st, I p st → I (p + 1)%Z st) →
  ∀ n p st st',
    I p st →
    page_loop intersects cfg titles doc n p st = Ok st' →
    I (p + Z.of_nat n)%Z st'.
Proof.
  intros Happ Hacc Hnext. apply page_loop_inv_spans; [done| |done].
  intros p pg st sp m num_str t txt st' Hst _ _ Hm Hg _.
  by apply (Hacc p st sp m).
Qed.

Lemma page_loop_inv intersects cfg titles doc (I : Z → State → Prop) :
  (∀ p st txt, I p st → I p (append_text st txt)) →
  (∀ p st num_str t txt st',
     I (p + 1)%Z st →
     accept_or_fold titles p num_str t txt (set_started st) = Ok st' →
     I (p + 1)%Z st') →
  (∀ p st, I p st → I (p + 1)%Z st) →
  ∀ n p st st',
    I p st →
    page_loop intersects cfg titles doc n p st = Ok st' →
    I (p + Z.of_nat n)%Z st'.
Proof.
  intros Happ Hacc Hnext. apply page_loop_inv_match; [done| |done].
  intros p st sp m num_str t txt st' Hst _ _. by apply Hacc.
Qed.

(** The same with an invariant [B p] between the pages and an invariant
    [W p] while the page of index [p] is read. *)
Lemma page_loop_inv_within intersects cfg titles doc
    (B W : Z → State → Prop) :
  (∀ p st, B p st → W p st) →
  (∀ p st txt, W p st → W p (append_text st txt)) →
  (∀ p st num_str t txt st',
     W p st →
     accept_or_fold titles p num_str t txt (set_started st) = Ok st' →
     W p st') →
  (∀ p st, W p st → B (p + 1)%Z st) →
  ∀ n p st st',
    B p st →
    page_loop intersects cfg titles doc n p st = Ok st' →
    B (p + Z.of_nat n)%Z st'.
Proof.
  intros Hin Happ Hacc Hout. induction n as [|n IH]; intros p st st' Hst H.
  - simpl in H. inversion H; subst. by rewrite Z.add_0_r.
  - simpl in H. unfold process_page in H.
    destruct (get_page doc p) as [pg|e]; simpl in H; [|done].
    destruct (block_loop _ _ _ _ _ _ _) as [st1|e] eqn:Hb; simpl in H;
      [|done].
    apply Hin in Hst.
    apply (block_loop_inv intersects cfg titles p (W p) pg) in Hb;
      [|by apply Happ| |done|done].
    2:{ intros st0 sp m num_str t txt st2 Hst0 _ _ _ _. by apply Hacc. }
    apply Hout in Hb. apply IH in H; [|done].
    by replace (p + Z.of_nat (S n))%Z with (p + 1 + Z.of_nat n)%Z by lia.
Qed.

(** ** What the output is made of *)

Lemma all_sections_append {B} st txt (f : Section → B) :
  (∀ s, f (add_content s txt) = f s) →
  f <$> all_sections (append_text st txt) = f <$> all_sections st.
Proof.
  intros Hf. unfold all_sections. simpl. rewrite !fmap_app. f_equal.
  destruct (current_section st); simpl; [by rewrite Hf|done].
Qed.

Lemma all_sections_append_Forall (P : Section → Prop) st txt :
  (∀ s, P s → P (add_content s txt)) →
  Forall P (all_sections st) → Forall P (all_sections (append_text st txt)).
Proof.
  intros HP. unfold all_sections. simpl. rewrite !Forall_app.
  intros [Hs Hc]. split; [done|].
  destruct (current_section st); simpl in *; [|done].
  constructor; [|constructor]. apply HP. by inversion Hc.
Qed.

Lemma open_section_inv st t num_str page_num st' :
  open_section st t num_str page_num = Ok st' →
  ∃ tt n, t = Some tt ∧ num_str = Some n
    ∧ st' = {| sections := all_sections st;
               current_section :=
                 Some {| title := normalize_ws tt; number := n;
                         level := Z.of_nat (length (split_on "." n));
                         page := page_num + 1; content := "" |};
               last_number := Some n;
               started := started st |}.
Proof.
  unfold open_section, new_section, title_words.
  destruct t as [tt|]; simpl; [|done].
  destruct num_str as [n|]; simpl; [|done].
  intros [= <-]. by exists tt, n.
Qed.

Lemma follows_chain_snoc ns n :
  follows_chain ns →
  (∀ x, last ns = Some x → is_next_heading (Some x) n = Ok true) →
  follows_chain (ns ++ [n]).
Proof.
  induction ns as [|a ns IH]; [done|]. intros Hc Hlast.
  destruct ns as [|b ns].
  - simpl. split; [|done]. by apply Hlast.
  - destruct Hc as [Hab Hc]. split; [done|]. apply IH; [done|].
    intros x Hx. apply Hlast. by rewrite last_cons, Hx.
Qed.

Lemma chain_kept_accept titles page_num st num_str t txt st' :
  chain_kept st →
  accept_or_fold titles page_num num_str t txt (set_started st) = Ok st' →
  chain_kept st'.
Proof.
  intros (Hem & Hlast & Hchain) [-> | (Hopen & Hnext & _)]%accept_or_fold_accepts.
  - repeat split.
    + intros Hnone. simpl in *. apply Hem. by destruct (current_section st).
    + simpl. rewrite Hlast. by destruct (current_section st).
    + by rewrite all_sections_append.
  - apply open_section_inv in Hopen as (tt & n & -> & -> & ->).
    repeat split; try done.
    unfold all_sections at 1. simpl.
    change (all_sections (set_started st)) with (all_sections st).
    rewrite fmap_app. apply follows_chain_snoc; [done|].
    intros x Hx. simpl in Hnext. rewrite Hlast in Hnext.
    unfold all_sections in Hx.
    destruct (current_section st) as [s|] eqn:Hcur; simpl in *.
    + rewrite fmap_app in Hx. simpl in Hx. rewrite last_snoc in Hx.
      by inversion Hx; subst.
    + rewrite Hem in Hx by done. done.
Qed.

Lemma extract_all_sections intersects doc cfg out :
  extract_hierarchy_checked intersects doc cfg = Ok out →
  ∃ st, page_loop intersects cfg (toc_title <$> toc doc) doc
          (Z.to_nat (page_end_of doc cfg - page_start_of cfg))
          (page_start_of cfg) (initial_state cfg) = Ok st
        ∧ out = all_sections st.
Proof.
  unfold extract_hierarchy_checked, page_end_of, page_start_of. intros H.
  destruct (page_loop _ _ _ _ _ _ _) as [st|e]; simpl in H; [|done].
  exists st. split; [done|]. by inversion H.
Qed.

Lemma extract_follows_chain intersects doc cfg out :
  extract_hierarchy_checked intersects doc cfg = Ok out →
  follows_chain (number <$> out).
Proof.
  intros (st & Hloop & ->)%extract_all_sections.
  apply (page_loop_inv intersects cfg _ doc (λ _, chain_kept)) in Hloop.
  - apply Hloop.
  - intros _ st0 txt (Hem & Hlast & Hchain). repeat split.
    + intros Hnone. simpl in *. apply Hem. by destruct (current_section st0).
    + simpl. rewrite Hlast. by destruct (current_section st0).
    + by rewrite all_sections_append.
  - intros p st0 num_str t txt st'. apply chain_kept_accept.
  - done.
  - by repeat split.
Qed.

(** X6. The numbers of the output follow one another: each section's
    number is accepted by [is_next_heading] after the number of the
    section before it. *)
Theorem output_numbers_follow intersects doc cfg out :
  extract_hierarchy_checked intersects doc cfg = Ok out →
  follows_chain (number <$> out).
Proof. apply extract_follows_chain. Qed.

Lemma output_numbers_follow_witness :
  follows_chain (number <$> scenario_sections).
Proof.
  apply (output_numbers_follow rect_overlaps scenario_doc default_config).
  vm_compute. reflexivity.
Defined.

(** X7. With a table of contents, every number of the output is found in
    one of its titles. *)
Theorem output_numbers_in_toc intersects doc cfg out :
  toc doc ≠ [] →
  extract_hierarchy_checked intersects doc cfg = Ok out →
  Forall (λ s, existsb (py_in (number s)) (toc_title <$> toc doc) = true) out.
Proof.
  intros Htoc (st & Hloop & ->)%extract_all_sections.
  set (titles := toc_title <$> toc doc) in *.
  assert (titles ≠ []) as Hne by (unfold titles; by destruct (toc doc)).
  apply (page_loop_inv intersects cfg _ doc
           (λ _ st, Forall (λ s, existsb (py_in (number s)) titles = true)
                      (all_sections st))) in Hloop.
  - done.
  - intros _ st0 txt. by apply all_sections_append_Forall.
  - intros p st0 num_str t txt st' Hst
      [-> | (Hopen & _ & Hin)]%accept_or_fold_accepts.
    + by apply all_sections_append_Forall.
    + apply open_section_inv in Hopen as (tt & n & -> & -> & ->).
      unfold all_sections at 1. simpl. apply Forall_app. split; [done|].
      apply Forall_singleton. simpl.
      specialize (Hin Hne). unfold in_some_title in Hin.
      destruct titles; [done|]. by inversion Hin.
  - done.
  - constructor.
Qed.

Lemma output_numbers_in_toc_witness :
  Forall (λ s, existsb (py_in (number s)) (toc_title <$> toc toc_doc) = true)
    toc_output.
Proof.
  apply (output_numbers_in_toc rect_overlaps toc_doc default_config).
  - discriminate.
  - vm_compute. reflexivity.
Defined.

Lemma extract_well_made intersects doc cfg out :
  extract_hierarchy_checked intersects doc cfg = Ok out →
  Forall well_made out.
Proof.
  intros (st & Hloop & ->)%extract_all_sections.
  apply (page_loop_inv intersects cfg _ doc
           (λ _ st, Forall well_made (all_sections st))) in Hloop.
  - done.
  - intros _ st0 txt. by apply all_sections_append_Forall.
  - intros p st0 num_str t txt st' Hst [-> | Hopen]%accept_or_fold_cases.
    + by apply all_sections_append_Forall.
    + apply open_section_inv in Hopen as (tt & n & -> & -> & ->).
      unfold all_sections at 1. simpl. apply Forall_app. split; [done|].
      constructor; [|constructor]. split; simpl.
      * by rewrite split_on_length.
      * rewrite normalize_ws_collapse. apply collapse_ws_trimmed.
  - done.
  - constructor.
Qed.

(** X8. Every section of the output has as level the number of
    dot-separated components of its number (one more than its dots, so at
    least 1), and a normalised title: empty, or without white space at
    either end and with single spaces only inside. *)
Theorem output_sections_well_made intersects doc cfg out :
  extract_hierarchy_checked intersects doc cfg = Ok out →
  Forall well_made out.
Proof. apply extract_well_made. Qed.

Lemma output_sections_well_made_witness : Forall well_made scenario_sections.
Proof.
  apply (output_sections_well_made rect_overlaps scenario_doc default_config).
  vm_compute. reflexivity.
Defined.

Lemma pages_ascend_snoc ps p :
  pages_ascend ps → Forall (λ q, (q ≤ p)%Z) ps → pages_ascend (ps ++ [p]).
Proof.
  induction ps as [|a ps IH]; [done|]. intros Hasc Hall.
  apply Forall_cons in Hall as [Ha Hall].
  destruct ps as [|b ps].
  - simpl. by split.
  - destruct Hasc as [Hab Hasc]. split; [done|]. by apply IH.
Qed.

(** X9. The pages of the output do not go back, and every one of them
    lies in the range of pages that was read, from [start_page] (1 when
    not set) to [end_page] (the number of pages when not set). *)
Theorem output_pages_in_range intersects doc cfg out :
  extract_hierarchy_checked intersects doc cfg = Ok out →
  pages_ascend (page <$> out)
  ∧ Forall (λ s, (page_start_of cfg + 1 ≤ page s ≤ page_end_of doc cfg)%Z) out.
Proof.
  intros (st & Hloop & ->)%extract_all_sections.
  apply (page_loop_inv_within intersects cfg _ doc
           (pages_within (page_start_of cfg))
           (λ p st, (page_start_of cfg ≤ p)%Z
                    ∧ pages_within (page_start_of cfg) (p + 1) st))
    in Hloop.
  - destruct Hloop as (Hle & Hall & Hasc). split; [done|].
    eapply Forall_impl; [exact Hall|]. intros s Hs. simpl in Hs. lia.
  - intros p st0 (Hle & Hall & Hasc). split; [done|].
    repeat split; [lia| |done].
    eapply Forall_impl; [exact Hall|]. intros s Hs. simpl in *. lia.
  - intros p st0 txt (Hp & Hle & Hall & Hasc). repeat split; [done..| |].
    + by apply all_sections_append_Forall.
    + by rewrite all_sections_append.
  - intros p st0 num_str t txt st' (Hp & Hle & Hall & Hasc)
      [-> | Hopen]%accept_or_fold_cases.
    + repeat split; [done..| |].
      * by apply all_sections_append_Forall.
      * by rewrite all_sections_append.
    + apply open_section_inv in Hopen as (tt & n & -> & -> & ->).
      change (all_sections (set_started st0)) with (all_sections st0) in *.
      unfold pages_within, all_sections at 1 3. simpl.
      repeat split; [done..| |].
      * apply Forall_app. split; [done|]. constructor; [|constructor].
        simpl. lia.
      * rewrite fmap_app. apply pages_ascend_snoc; [done|].
        apply Forall_fmap. eapply Forall_impl; [exact Hall|].
        intros s Hs. simpl in *. lia.
  - intros p st0 (Hp & Hrest). exact Hrest.
  - repeat split; [lia|constructor].
Qed.

Lemma output_pages_in_range_witness :
  pages_ascend (page <$> scenario_sections)
  ∧ Forall (λ s, (page_start_of default_config + 1 ≤ page s
                  ≤ page_end_of scenario_doc default_config)%Z)
      scenario_sections.
Proof.
  apply (output_pages_in_range rect_overlaps scenario_doc default_config).
  vm_compute. reflexivity.
Defined.

(** X10. A sealed section is never changed or removed by what is read
    later: the sealed sections before the loop over the pages are the
    first sealed sections after it. *)
Theorem sealed_sections_kept intersects cfg titles doc n p st st' :
  page_loop intersects cfg titles doc n p st = Ok st' →
  sections st `prefix_of` sections st'.
Proof.
  intros Hloop.
  apply (page_loop_inv intersects cfg titles doc
           (λ _ st1, sections st `prefix_of` sections st1)) in Hloop; try done.
  intros q st0 num_str t txt st1 Hst [-> | Hopen]%accept_or_fold_cases;
    [done|].
  apply open_section_inv in Hopen as (tt & k & -> & -> & ->). simpl.
  unfold all_sections. simpl. by apply prefix_app_r.
Qed.

Lemma sealed_sections_kept_witness :
  sections introduction_open
  `prefix_of` sections
     (after_step (page_loop rect_overlaps default_config [] scenario_doc 2 0
                    introduction_open) introduction_open).
Proof.
  apply (sealed_sections_kept rect_overlaps default_config [] scenario_doc
           2 0%Z introduction_open).
  vm_compute. reflexivity.
Defined.

(** ** Blocks that are skipped *)


(** * The heading pattern *)

Lemma length_app_str s t :
  String.length (s +:+ t) = String.length s + String.length t.
Proof. induction s as [|c s IH]; [done|]. rewrite app_String. simpl. lia. Qed.

Lemma substring_prefix pre rest :
  substring 0 (String.length pre) (pre +:+ rest) = pre.
Proof.
  induction pre as [|c pre IH].
  - rewrite app_empty_l. by destruct rest.
  - rewrite app_String. simpl. by rewrite IH.
Qed.

Lemma consumed_app pre rest : consumed (pre +:+ rest) rest = pre.
Proof.
  unfold consumed. rewrite length_app_str.
  replace (String.length pre + String.length rest - String.length rest)
    with (String.length pre) by lia.
  apply substring_prefix.
Qed.

(** The rounds of a star, given what one round finds. *)
Lemma star_rounds_sound n0 r k :
  (∀ k s g gf,
     re_go n0 r k s g = Some gf →
     ∃ pre rest g',
       s = pre +:+ rest ∧ matches n0 r pre rest g g' ∧ k rest g' = Some gf) →
  ∀ fuel s g gf,
    (fix star (fuel : nat) (s : string) (g : gmap nat string) :=
       match fuel with
       | O => k s g
       | S fuel' =>
           match re_go n0 r
                   (λ s' g', if String.length s' <? String.length s
                             then star fuel' s' g' else None) s g with
           | Some g' => Some g'
           | None => k s g
           end
       end) fuel s g = Some gf →
    ∃ pre rest g',
      s = pre +:+ rest ∧ matches n0 (RStar r) pre rest g g'
      ∧ k rest g' = Some gf.
Proof.
  intros IH. induction fuel as [|fuel IHf]; intros s g gf H.
  - exists EmptyString, s, g. repeat split; [constructor|done].
  - destruct (re_go n0 r
                (λ s' g', if String.length s' <? String.length s
                          then _ else None) s g) as [g1|] eqn:H1.
    + inversion H; subst g1.
      apply IH in H1 as (pre1 & s1 & g1 & -> & Hm1 & H1).
      destruct (String.length s1 <? String.length (pre1 +:+ s1)) eqn:Hlt;
        [|done].
      apply IHf in H1 as (pre2 & rest & g2 & -> & Hm2 & Hk).
      exists (pre1 +:+ pre2), rest, g2. rewrite app_assoc_str.
      repeat split; [|done]. econstructor; [done| |done].
      intros ->. apply Nat.ltb_lt in Hlt. rewrite app_empty_l in Hlt. lia.
    + exists EmptyString, s, g. repeat split; [constructor|done].
Qed.

(** What [re_go] finds is a match, and the continuation accepted it. *)
Lemma re_go_sound n0 r :
  ∀ k s g gf,
    re_go n0 r k s g = Some gf →
    ∃ pre rest g',
      s = pre +:+ rest ∧ matches n0 r pre rest g g' ∧ k rest g' = Some gf.
Proof.
  induction r as [|p|r1 IH1 r2 IH2|r1 IH1 r2 IH2|r IH|i r IH| |];
    intros k s g gf H.
  - exists EmptyString, s, g. repeat split; [constructor|done].
  - simpl in H. destruct s as [|c s]; [done|]. destruct (p c) eqn:Hp; [|done].
    exists (String c EmptyString), s, g. repeat split; [by constructor|done].
  - simpl in H. apply IH1 in H as (pre1 & s1 & g1 & -> & Hm1 & H).
    apply IH2 in H as (pre2 & rest & g2 & -> & Hm2 & H).
    exists (pre1 +:+ pre2), rest, g2. rewrite app_assoc_str.
    repeat split; [|done]. by econstructor.
  - simpl in H. destruct (re_go n0 r1 k s g) as [g1|] eqn:H1.
    + inversion H; subst g1. apply IH1 in H1 as (pre & rest & g' & -> & Hm & Hk).
      exists pre, rest, g'. repeat split; [|done]. by apply matches_alt_l.
    + apply IH2 in H as (pre & rest & g' & -> & Hm & Hk).
      exists pre, rest, g'. repeat split; [|done]. by apply matches_alt_r.
  - by apply (star_rounds_sound n0 r k IH (S (String.length s))).
  - simpl in H. apply IH in H as (pre & rest & g' & -> & Hm & Hk).
    rewrite consumed_app in Hk.
    exists pre, rest, (<[i := pre]> g'). repeat split; [|done].
    by constructor.
  - simpl in H. destruct (String.length s =? n0) eqn:Hn; [|done].
    apply Nat.eqb_eq in Hn.
    exists EmptyString, s, g. repeat split; [by constructor|done].
  - simpl in H. exists EmptyString, s, g. split; [done|].
    destruct s as [|c [|c' s]]; try done.
    + split; [constructor; by left|done].
    + destruct (Ascii.eqb c "010") eqn:Hc; [|done].
      apply Ascii.eqb_eq in Hc. subst c.
      split; [constructor; by right|done].
Qed.

Lemma matches_no_group n0 r pre rest g g' :
  matches n0 r pre rest g g' → ngroups r = 0 → g' = g.
Proof.
  induction 1; simpl; intros Hn; try done.
  - rewrite IHmatches2, IHmatches1 by lia. done.
  - apply IHmatches. lia.
  - apply IHmatches. lia.
  - rewrite IHmatches2, IHmatches1 by done. done.
Qed.

(** The text a pattern without groups matches. *)
Lemma matches_digits_plus n0 pre rest g g' :
  matches n0 (RPlus (RChar py_isdigit)) pre rest g g' →
  str_all py_isdigit pre = true ∧ nonempty_str pre = true.
Proof.
  unfold RPlus. intros H. inversion H as [| |? ? pre1 pre2 ? ? ? ? H1 H2| | | | | | |];
    subst. clear H.
  inversion H1; subst. rewrite app_String, app_empty_l. simpl.
  split; [|done]. rewrite andb_true_iff. split; [done|].
  clear H1. remember (RStar (RChar py_isdigit)) as r eqn:Hr.
  induction H2; inversion Hr; subst; [done|].
  rewrite str_all_app, IHmatches2 by done. rewrite andb_true_r.
  inversion H2_; subst. simpl. by rewrite andb_true_r.
Qed.

Lemma numbering_shape n0 tail rest g g' ds :
  matches n0 (RStar (RSeq (RChar is_dot) (RPlus (RChar py_isdigit))))
    tail rest g g' →
  str_all py_isdigit ds = true → nonempty_str ds = true →
  is_numbering_string (ds +:+ tail) = true.
Proof.
  intros H. revert ds.
  remember (RStar (RSeq (RChar is_dot) (RPlus (RChar py_isdigit)))) as r
    eqn:Hr.
  induction H; inversion Hr; subst; intros ds Hds Hne.
  - rewrite app_empty_r. unfold is_numbering_string.
    rewrite split_on_no_sep.
    + simpl. by rewrite Hds, Hne.
    + revert Hds. apply str_all_impl. intros c Hc.
      by rewrite (digit_not_dot _ Hc).
  - clear IHmatches1.
    inversion H as [| |? ? p1 p2 ? ? ? ? Hdot Hdigits| | | | | | |]; subst.
    inversion Hdot as [|? c ? ? Hc| | | | | | | |]; subst.
    apply Ascii.eqb_eq in Hc. subst c.
    apply matches_digits_plus in Hdigits as [Hd2 Hn2].
    rewrite !app_String, app_empty_l.
    unfold is_numbering_string.
    rewrite split_on_app.
    + simpl. rewrite Hds, Hne. simpl.
      by apply (IHmatches2 eq_refl p2).
    + revert Hds. apply str_all_impl. intros c Hc.
      by rewrite (digit_not_dot _ Hc).
Qed.

Lemma matches_classes n0 q r pre rest g g' :
  matches n0 r pre rest g g' → classes_within q r → str_all q pre = true.
Proof.
  induction 1; simpl; intros Hq; try done.
  - by rewrite (Hq c H).
  - destruct Hq. rewrite str_all_app, IHmatches1, IHmatches2; done.
  - apply IHmatches, Hq.
  - apply IHmatches, Hq.
  - rewrite str_all_app, IHmatches1, IHmatches2; done.
  - by apply IHmatches.
Qed.

Ltac invert_matches :=
  repeat match goal with
    | H : matches _ (RSeq _ _) _ _ _ _ |- _ => inversion H; subst; clear H
    | H : matches _ (RGroup _ _) _ _ _ _ |- _ => inversion H; subst; clear H
    | H : matches _ RBol _ _ _ _ |- _ => inversion H; subst; clear H
    | H : matches _ REol _ _ _ _ |- _ => inversion H; subst; clear H
    end.

Lemma default_heading_regex_match s m :
  re_match default_heading_regex s = Some m →
  ∃ ws n sep r tail,
    s = ws +:+ n +:+ sep +:+ r +:+ tail
    ∧ m !! 1 = Some n ∧ m !! 2 = Some r
    ∧ is_numbering_string n = true
    ∧ str_all py_isspace ws = true
    ∧ str_all dot_or_space sep = true
    ∧ str_all not_newline r = true
    ∧ (tail = EmptyString ∨ tail = String "010" EmptyString).
Proof.
  unfold re_match. intros H.
  apply re_go_sound in H as (pre & rest & g' & -> & Hm & Hk).
  inversion Hk; subst g'. clear Hk.
  unfold default_heading_regex in Hm. invert_matches.
  match goal with
  | H : matches _ (RStar (RChar py_isspace)) ?w _ ?a ?b |- _ =>
      rename H into Hws; assert (b = a) as ->
        by (by apply (matches_no_group _ _ _ _ _ _ Hws))
  end.
  match goal with
  | H : matches _ (RPlus (RChar py_isdigit)) _ _ ?a ?b |- _ =>
      rename H into Hdigits; assert (b = a) as ->
        by (by apply (matches_no_group _ _ _ _ _ _ Hdigits))
  end.
  match goal with
  | H : matches _ (RStar (RSeq _ _)) _ _ ?a ?b |- _ =>
      rename H into Hparts; assert (b = a) as ->
        by (by apply (matches_no_group _ _ _ _ _ _ Hparts))
  end.
  match goal with
  | H : matches _ (ROpt _) _ _ ?a ?b |- _ =>
      rename H into Hsep; assert (b = a) as ->
        by (by apply (matches_no_group _ _ _ _ _ _ Hsep))
  end.
  match goal with
  | H : matches _ (RStar (RChar not_newline)) _ _ ?a ?b |- _ =>
      rename H into Hrest; assert (b = a) as ->
        by (by apply (matches_no_group _ _ _ _ _ _ Hrest))
  end.
  rewrite !app_empty_l, ?app_empty_r.
  match type of Hws with matches _ _ ?w _ _ _ => exists w end.
  match type of Hdigits with matches _ _ ?d _ _ _ =>
    match type of Hparts with matches _ _ ?t _ _ _ => exists (d +:+ t) end end.
  match type of Hsep with matches _ _ ?x _ _ _ => exists x end.
  match type of Hrest with matches _ _ ?x _ _ _ => exists x end.
  exists rest.
  repeat split.
  - by rewrite !app_assoc_str.
  - apply matches_digits_plus in Hdigits as [Hd Hn].
    by eapply numbering_shape.
  - eapply matches_classes; [exact Hws|]. simpl. auto.
  - eapply matches_classes; [exact Hsep|]. unfold dot_or_space. simpl.
    repeat split; intros c Hc; rewrite Hc; by rewrite ?orb_true_r.
  - eapply matches_classes; [exact Hrest|]. simpl. auto.
  - match goal with H : _ ∨ _ |- _ => exact H end.
Qed.

(** X12. When the default heading pattern matches a text, group 1 is a
    numbering string and group 2 took part in the match; the text is
    white space, the number, a separator of dots and white space, the
    remainder without a newline, and at most one closing newline. *)
Theorem default_heading_regex_groups s m :
  re_match default_heading_regex s = Some m →
  ∃ ws n sep r tail,
    s = ws +:+ n +:+ sep +:+ r +:+ tail
    ∧ m !! 1 = Some n ∧ m !! 2 = Some r
    ∧ is_numbering_string n = true
    ∧ str_all py_isspace ws = true
    ∧ str_all dot_or_space sep = true
    ∧ str_all not_newline r = true
    ∧ (tail = EmptyString ∨ tail = String "010" EmptyString).
Proof. apply default_heading_regex_match. Qed.

Lemma default_heading_regex_groups_witness :
  ∃ ws n sep r tail,
    " 1.2. Related work" = ws +:+ n +:+ sep +:+ r +:+ tail
    ∧ default ∅ (re_match default_heading_regex " 1.2. Related work") !! 1
      = Some n
    ∧ default ∅ (re_match default_heading_regex " 1.2. Related work") !! 2
      = Some r
    ∧ is_numbering_string n = true
    ∧ str_all py_isspace ws = true
    ∧ str_all dot_or_space sep = true
    ∧ str_all not_newline r = true
    ∧ (tail = EmptyString ∨ tail = String "010" EmptyString).
Proof.
  apply (default_heading_regex_groups " 1.2. Related work").
  vm_compute. reflexivity.
Defined.

(** ** The extraction with the default pattern returns *)

Lemma split_on_component_length sep s :
  Forall (λ w, String.length w ≤ String.length s) (split_on sep s).
Proof.
  induction s as [|c s IH]; simpl; [by repeat constructor|].
  destruct (Ascii.eqb c sep).
  - constructor; [simpl; lia|]. eapply Forall_impl; [exact IH|].
    intros w Hw. simpl in Hw. lia.
  - destruct (split_on sep s) as [|w ws].
    + constructor; [simpl; lia|constructor].
    + apply Forall_cons in IH as [Hw Hws]. constructor; [simpl; lia|].
      eapply Forall_impl; [exact Hws|]. intros w' Hw'. simpl in Hw'. lia.
Qed.

Lemma within_digit_limit_short n :
  (Z.of_nat (String.length n) ≤ max_str_digits)%Z →
  within_digit_limit n = true.
Proof.
  intros Hn. unfold within_digit_limit. apply forallb_forall. intros w Hw.
  apply list_elem_of_In in Hw.
  pose proof (split_on_component_length "." n) as Hall.
  rewrite Forall_forall in Hall. specialize (Hall w Hw).
  apply Z.leb_le. lia.
Qed.

Lemma accept_or_fold_returns titles page_num n t txt st :
  last_number_parses st →
  is_numbering_string n = true → within_digit_limit n = true →
  ∃ st', accept_or_fold titles page_num (Some n) (Some t) txt st = Ok st'
         ∧ last_number_parses st'.
Proof.
  intros Hst Hn Hlim.
  assert (returns (is_next_heading (last_number st) n)) as [b Hb].
  { unfold last_number_parses in Hst.
    destruct (last_number st) as [l|]; [|by exists true].
    destruct (Hst l eq_refl) as [Hl Hll].
    destruct (numbering_string_parses l Hl Hll) as [pn Hp].
    destruct (numbering_string_parses n Hn Hlim) as [cn Hc].
    apply (is_next_heading_parsed l n pn cn); [|done..].
    by destruct l. }
  rewrite (accept_or_fold_spec _ _ _ _ _ _ b Hb).
  destruct (toc_allows titles n && b).
  - rewrite open_section_ok. eexists. split; [done|].
    intros k. simpl. by intros [= <-].
  - eexists. split; [done|]. exact Hst.
Qed.

Section Returns.

Variable intersects : Rect → Rect → bool.
Variable cfg : Config.
Variable titles : list string.
Hypothesis default_pattern : heading_regex cfg = default_heading_regex.

Section OnePage.

Variable page_num : Z.
Variable pg : Page.
Hypothesis short_spans : ∀ sp, span_read cfg pg sp → short_text sp.

Lemma process_span_returns lines line_idx spans span_idx st :
  Forall (span_read cfg pg) spans → span_idx < length spans →
  last_number_parses st →
  ∃ st', process_span intersects cfg titles page_num (links pg) lines
           line_idx spans span_idx st = Ok st'
         ∧ last_number_parses st'.
Proof.
  intros Hspans Hidx Hst. unfold process_span.
  destruct (lookup_lt_is_Some_2 spans span_idx Hidx) as [sp Hsp].
  rewrite Hsp.
  pose proof (short_spans sp (Forall_lookup_1 _ _ _ _ Hspans Hsp)) as Hshort.
  destruct (bool_decide _); [by exists st|].
  destruct (heading_match cfg sp) as [m|] eqn:Hm.
  2:{ destruct (started st); eexists; split; done. }
  assert (re_match default_heading_regex (text sp) = Some m) as Hre.
  { unfold heading_match in Hm. rewrite default_pattern in Hm.
    destruct (re_match default_heading_regex (text sp)); [|done].
    destruct (min_font_size cfg); [|done].
    by destruct (Qle_bool _ _). }
  apply default_heading_regex_match in Hre
    as (ws & n & sep & r & tail & Htext & H1 & H2 & Hn & _).
  assert (within_digit_limit n = true) as Hlim.
  { apply within_digit_limit_short. unfold short_text in Hshort.
    rewrite Htext, !length_app_str in Hshort. lia. }
  unfold group_or_empty, group. rewrite default_pattern. simpl.
  rewrite H1, H2.
  destruct (is_link intersects (links pg) sp); [by exists st|].
  pose proof (stitch_title_spec lines line_idx spans span_idx r (text sp)) as Ht.
  destruct (stitch_title _ _ _ _ _ _) as [t2 txt2]. simpl in Ht. subst t2.
  destruct (started st).
  - by apply accept_or_fold_returns.
  - destruct (bool_decide _); [|by exists st].
    by apply accept_or_fold_returns.
Qed.

Lemma span_loop_returns lines line_idx spans :
  Forall (span_read cfg pg) spans →
  ∀ n span_idx st,
    span_idx + n ≤ length spans → last_number_parses st →
    ∃ st', span_loop intersects cfg titles page_num (links pg) lines line_idx
             spans n span_idx st = Ok st'
           ∧ last_number_parses st'.
Proof.
  intros Hspans. induction n as [|n IH]; intros span_idx st Hlen Hst; simpl.
  - by exists st.
  - destruct (process_span_returns lines line_idx spans span_idx st Hspans)
      as (st1 & -> & Hst1); [lia|done|].
    simpl. apply IH; [lia|done].
Qed.

Lemma line_loop_returns lines :
  Forall (λ l, Forall (span_read cfg pg) (spans l)) lines →
  ∀ n line_idx st,
    line_idx + n ≤ length lines → last_number_parses st →
    ∃ st', line_loop intersects cfg titles page_num (links pg) lines n
             line_idx st = Ok st'
           ∧ last_number_parses st'.
Proof.
  intros Hlines. induction n as [|n IH]; intros line_idx st Hlen Hst; simpl.
  - by exists st.
  - unfold process_line.
    destruct (lookup_lt_is_Some_2 lines line_idx) as [l Hl]; [lia|].
    rewrite Hl.
    destruct (span_loop_returns lines line_idx (spans l)
                (Forall_lookup_1 _ _ _ _ Hlines Hl) (length (spans l)) 0 st)
      as (st1 & -> & Hst1); [lia|done|].
    simpl. apply IH; [lia|done].
Qed.

Lemma block_loop_returns :
  ∀ bs st,
    bs ⊆ blocks pg → last_number_parses st →
    ∃ st', block_loop intersects cfg titles page_num pg bs st = Ok st'
           ∧ last_number_parses st'.
Proof.
  induction bs as [|b bs IH]; intros st Hbs Hst; simpl.
  - by exists st.
  - unfold process_block.
    destruct (block_skipped cfg (height pg) b) eqn:Hskip; simpl.
    { apply IH; [set_solver|done]. }
    destruct (line_loop_returns (default [] (lines b)))
      with (n := length (default [] (lines b))) (line_idx := 0) (st := st)
      as (st1 & -> & Hst1); [|lia|done|].
    { apply Forall_forall. intros l Hl. apply Forall_forall. intros sp Hsp.
      exists b, l. repeat split; [set_solver|done..]. }
    simpl. apply IH; [set_solver|done].
Qed.

End OnePage.

Lemma page_loop_returns doc :
  ∀ n p st,
    last_number_parses st →
    (∀ i, (p ≤ i < p + Z.of_nat n)%Z →
          ∃ pg, get_page doc i = Ok pg
                ∧ ∀ sp, span_read cfg pg sp → short_text sp) →
    ∃ st', page_loop intersects cfg titles doc n p st = Ok st'
           ∧ last_number_parses st'.
Proof.
  induction n as [|n IH]; intros p st Hst Hpages; simpl.
  - by exists st.
  - unfold process_page.
    destruct (Hpages p) as (pg & -> & Hshort); [lia|]. simpl.
    destruct (block_loop_returns p pg Hshort (blocks pg) st)
      as (st1 & -> & Hst1); [done..|].
    simpl. apply IH; [done|]. intros i Hi. apply Hpages. lia.
Qed.

End Returns.



(** ** The numbers the default pattern lets through *)

Lemma heading_match_default cfg sp m :
  heading_regex cfg = default_heading_regex →
  heading_match cfg sp = Some m →
  re_match default_heading_regex (text sp) = Some m.
Proof.
  intros Hre Hm. unfold heading_match in Hm. rewrite Hre in Hm.
  destruct (re_match default_heading_regex (text sp)); [|done].
  destruct (min_font_size cfg); [|done].
  by destruct (Qle_bool _ _).
Qed.

(** X14. With the default heading pattern every number in the output is
    a numbering string: runs of decimal digits, none empty, separated by
    single dots. *)
Theorem output_numbers_are_numberings intersects doc cfg out :
  heading_regex cfg = default_heading_regex →
  extract_hierarchy_checked intersects doc cfg = Ok out →
  Forall (λ s, is_numbering_string (number s) = true) out.
Proof.
  intros Hre (st & Hloop & ->)%extract_all_sections.
  apply (page_loop_inv_match intersects cfg _ doc
           (λ _ st, Forall (λ s, is_numbering_string (number s) = true)
                      (all_sections st))) in Hloop.
  - done.
  - intros _ st0 txt. by apply all_sections_append_Forall.
  - intros p st0 sp m num_str t txt st' Hst Hm Hg
      [-> | Hopen]%accept_or_fold_cases.
    + by apply all_sections_append_Forall.
    + apply open_section_inv in Hopen as (tt & n & -> & -> & ->).
      unfold all_sections at 1. simpl. apply Forall_app. split; [done|].
      constructor; [|constructor]. simpl.
      apply (heading_match_default _ _ _ Hre) in Hm.
      apply default_heading_regex_match in Hm
        as (ws & n' & sep & r & tail & _ & H1 & _ & Hn & _).
      rewrite Hre in Hg. unfold group in Hg. simpl in Hg.
      rewrite H1 in Hg. by inversion Hg; subst.
  - done.
  - constructor.
Qed.

Lemma output_numbers_are_numberings_witness :
  Forall (λ s, is_numbering_string (number s) = true) scenario_sections.
Proof.
  apply (output_numbers_are_numberings rect_overlaps scenario_doc
           default_config).
  - reflexivity.
  - vm_compute. reflexivity.
Defined.

(** ** Where the sections come from *)

(** X15. Every section of the output comes from a span of the document:
    one read on the page the section is filed under, in a block that is
    not skipped, which the heading pattern matches with the section's
    number as group 1, whose font passes the size gate and which lies on
    no link. *)
Theorem output_sections_from_spans intersects doc cfg out :
  extract_hierarchy_checked intersects doc cfg = Ok out →
  Forall (heading_span intersects cfg doc) out.
Proof.
  intros (st & Hloop & ->)%extract_all_sections.
  apply (page_loop_inv_spans intersects cfg _ doc
           (λ _ st, Forall (heading_span intersects cfg doc)
                      (all_sections st))) in Hloop.
  - done.
  - intros _ st0 txt. by apply all_sections_append_Forall.
  - intros p pg st0 sp m num_str t txt st' Hst Hpg Hsp Hm Hg Hl
      [-> | Hopen]%accept_or_fold_cases.
    + by apply all_sections_append_Forall.
    + apply open_section_inv in Hopen as (tt & n & -> & -> & ->).
      unfold all_sections at 1. simpl. apply Forall_app. split; [done|].
      constructor; [|constructor].
      exists p, pg, sp, m. repeat split; try done. simpl.
      unfold group in Hg. destruct (1 <=? ngroups _); by inversion Hg.
  - done.
  - constructor.
Qed.

Lemma output_sections_from_spans_witness :
  Forall (heading_span rect_overlaps default_config scenario_doc)
    scenario_sections.
Proof.
  apply (output_sections_from_spans rect_overlaps scenario_doc default_config).
  vm_compute. reflexivity.
Defined.

(** ** A document without headings *)

Section NoHeading.

Variable intersects : Rect → Rect → bool.
Variable cfg : Config.
Variable titles : list string.

Lemma no_section_append st txt :
  no_section st → no_section (append_text st txt).
Proof. intros [Hs Hc]. split; simpl; [done|]. by rewrite Hc. Qed.

Section OnePage.

Variable page_num : Z.
Variable pg : Page.
Hypothesis no_match :
  ∀ sp, span_read cfg pg sp → heading_match cfg sp = None.

Lemma process_span_quiet lines line_idx spans span_idx st :
  Forall (span_read cfg pg) spans → span_idx < length spans →
  no_section st →
  ∃ st', process_span intersects cfg titles page_num (links pg) lines
           line_idx spans span_idx st = Ok st'
         ∧ no_section st'.
Proof.
  intros Hspans Hidx Hst. unfold process_span.
  destruct (lookup_lt_is_Some_2 spans span_idx Hidx) as [sp Hsp].
  rewrite Hsp. rewrite (no_match sp (Forall_lookup_1 _ _ _ _ Hspans Hsp)).
  destruct (bool_decide _); [by exists st|].
  destruct (started st); eexists; split; try done.
  by apply no_section_append.
Qed.

Lemma span_loop_quiet lines line_idx spans :
  Forall (span_read cfg pg) spans →
  ∀ n span_idx st,
    span_idx + n ≤ length spans → no_section st →
    ∃ st', span_loop intersects cfg titles page_num (links pg) lines line_idx
             spans n span_idx st = Ok st'
           ∧ no_section st'.
Proof.
  intros Hspans. induction n as [|n IH]; intros span_idx st Hlen Hst; simpl.
  - by exists st.
  - destruct (process_span_quiet lines line_idx spans span_idx st Hspans)
      as (st1 & -> & Hst1); [lia|done|].
    simpl. apply IH; [lia|done].
Qed.

Lemma line_loop_quiet lines :
  Forall (λ l, Forall (span_read cfg pg) (spans l)) lines →
  ∀ n line_idx st,
    line_idx + n ≤ length lines → no_section st →
    ∃ st', line_loop intersects cfg titles page_num (links pg) lines n
             line_idx st = Ok st'
           ∧ no_section st'.
Proof.
  intros Hlines. induction n as [|n IH]; intros line_idx st Hlen Hst; simpl.
  - by exists st.
  - unfold process_line.
    destruct (lookup_lt_is_Some_2 lines line_idx) as [l Hl]; [lia|].
    rewrite Hl.
    destruct (span_loop_quiet lines line_idx (spans l)
                (Forall_lookup_1 _ _ _ _ Hlines Hl) (length (spans l)) 0 st)
      as (st1 & -> & Hst1); [lia|done|].
    simpl. apply IH; [lia|]. by apply no_section_append.
Qed.

Lemma block_loop_quiet :
  ∀ bs st,
    bs ⊆ blocks pg → no_section st →
    ∃ st', block_loop intersects cfg titles page_num pg bs st = Ok st'
           ∧ no_section st'.
Proof.
  induction bs as [|b bs IH]; intros st Hbs Hst; simpl.
  - by exists st.
  - unfold process_block.
    destruct (block_skipped cfg (height pg) b) eqn:Hskip; simpl.
    { apply IH; [set_solver|done]. }
    destruct (line_loop_quiet (default [] (lines b)))
      with (n := length (default [] (lines b))) (line_idx := 0) (st := st)
      as (st1 & -> & Hst1); [|lia|done|].
    { apply Forall_forall. intros l Hl. apply Forall_forall. intros sp Hsp.
      exists b, l. repeat split; [set_solver|done..]. }
    simpl. apply IH; [set_solver|done].
Qed.

End OnePage.

Lemma page_loop_quiet doc :
  ∀ n p st,
    no_section st →
    (∀ i, (p ≤ i < p + Z.of_nat n)%Z →
          ∃ pg, get_page doc i = Ok pg
                ∧ ∀ sp, span_read cfg pg sp → heading_match cfg sp = None) →
    ∃ st', page_loop intersects cfg titles doc n p st = Ok st'
           ∧ no_section st'.
Proof.
  induction n as [|n IH]; intros p st Hst Hpages; simpl.
  - by exists st.
  - unfold process_page.
    destruct (Hpages p) as (pg & -> & Hquiet); [lia|]. simpl.
    destruct (block_loop_quiet p pg Hquiet (blocks pg) st)
      as (st1 & -> & Hst1); [done..|].
    simpl. apply IH; [done|]. intros i Hi. apply Hpages. lia.
Qed.

End NoHeading.

(** X16. A document without headings gives the empty list: when every
    page of the range can be loaded and the heading pattern, with the
    size gate, lets through no span read on them, the extraction returns
    no section and drops all the text. *)
Theorem no_heading_no_section intersects doc cfg :
  (∀ i, (page_start_of cfg ≤ i < page_end_of doc cfg)%Z →
        ∃ pg, get_page doc i = Ok pg
              ∧ ∀ sp, span_read cfg pg sp → heading_match cfg sp = None) →
  extract_hierarchy_checked intersects doc cfg = Ok [].
Proof.
  intros Hpages. unfold extract_hierarchy_checked.
  fold (page_start_of cfg). fold (page_end_of doc cfg).
  destruct (page_loop_quiet intersects cfg (toc_title <$> toc doc) doc
              (Z.to_nat (page_end_of doc cfg - page_start_of cfg))
              (page_start_of cfg) (initial_state cfg))
    as (st & -> & Hs & Hc).
  - by split.
  - intros i Hi. apply Hpages. lia.
  - simpl. by rewrite Hs, Hc.
Qed.

Lemma no_heading_no_section_witness :
  extract_hierarchy_checked rect_overlaps plain_doc default_config = Ok [].
Proof.
  apply (no_heading_no_section rect_overlaps plain_doc default_config).
  intros i Hi.
  assert (i = 0%Z) as ->
    by (unfold page_start_of, page_end_of in Hi; simpl in Hi; lia).
  eexists. split; [reflexivity|].
  intros sp (b & l & Hb & _ & Hl & Hsp).
  apply list_elem_of_singleton in Hb as ->. simpl in Hl.
  apply elem_of_cons in Hl as [-> | Hl].
  - apply list_elem_of_singleton in Hsp as ->. reflexivity.
  - apply list_elem_of_singleton in Hl as ->.
    apply list_elem_of_singleton in Hsp as ->. reflexivity.
Defined.

(** * Further properties of the hierarchy builder *)

(** ** The rounds on the chain *)

Lemma zpop_run h hi root node lv :
  get_item h (VRef node) "level" = Ok (VInt lv) →
  ∀ n frames closed,
    length frames = n →
    chain_ok h hi root frames closed →
    pop_stack h node (f_addr <$> frames)
    = Ok (f_addr <$> (zpop n lv frames closed).1)
    ∧ chain_ok h hi root (zpop n lv frames closed).1
        (zpop n lv frames closed).2
    ∧ chain_preorder (zpop n lv frames closed).1 (zpop n lv frames closed).2
      = chain_preorder frames closed
    ∧ match (zpop n lv frames closed).1 with
      | f :: _ => (f_level f < lv)%Z
      | [] => True
      end.
Proof.
  intros Hnode. induction n as [|n IH]; intros frames closed Hlen Hok.
  - by destruct frames.
  - destruct frames as [|f below]; [done|].
    rewrite fmap_cons, pop_stack_cons.
    assert (get_item h (VRef (f_addr f)) "level" = Ok (VInt (f_level f)))
      as ->.
    { destruct Hok as ([(nd & kids & _ & Ha & _ & Hd & _) _] & Hlev & _).
      apply Forall_cons in Hlev as [(Hl & _) _].
      apply dict_level_lookup in Hl. rewrite <- Hd in Hl.
      rewrite lookup_delete_ne in Hl by done.
      unfold get_item. by rewrite Ha, Hl. }
    rewrite Hnode.
    change (zpop (S n) lv (f :: below) closed)
      with (if (lv <=? f_level f)%Z
            then zpop n lv (close_top (f :: below) closed).1
                   (close_top (f :: below) closed).2
            else (f :: below, closed)).
    simpl rbind. unfold py_ge. simpl rbind.
    destruct (lv <=? f_level f)%Z eqn:Hge.
    + destruct (IH (close_top (f :: below) closed).1
                   (close_top (f :: below) closed).2)
        as (Hpop & Hok' & Hpre & Htop).
      * rewrite close_top_length. simpl in Hlen. lia.
      * by apply close_top_ok.
      * rewrite close_top_addrs in Hpop. rewrite close_top_preorder in Hpre.
        done.
    + repeat split; try done; try apply Hok.
      apply Z.leb_gt in Hge. simpl. lia.
Qed.

Lemma zstep_run h root frames closed a d lv :
  chain_ok h (length h) root frames closed →
  h !! a = Some (ODict d) →
  d !! "level" = Some (VInt lv) →
  ∃ h' root',
    nest_step (VRef a) (h, root, f_addr <$> frames)
    = Ok (h', root', f_addr <$> (zstep (length h) d lv (frames, closed)).1)
    ∧ chain_ok h' (length h') root'
        (zstep (length h) d lv (frames, closed)).1
        (zstep (length h) d lv (frames, closed)).2
    ∧ length h' = length h + 2.
Proof.
  intros Hok Ha Hd. unfold nest_step, dict_copy. rewrite Ha. simpl.
  unfold set_children_empty.
  rewrite lookup_app_r, Nat.sub_diag by done. simpl.
  rewrite length_app. simpl.
  set (node := length h).
  set (nd := <["children" := VRef (node + 1)]> d).
  set (h2 := <[node := ODict nd]> (h ++ [ODict d]) ++ [OList []]).
  assert (∀ x, x < node → h2 !! x = h !! x) as Hold.
  { intros x Hx. unfold h2.
    rewrite lookup_app_l by (rewrite length_insert, length_app; simpl; lia).
    rewrite list_lookup_insert_ne by lia. by rewrite lookup_app_l. }
  assert (h2 !! node = Some (ODict nd)) as Hnode.
  { unfold h2.
    rewrite lookup_app_l by (rewrite length_insert, length_app; simpl; lia).
    apply list_lookup_insert_eq. rewrite length_app. simpl. lia. }
  assert (h2 !! (node + 1) = Some (OList [])) as Hlist.
  { unfold h2. rewrite lookup_app_r;
      rewrite length_insert, length_app; simpl; [|lia].
    by replace (node + 1 - (length h + 1)) with 0 by (unfold node; lia). }
  assert (length h2 = node + 2) as Hlen2.
  { unfold h2. rewrite length_app, length_insert, length_app. simpl. lia. }
  assert (chain_ok h2 node root frames closed) as Hok2.
  { destruct Hok as (Hc & Hrest). split; [|done].
    eapply chain_transfer; [|exact Hc]. done. }
  assert (get_item h2 (VRef node) "level" = Ok (VInt lv)) as Hlv.
  { unfold get_item. rewrite Hnode. unfold nd.
    by rewrite lookup_insert_ne, Hd by done. }
  destruct (zpop_run h2 node root node lv Hlv (length frames) frames
              closed eq_refl Hok2) as (Hpop & Hok1 & _ & Htop).
  rewrite Hpop. unfold zstep. simpl fst. simpl snd.
  destruct (zpop (length frames) lv frames closed) as [frames1 closed1].
  simpl fst in *. simpl snd in *. simpl rbind.
  set (F := {| f_addr := node; f_dict := delete "children" d; f_level := lv;
               f_kids := [] |}).
  assert (frame_levels F) as HF.
  { repeat split; simpl; [|constructor..].
    apply dict_level_lookup. by rewrite lookup_delete_ne. }
  assert (delete "children" nd = delete "children" d) as Hdel.
  { unfold nd. apply delete_insert_eq. }
  destruct Hok1 as (Hc1 & Hlev1 & Hrise1 & Hclosed1).
  destruct frames1 as [|p rest]; simpl.
  - exists h2, (root ++ [node]). split; [done|]. split; [|done].
    rewrite Hlen2. split; [split|split; [by constructor|done]].
    + exists nd, []. simpl. repeat split; try done; [lia|].
      apply lookup_insert_eq.
    + simpl in Hc1. destruct Hc1 as (rkids & -> & Hroots).
      exists rkids. by rewrite app_nil_r.
  - simpl in Hc1.
    destruct Hc1 as [(ndp & kidsp & Hplt & Hp & Hpc & Hpd & Hpl & Hpk) Hbelow].
    rewrite app_nil_r in Hpl.
    unfold append_child, get_item. rewrite Hp, Hpc. simpl. rewrite Hpl.
    set (h3 := <[f_addr p + 1 := OList ((VRef <$> kidsp) ++ [VRef node])]> h2).
    assert (∀ x, x ≠ f_addr p + 1 → h3 !! x = h2 !! x) as Hother.
    { intros x Hx. unfold h3. by rewrite list_lookup_insert_ne. }
    assert (length h3 = node + 2) as Hlen3.
    { unfold h3. by rewrite length_insert. }
    exists h3, root. split; [done|]. split; [|done].
    rewrite Hlen3.
    split; [split|split; [by constructor|done]].
    + exists nd, []. simpl. rewrite !Hother by lia.
      repeat split; try done; [lia|]. apply lookup_insert_eq.
    + simpl. split.
      * exists ndp, kidsp. rewrite Hother by lia.
        repeat split; try done.
        -- unfold h3. rewrite list_lookup_insert_eq.
           ++ by rewrite fmap_app.
           ++ by eapply lookup_lt_Some.
        -- eapply forest_in_transfer; [..|exact Hpk]; [lia|lia|].
           intros x ?. apply Hother. lia.
      * eapply chain_transfer; [|exact Hbelow].
        intros x ?. apply Hother. lia.
Qed.

Lemma zloop_run h0 addrs ds :
  Forall2 (λ a d, h0 !! a = Some (ODict d)
                  ∧ ∃ lv, d !! "level" = Some (VInt lv)) addrs ds →
  ∀ h root frames closed,
    keeps_input h0 (h, root, f_addr <$> frames) →
    chain_ok h (length h) root frames closed →
    ∃ h' root',
      nest_loop (VRef <$> addrs) (h, root, f_addr <$> frames)
      = Ok (h', root', f_addr <$> (zloop (length h) ds (frames, closed)).1)
      ∧ chain_ok h' (length h') root'
          (zloop (length h) ds (frames, closed)).1
          (zloop (length h) ds (frames, closed)).2
      ∧ length h' = length h + 2 * length ds.
Proof.
  induction 1 as [|a d addrs ds [Ha [lv Hlv]] _ IH];
    intros h root frames closed Hkeep Hok.
  - exists h, root. simpl. repeat split; try apply Hok. lia.
  - assert (h !! a = Some (ODict d)) as Ha'.
    { destruct Hkeep as (Hpre & _). rewrite Hpre; [done|].
      by eapply lookup_lt_Some. }
    destruct (zstep_run h root frames closed a d lv Hok Ha' Hlv)
      as (h1 & root1 & Hstep & Hok1 & Hlen1).
    assert (default 0%Z (dict_level d) = lv) as Hdl.
    { apply dict_level_lookup in Hlv. by rewrite Hlv. }
    simpl zloop. rewrite Hdl.
    destruct (zstep (length h) d lv (frames, closed)) as [frames1 closed1].
    simpl fst in *. simpl snd in *.
    destruct (IH h1 root1 frames1 closed1)
      as (h' & root' & Hloop & Hok' & Hlen'); [|done|].
    { eapply nest_step_keeps_input; [exact Hkeep|exact Hstep]. }
    exists h', root'.
    rewrite fmap_cons, nest_loop_cons, Hstep. simpl rbind.
    rewrite Hlen1 in Hloop, Hok'.
    split; [done|]. split; [done|]. simpl. lia.
Qed.

Lemma zclose_run h hi root :
  ∀ n frames closed,
    length frames = n →
    chain_ok h hi root frames closed →
    Forall2 (tree_in h 0 hi) root (zclose n frames closed)
    ∧ Forall levels_increase (zclose n frames closed)
    ∧ flat_map preorder (zclose n frames closed)
      = chain_preorder frames closed.
Proof.
  induction n as [|n IH]; intros frames closed Hlen Hok.
  - destruct frames; [|done].
    destruct Hok as ((rkids & -> & Hroots) & _ & _ & Hclosed).
    simpl. rewrite app_nil_r. repeat split; [done..|].
    unfold chain_preorder. simpl. by rewrite app_nil_r.
  - destruct frames as [|f below]; [done|].
    change (zclose (S n) (f :: below) closed)
      with (zclose n (close_top (f :: below) closed).1
              (close_top (f :: below) closed).2).
    destruct (IH (close_top (f :: below) closed).1
                 (close_top (f :: below) closed).2)
      as (Hf & Hl & Hp).
    + rewrite close_top_length. simpl in Hlen. lia.
    + by apply close_top_ok.
    + by rewrite Hp, close_top_preorder.
Qed.

Lemma zpop_preorder lv :
  ∀ n frames closed,
    chain_preorder (zpop n lv frames closed).1 (zpop n lv frames closed).2
    = chain_preorder frames closed.
Proof.
  induction n as [|n IH]; intros frames closed; [by destruct frames|].
  destruct frames as [|f below]; [done|]. simpl zpop.
  destruct (lv <=? f_level f)%Z; [|done].
  fold (close_top (f :: below) closed).
  by rewrite IH, close_top_preorder.
Qed.

Lemma zloop_preorder :
  ∀ ds a st,
    chain_preorder (zloop a ds st).1 (zloop a ds st).2
    = chain_preorder st.1 st.2 ++ (delete "children" <$> ds).
Proof.
  induction ds as [|d ds IH]; intros a st; simpl.
  - by rewrite app_nil_r.
  - rewrite IH. unfold zstep. simpl fst. simpl snd.
    rewrite chain_preorder_push by done. rewrite zpop_preorder.
    by rewrite <- app_assoc.
Qed.

(** ** The order of the siblings *)

Lemma falling_snoc ts t :
  falling ts → lasts_ge ts (tree_level t) → falling (ts ++ [t]).
Proof.
  induction ts as [|a ts IH]; [done|]. intros Hf Hl.
  destruct ts as [|b ts].
  - simpl. split; [|done]. by apply Hl.
  - destruct Hf as [Hab Hf]. split; [done|]. apply IH; [done|].
    intros x Hx. by apply Hl.
Qed.

Lemma lasts_ge_snoc ts t lv :
  (lv ≤ tree_level t)%Z → lasts_ge (ts ++ [t]) lv.
Proof. intros H x. rewrite last_snoc. by intros [= <-]. Qed.

Lemma frame_tree_level f :
  dict_level (f_dict f) = Some (f_level f) →
  tree_level (frame_tree f) = f_level f.
Proof. unfold tree_level. simpl. by intros ->. Qed.

Lemma frame_tree_falls f : frame_falls f → siblings_fall (frame_tree f).
Proof. intros (_ & Hf & Hk). by constructor. Qed.

Lemma close_top_fall above f below closed :
  from_option (λ lv, (lv ≤ f_level f)%Z) True above →
  zfall above (f :: below) closed →
  zfall above (close_top (f :: below) closed).1
    (close_top (f :: below) closed).2.
Proof.
  intros Habove ([_ Hlink] & Hframes & Hfall & Hclosed).
  apply Forall_cons in Hframes as [Hf Hframes].
  pose proof (frame_tree_level f (proj1 Hf)) as Hlv.
  pose proof (frame_tree_falls f Hf) as Htree.
  destruct below as [|f' below]; simpl in *.
  - repeat split.
    + destruct above as [lv|]; [|done]. simpl in *.
      apply lasts_ge_snoc. lia.
    + constructor.
    + apply falling_snoc; [done|]. by rewrite Hlv.
    + apply Forall_app. split; [done|]. by constructor.
  - destruct Hlink as [Hlast Hlink].
    apply Forall_cons in Hframes as [(Hd' & Hf' & Hk') Hframes].
    repeat split; simpl; try done.
    + destruct above as [lv|]; [|done]. simpl in *.
      apply lasts_ge_snoc. lia.
    + constructor; [|done]. repeat split; simpl; [done|..].
      * apply falling_snoc; [done|]. by rewrite Hlv.
      * apply Forall_app. split; [done|]. by constructor.
Qed.

Lemma zpop_fall lv :
  ∀ n frames closed,
    zfall (Some lv) frames closed →
    zfall (Some lv) (zpop n lv frames closed).1 (zpop n lv frames closed).2.
Proof.
  induction n as [|n IH]; intros frames closed H; [by destruct frames|].
  destruct frames as [|f below]; [done|]. simpl zpop.
  destruct (lv <=? f_level f)%Z eqn:Hge; [|done].
  fold (close_top (f :: below) closed). apply IH.
  apply close_top_fall; [|done]. simpl. lia.
Qed.

Lemma zloop_fall :
  ∀ ds a st,
    Forall (λ d, ∃ lv, d !! "level" = Some (VInt lv)) ds →
    (∀ x, zfall (Some x) st.1 st.2) →
    ∀ x, zfall (Some x) (zloop a ds st).1 (zloop a ds st).2.
Proof.
  induction ds as [|d ds IH]; intros a st Hds Hst; [done|].
  apply Forall_cons in Hds as [[lv Hlv] Hds]. simpl. apply IH; [done|].
  assert (dict_level d = Some lv) as -> by by apply dict_level_lookup.
  simpl. intros x.
  destruct (zpop_fall lv (length st.1) st.1 st.2 (Hst lv))
    as (Hlink & Hframes & Hfall & Hclosed).
  repeat split; try done.
  constructor; [|done]. repeat split; simpl; [|constructor].
  apply dict_level_lookup. by rewrite lookup_delete_ne.
Qed.

Lemma linked_none above frames closed :
  linked above frames closed → linked None frames closed.
Proof. destruct frames; simpl; [done|]. by intros [_ ?]. Qed.

Lemma zclose_fall :
  ∀ n frames closed,
    zfall None frames closed →
    falling (zclose n frames closed)
    ∧ Forall siblings_fall (zclose n frames closed).
Proof.
  induction n as [|n IH]; intros frames closed H.
  - destruct frames; simpl; split; apply H.
  - destruct frames as [|f below]; [simpl; split; apply H|].
    change (zclose (S n) (f :: below) closed)
      with (zclose n (close_top (f :: below) closed).1
              (close_top (f :: below) closed).2).
    apply IH. by apply close_top_fall.
Qed.

Lemma linked_zfall_none above frames closed :
  zfall above frames closed → zfall None frames closed.
Proof. intros (Hl & Hrest). split; [by eapply linked_none|done]. Qed.

(** ** The whole call on the chain *)

Lemma nest_run h addrs ds :
  Forall2 (λ a d, h !! a = Some (ODict d)
                  ∧ ∃ lv, d !! "level" = Some (VInt lv)) addrs ds →
  ∃ h' root,
    nest_sections_by_hierarchy h (VRef <$> addrs) = Ok (h', root)
    ∧ length h' = length h + 2 * length ds
    ∧ chain_ok h' (length h') root
        (zloop (length h) ds ([], [])).1 (zloop (length h) ds ([], [])).2.
Proof.
  intros Hin.
  assert (chain_ok h (length h) [] [] []) as Hnil.
  { repeat split; try constructor. exists []. by split; [|constructor]. }
  destruct addrs as [|a addrs].
  { apply Forall2_nil_inv_l in Hin as ->. exists h, []. simpl.
    split; [done|]. split; [lia|done]. }
  destruct (zloop_run h (a :: addrs) ds Hin h [] [] [])
    as (h' & root & Hloop & Hok & Hlen); [|done|].
  { repeat split; auto. }
  exists h', root. unfold nest_sections_by_hierarchy.
  rewrite fmap_cons in *.
  change (f_addr <$> []) with (@nil nat) in Hloop.
  rewrite Hloop. by simpl.
Qed.

(** X17. The hierarchy builder takes dicts with any entries, as long as
    each has an integer ['level']: it returns, makes two objects for each
    section, and leaves a forest in which every child has a level greater
    than its parent's and whose pre-order traversal is the list of the
    sections, a ['children'] entry they came with being replaced. *)
Theorem nest_any_dicts h addrs ds :
  Forall2 (λ a d, h !! a = Some (ODict d)
                  ∧ ∃ lv, d !! "level" = Some (VInt lv)) addrs ds →
  ∃ h' root forest,
    nest_sections_by_hierarchy h (VRef <$> addrs) = Ok (h', root)
    ∧ length h' = length h + 2 * length ds
    ∧ Forall2 (tree_at h') root forest
    ∧ Forall levels_increase forest
    ∧ flat_map preorder forest = delete "children" <$> ds.
Proof.
  intros (h' & root & Hnest & Hlen & Hok)%nest_run.
  destruct (zclose_run h' (length h') root _ _ _ eq_refl Hok)
    as (Hforest & Hlev & Hpre).
  eexists h', root, _. split; [done|]. split; [done|].
  split; [exact Hforest|]. split; [done|].
  by rewrite Hpre, zloop_preorder.
Qed.

Lemma nest_any_dicts_witness :
  ∃ h' root forest,
    nest_sections_by_hierarchy stale_heap (VRef <$> [0; 1; 2; 3; 4])
    = Ok (h', root)
    ∧ length h' = length stale_heap + 2 * length stale_dicts
    ∧ Forall2 (tree_at h') root forest
    ∧ Forall levels_increase forest
    ∧ flat_map preorder forest = delete "children" <$> stale_dicts.
Proof.
  apply (nest_any_dicts stale_heap [0; 1; 2; 3; 4] stale_dicts).
  repeat constructor; by eexists.
Defined.

(** X18. In the forest the hierarchy builder leaves, the level does not
    rise from a node to its next sibling, among the roots as among the
    children of every node: a section hangs under the nearest section
    before it that has a smaller level. *)
Theorem nest_siblings_fall h addrs ds :
  Forall2 (λ a d, h !! a = Some (ODict d)
                  ∧ ∃ lv, d !! "level" = Some (VInt lv)) addrs ds →
  ∃ h' root forest,
    nest_sections_by_hierarchy h (VRef <$> addrs) = Ok (h', root)
    ∧ Forall2 (tree_at h') root forest
    ∧ flat_map preorder forest = delete "children" <$> ds
    ∧ falling forest ∧ Forall siblings_fall forest.
Proof.
  intros Hin.
  assert (Forall (λ d, ∃ lv, d !! "level" = Some (VInt lv)) ds) as Hds.
  { clear -Hin. induction Hin as [|a d addrs ds [_ Hd] _ IH]; by constructor. }
  apply nest_run in Hin as (h' & root & Hnest & _ & Hok).
  destruct (zclose_run h' (length h') root _ _ _ eq_refl Hok)
    as (Hforest & _ & Hpre).
  eexists h', root, _. split; [done|]. split; [exact Hforest|].
  split; [by rewrite Hpre, zloop_preorder|].
  apply zclose_fall. eapply (linked_zfall_none (Some 0%Z)).
  apply zloop_fall; [done|]. intros x. by repeat split.
Qed.

Lemma nest_siblings_fall_witness :
  ∃ h' root forest,
    nest_sections_by_hierarchy stale_heap (VRef <$> [0; 1; 2; 3; 4])
    = Ok (h', root)
    ∧ Forall2 (tree_at h') root forest
    ∧ flat_map preorder forest = delete "children" <$> stale_dicts
    ∧ falling forest ∧ Forall siblings_fall forest.
Proof.
  apply (nest_siblings_fall stale_heap [0; 1; 2; 3; 4] stale_dicts).
  repeat constructor; by eexists.
Defined.

(** ** Levels that go down one at a time *)

Lemma frame_tree_unit f : frame_unit f → one_level_down (frame_tree f).
Proof.
  intros (Hd & Hk & Hi). constructor; [|done]. unfold frame_tree.
  by rewrite Hd.
Qed.

Lemma close_top_unit f below closed :
  zunit (f :: below) closed →
  zunit (close_top (f :: below) closed).1 (close_top (f :: below) closed).2.
Proof.
  intros (Hsteps & Hframes & Hclosed).
  apply Forall_cons in Hframes as [Hf Hframes].
  pose proof (frame_tree_unit f Hf) as Htree.
  destruct below as [|f' below]; simpl.
  - repeat split; [constructor|].
    apply Forall_app. split; [done|]. by constructor.
  - destruct Hsteps as [Hlv Hsteps].
    apply Forall_cons in Hframes as [(Hd' & Hk' & Hi') Hframes].
    split; [|split; [|done]].
    + simpl in Hsteps. by destruct below.
    + constructor; [|done]. repeat split; simpl; [done|..].
      * apply Forall_app. split; [done|]. constructor; [|constructor].
        simpl. rewrite <- Hlv. apply Hf.
      * apply Forall_app. split; [done|]. by constructor.
Qed.

Lemma zpop_unit lv :
  ∀ n frames closed,
    length frames = n →
    zunit frames closed →
    match frames with
    | f :: _ => (lv ≤ Z.succ (f_level f))%Z
    | [] => True
    end →
    zunit (zpop n lv frames closed).1 (zpop n lv frames closed).2
    ∧ match (zpop n lv frames closed).1 with
      | f :: _ => lv = Z.succ (f_level f)
      | [] => True
      end.
Proof.
  induction n as [|n IH]; intros frames closed Hlen Hunit Htop.
  - by destruct frames.
  - destruct frames as [|f below]; [done|]. simpl zpop.
    destruct (lv <=? f_level f)%Z eqn:Hge.
    + fold (close_top (f :: below) closed). apply IH.
      * rewrite close_top_length. simpl in Hlen. lia.
      * by apply close_top_unit.
      * destruct below as [|f' below]; simpl; [done|].
        destruct Hunit as ([Hlv _] & _). apply Z.leb_le in Hge. lia.
    + split; [done|]. apply Z.leb_gt in Hge. simpl. lia.
Qed.

Lemma zloop_unit :
  ∀ ds a st,
    zunit st.1 st.2 →
    gentle_from (f_level <$> head st.1) ds →
    zunit (zloop a ds st).1 (zloop a ds st).2.
Proof.
  induction ds as [|d ds IH]; intros a st Hunit Hds; [done|].
  destruct Hds as (lv & Hlv & Hprev & Hds). simpl. apply IH.
  - assert (dict_level d = Some lv) as -> by by apply dict_level_lookup.
    simpl.
    destruct (zpop_unit lv (length st.1) st.1 st.2 eq_refl Hunit)
      as ((Hsteps & Hframes & Hclosed) & Htop).
    { by destruct st.1. }
    split; [|split; [|done]].
    + simpl. by destruct ((zpop (length st.1) lv st.1 st.2).1).
    + constructor; [|done]. repeat split; simpl; [|constructor..].
      apply dict_level_lookup. by rewrite lookup_delete_ne.
  - assert (dict_level d = Some lv) as -> by by apply dict_level_lookup.
    done.
Qed.

Lemma zclose_unit :
  ∀ n frames closed,
    zunit frames closed → Forall one_level_down (zclose n frames closed).
Proof.
  induction n as [|n IH]; intros frames closed H.
  - destruct frames; apply H.
  - destruct frames as [|f below]; [apply H|].
    change (zclose (S n) (f :: below) closed)
      with (zclose n (close_top (f :: below) closed).1
              (close_top (f :: below) closed).2).
    apply IH. by apply close_top_unit.
Qed.

(** ** The extraction followed by the hierarchy builder *)

Lemma follows_step a b :
  a ≠ EmptyString → is_next_heading (Some a) b = Ok true →
  length (split_on "." b) ≤ length (split_on "." a) + 1.
Proof.
  intros Ha H.
  assert (truthy_str (Some a) = true) as Ht by by destruct a.
  destruct (parse_numbering a) as [pn|e1] eqn:Hp.
  - destruct (parse_numbering b) as [cn|e2] eqn:Hc.
    + destruct (is_next_heading_successor a b pn cn Ht Hp Hc)
        as (r & Hr & Hs).
      rewrite Hr in H. inversion H; subst r.
      apply rmap_length in Hp, Hc. rewrite <- Hp, <- Hc.
      apply successor_length. by apply Hs.
    + unfold is_next_heading in H. by rewrite Ht, Hp, Hc in H.
  - unfold is_next_heading in H. by rewrite Ht, Hp in H.
Qed.

Lemma chain_gentle :
  ∀ rest s,
    follows_chain (number <$> s :: rest) →
    Forall well_made (s :: rest) →
    Forall (λ s, number s ≠ EmptyString) (s :: rest) →
    gentle_from (Some (level s)) (section_dict <$> rest).
Proof.
  induction rest as [|s2 rest IH]; intros s Hchain Hmade Hne; [done|].
  destruct Hchain as [Hstep Hchain].
  apply Forall_cons in Hmade as [[Hl _] Hmade].
  apply Forall_cons in Hne as [Hs Hne].
  exists (level s2). split; [apply section_dict_level|]. split.
  - simpl. apply (follows_step _ _ Hs) in Hstep.
    rewrite !split_on_length in Hstep.
    apply Forall_cons in Hmade as [[Hl2 _] _]. lia.
  - by apply IH.
Qed.

(** X19. Nesting what the extraction returns: when no section has an
    empty number, the hierarchy builder returns on the dicts of the
    output, and in its forest, whose pre-order traversal is the output,
    every child is exactly one level below its parent. *)
Theorem nested_output_one_level_down intersects doc cfg out h addrs :
  extract_hierarchy_checked intersects doc cfg = Ok out →
  Forall (λ s, number s ≠ EmptyString) out →
  Forall2 (λ a s, h !! a = Some (ODict (section_dict s))) addrs out →
  ∃ h' root forest,
    nest_sections_by_hierarchy h (VRef <$> addrs) = Ok (h', root)
    ∧ Forall2 (tree_at h') root forest
    ∧ flat_map preorder forest = section_dict <$> out
    ∧ Forall one_level_down forest.
Proof.
  intros Hout Hne Hin.
  pose proof (extract_follows_chain _ _ _ _ Hout) as Hchain.
  pose proof (extract_well_made _ _ _ _ Hout) as Hmade.
  destruct (nest_run h addrs (section_dict <$> out))
    as (h' & root & Hnest & _ & Hok).
  { apply Forall2_fmap_r. eapply Forall2_impl; [exact Hin|].
    intros x s Hx. split; [done|]. eexists. apply section_dict_level. }
  destruct (zclose_run h' (length h') root _ _ _ eq_refl Hok)
    as (Hforest & _ & Hpre).
  eexists h', root, _. split; [done|]. split; [exact Hforest|]. split.
  - rewrite Hpre, zloop_preorder. simpl.
    rewrite <- list_fmap_compose. apply list_fmap_ext.
    intros i s _. apply section_dict_no_children.
  - apply zclose_unit. apply zloop_unit; [by repeat split|].
    destruct out as [|s rest]; [done|].
    exists (level s). split; [apply section_dict_level|]. split; [done|].
    by apply chain_gentle.
Qed.

Lemma nested_output_one_level_down_witness :
  ∃ h' root forest,
    nest_sections_by_hierarchy scenario_heap (VRef <$> [0; 1; 2])
    = Ok (h', root)
    ∧ Forall2 (tree_at h') root forest
    ∧ flat_map preorder forest = section_dict <$> scenario_sections
    ∧ Forall one_level_down forest.
Proof.
  apply (nested_output_one_level_down rect_overlaps scenario_doc
           default_config scenario_sections scenario_heap [0; 1; 2]).
  - vm_compute. reflexivity.
  - by repeat constructor.
  - by repeat constructor.
Defined.

(** ** Sections without a level *)

Lemma nest_loop_app xs ys st :
  nest_loop (xs ++ ys) st = rbind (nest_loop xs st) (nest_loop ys).
Proof.
  revert st. induction xs as [|x xs IH]; intros st; [done|].
  rewrite <- app_comm_cons, !nest_loop_cons.
  destruct (nest_step x st) as [st1|e]; simpl; [apply IH|done].
Qed.

Lemma zloop_nonempty :
  ∀ ds a st, st.1 ≠ [] ∨ ds ≠ [] → (zloop a ds st).1 ≠ [].
Proof.
  induction ds as [|d ds IH]; intros a st H.
  - by destruct H.
  - simpl. apply IH. by left.
Qed.

(** X20. A single section needs no ['level']: on a list of one dict,
    whatever its entries, the hierarchy builder returns the node made
    for it, with an empty list of children, as the only root. *)
Theorem nest_single_section h a d :
  h !! a = Some (ODict d) →
  nest_sections_by_hierarchy h [VRef a]
  = Ok (h ++ [ODict (<["children" := VRef (length h + 1)]> d); OList []],
        [length h]).
Proof.
  intros Ha. unfold nest_sections_by_hierarchy. simpl nest_loop.
  unfold nest_step, dict_copy. rewrite Ha. simpl.
  unfold set_children_empty.
  rewrite lookup_app_r, Nat.sub_diag by done. simpl.
  rewrite length_app. simpl.
  rewrite insert_app_r_alt, Nat.sub_diag by done. simpl.
  by rewrite <- app_assoc.
Qed.

Lemma nest_single_section_witness :
  nest_sections_by_hierarchy unlevelled_heap [VRef 1]
  = Ok (unlevelled_heap
          ++ [ODict (<["children" := VRef (length unlevelled_heap + 1)]>
                       {["number" := VStr "2"]}); OList []],
        [length unlevelled_heap]).
Proof.
  apply (nest_single_section unlevelled_heap 1 {["number" := VStr "2"]}).
  reflexivity.
Defined.

(** X21. A section after the first must have a ['level']: when the
    sections before it have integer levels and it has none, the hierarchy
    builder raises [KeyError], whatever comes after it. *)
Theorem nest_missing_level h addrs ds a d rest :
  addrs ≠ [] →
  Forall2 (λ a d, h !! a = Some (ODict d)
                  ∧ ∃ lv, d !! "level" = Some (VInt lv)) addrs ds →
  h !! a = Some (ODict d) →
  d !! "level" = None →
  nest_sections_by_hierarchy h ((VRef <$> addrs) ++ VRef a :: rest)
  = Raise KeyError.
Proof.
  intros Hne Hin Ha Hd.
  assert (chain_ok h (length h) [] [] []) as Hnil.
  { repeat split; try constructor. exists []. by split; [|constructor]. }
  assert (keeps_input h (h, [], [])) as Hkeep0 by (repeat split; auto).
  destruct (zloop_run h addrs ds Hin h [] [] [] Hkeep0 Hnil)
    as (h1 & root1 & Hloop & Hok & _).
  change (f_addr <$> []) with (@nil nat) in Hloop.
  pose proof (nest_loop_keeps_input h _ _ _ Hkeep0 Hloop) as (Hpre & _).
  assert ((zloop (length h) ds ([], [])).1 ≠ []) as Hframes.
  { apply zloop_nonempty. right. intros ->.
    apply Forall2_nil_inv_r in Hin. done. }
  destruct ((zloop (length h) ds ([], [])).1) as [|f below]; [done|].
  assert (nest_step (VRef a) (h1, root1, f_addr <$> f :: below)
          = Raise KeyError) as Hstep.
  { rewrite fmap_cons. unfold nest_step, dict_copy.
    rewrite Hpre by (by eapply lookup_lt_Some). rewrite Ha. simpl.
    unfold set_children_empty.
    rewrite lookup_app_r, Nat.sub_diag by done. simpl.
    rewrite length_app. simpl.
    set (node := length h1).
    set (nd := <["children" := VRef (node + 1)]> d).
    set (h2 := <[node := ODict nd]> (h1 ++ [ODict d]) ++ [OList []]).
    assert (∀ x, x < node → h2 !! x = h1 !! x) as Hold.
    { intros x Hx. unfold h2.
      rewrite lookup_app_l by (rewrite length_insert, length_app; simpl; lia).
      rewrite list_lookup_insert_ne by lia. by rewrite lookup_app_l. }
    assert (h2 !! node = Some (ODict nd)) as Hnode.
    { unfold h2.
      rewrite lookup_app_l by (rewrite length_insert, length_app; simpl; lia).
      apply list_lookup_insert_eq. rewrite length_app. simpl. lia. }
    destruct Hok as ([(ndf & kids & Hlt & Hf & _ & Hdf & _) _] & Hlev & _).
    apply Forall_cons in Hlev as [(Hl & _) _].
    apply dict_level_lookup in Hl. rewrite <- Hdf in Hl.
    rewrite lookup_delete_ne in Hl by done.
    unfold get_item at 1. rewrite Hold by (unfold node; lia).
    rewrite Hf, Hl. simpl.
    unfold get_item. rewrite Hnode. unfold nd.
    by rewrite lookup_insert_ne, Hd by done. }
  unfold nest_sections_by_hierarchy.
  destruct ((VRef <$> addrs) ++ VRef a :: rest) eqn:Hall.
  { by destruct addrs. }
  rewrite <- Hall, nest_loop_app, Hloop.
  change (rbind (Ok ?x) ?k) with (k x). cbv beta.
  by rewrite nest_loop_cons, Hstep.
Qed.

Lemma nest_missing_level_witness :
  nest_sections_by_hierarchy unlevelled_heap ((VRef <$> [0]) ++ VRef 1 :: [])
  = Raise KeyError.
Proof.
  apply (nest_missing_level unlevelled_heap [0] [section_dict (sec "1" 1)]
           1 {["number" := VStr "2"]} []).
  - done.
  - repeat constructor; by eexists.
  - reflexivity.
  - reflexivity.
Defined.
